(** * treesync: the tree comparator and its action dispatcher

    A shallow embedding of [src/treesync.cpp]: the class [TreeDiff] with its
    merge-join traversal [processDir], the helpers [mkDirs],
    [removeRecursive], [copyRecursive] and [printDirectoryEntry], and the
    callbacks that [main] binds to the comparator.

    The program talks to the file system through [std::filesystem] and through
    the helper library [MiscUtils.hpp] (namespace [ut1]).  Neither is part of
    the sources, so both are taken as an abstract provider
    (class [Provider]); the program is embedded over an arbitrary provider and
    every theorem holds for all of them.  One small in-memory provider is
    given at the end to run the program on concrete trees. *)

From Stdlib Require Import String Ascii List ZArith NArith Bool Lia Sorted Btauto.
From Stdlib Require Import DecimalString.
From stdpp Require Import base option list gmap strings.

Local Open Scope string_scope.
Local Open Scope list_scope.

(** ** Strings and their order

    [std::map<std::string, ...>] orders its keys with [operator<] of
    [std::string]: lexicographic on the bytes, each compared as an unsigned
    value.  That is [String.compare]. *)

Definition str_lt (a b : string) : bool := String.ltb a b.

(** Modelled from the spec: [ut1::hasPrefix] is declared in [MiscUtils.hpp],
    which is not among the sources; it is the test that a name carries the
    given prefix. *)
Definition hasPrefix (s pre : string) : bool := String.prefix pre s.

(** ** Paths

    A [std::filesystem::path] is kept as the list of its components. *)

Definition path : Type := list string.

(** [p.filename()] *)
Definition filename (p : path) : string := List.last p "".
(** [p.parent_path()] *)
Definition parent_path (p : path) : path := List.removelast p.
(** [dir / name] *)
Definition path_append (dir : path) (name : string) : path := dir ++ [name].

(** ** File types *)

(** Modelled from the spec: the enumeration [ut1::FileType] is declared in
    [MiscUtils.hpp], which is not among the sources; its members are the ones
    the [switch] of [processDir] lists and the spec's entry classifier names. *)
Inductive FileType : Set :=
| FT_REGULAR | FT_DIR | FT_SYMLINK | FT_FIFO | FT_SOCKET
| FT_BLOCK | FT_CHAR | FT_NON_EXISTING.

Definition FileType_eqb (a b : FileType) : bool :=
  match a, b with
  | FT_REGULAR, FT_REGULAR | FT_DIR, FT_DIR | FT_SYMLINK, FT_SYMLINK
  | FT_FIFO, FT_FIFO | FT_SOCKET, FT_SOCKET | FT_BLOCK, FT_BLOCK
  | FT_CHAR, FT_CHAR | FT_NON_EXISTING, FT_NON_EXISTING => true
  | _, _ => false
  end.

(** ** Results and the state-and-exception monad *)

Inductive Error : Type :=
| OutOfFuel                          (* the model's recursion bound, not a C++ exception *)
| FilesystemError (what : string)    (* std::filesystem::filesystem_error *)
| RuntimeError (what : string)       (* std::runtime_error *)
| ExitError (msg : string).          (* reportErrorAndExit *)

Inductive Result (A : Type) : Type :=
| Ok (a : A)
| Err (e : Error).
Arguments Ok {A} a.
Arguments Err {A} e.

(** A computation over a state [S] that returns or throws; the state reached
    when the exception is thrown is kept, as the effects of a C++ program
    are. *)
Definition ST (S A : Type) : Type := S -> Result A * S.

Definition ret {S A} (a : A) : ST S A := fun s => (Ok a, s).
Definition throw {S A} (e : Error) : ST S A := fun s => (Err e, s).
Definition bind {S A B} (m : ST S A) (k : A -> ST S B) : ST S B :=
  fun s => match m s with
           | (Ok a, s') => k a s'
           | (Err e, s') => (Err e, s')
           end.
Definition modify {S} (f : S -> S) : ST S unit := fun s => (Ok tt, f s).
Definition liftR {S A} (r : Result A) : ST S A := fun s => (r, s).

Declare Scope st_scope.
Delimit Scope st_scope with st.
Notation "x <- m ;; k" := (bind m (fun x => k))
  (at level 20, m at level 99, k at level 200, only parsing) : st_scope.
Notation "m ;; k" := (bind m (fun _ => k))
  (at level 100, k at level 200, only parsing, right associativity) : st_scope.
Local Open Scope st_scope.

(** [if (c) { m }] *)
Definition when {S} (c : bool) (m : ST S unit) : ST S unit :=
  if c then m else ret tt.

(** [for (x : l) { f(x); }] *)
Fixpoint forEach {S A} (l : list A) (f : A -> ST S unit) : ST S unit :=
  match l with
  | [] => ret tt
  | x :: l' => f x ;; forEach l' f
  end.

(** ** The ordered map [std::map<std::string, directory_entry>]

    Kept as the list of its slots in ascending key order, which is the order
    its iterators walk. *)

Definition smap : Type := list (string * path).

(** [m[k] = v]: a new slot at its place in the order, or the value of the
    slot that is there replaced. *)
Fixpoint smap_set (k : string) (v : path) (m : smap) : smap :=
  match m with
  | [] => [(k, v)]
  | (k', v') :: m' =>
      if str_lt k k' then (k, v) :: m
      else if str_lt k' k then (k', v') :: smap_set k v m'
      else (k, v) :: m'
  end.

Fixpoint smap_find (k : string) (m : smap) : option path :=
  match m with
  | [] => None
  | (k', v') :: m' => if String.eqb k k' then Some v' else smap_find k m'
  end.

Definition smap_keys (m : smap) : list string := List.map fst m.
Definition smap_values (m : smap) : list path := List.map snd m.

(** Keys strictly ascending. *)
Definition smap_sorted (m : smap) : Prop :=
  StronglySorted (fun a b => str_lt a b = true) (smap_keys m).

(** ** The provider: [std::filesystem] and [ut1] *)

(** [std::filesystem::copy_options], a bitmask (values of libstdc++). *)
Definition copy_options : Type := N.
Definition copy_options_none : copy_options := 0%N.
Definition overwrite_existing : copy_options := 2%N.
Definition copy_symlinks : copy_options := 16%N.

(** [bool(a & b)] *)
Definition has_option (a b : copy_options) : bool := negb (N.eqb (N.land a b) 0%N).

(** What the program asks of the file system.  A [directory_entry] is the
    path it stands for.  Queries read a file-system state [FS] and are total:
    asked about an entry it does not apply to, a query answers with a value
    of the provider's choice.  The listing of a directory and the calls that
    change the state return, or fail with the exception they throw. *)
Class Provider (FS : Type) : Type := {
  (* ut1, MiscUtils.hpp *)
  toNfd : string -> string;
  fsExists : FS -> path -> bool;
  fsIsDirectory : FS -> path -> bool -> bool;
  fsIsRegular : FS -> path -> bool -> bool;
  getFileType : FS -> path -> bool -> FileType;
  getFileTypeStr : FS -> path -> bool -> string;
  getLastWriteTime : FS -> path -> bool -> Z;
  getRDev : FS -> path -> N;
  readFile : FS -> path -> string;
  setLastWriteTime : FS -> path -> Z -> bool -> Result FS;
  (* std::filesystem *)
  file_size : FS -> path -> N;
  read_symlink : FS -> path -> string;
  is_directory : FS -> path -> bool;
  directory_iterator : FS -> path -> Result (list path);
  create_directories : FS -> path -> Result FS;
  fs_remove : FS -> path -> Result FS;
  fs_copy : FS -> path -> path -> copy_options -> Result FS
}.

(** The mutating calls, as they are issued. *)
Inductive FsOp : Type :=
| OpCreateDirectories (dir : path)
| OpRemove (p : path)
| OpCopy (src dst : path) (opts : copy_options)
| OpSetLastWriteTime (p : path) (t : Z) (follow : bool).

(** The classification events: one per call of a notification method of
    [TreeDiff] ([srcOnly], [dstOnly], [match], ...). *)
Inductive Event : Type :=
| SrcOnly (src dstdir : path)
| DstOnly (srcdir dst : path)
| Match (src dst : path)
| Mismatch (src dst : path)
| TypeMismatch (src dst : path)
| ProgressDirs (src dst : path)
| ProgressFiles (src dst : path)
| IgnoredDir (entry : path)
| IgnoredFile (entry : path).

(** The events that report a difference. *)
Definition is_difference (ev : Event) : bool :=
  match ev with
  | SrcOnly _ _ | DstOnly _ _ | Mismatch _ _ | TypeMismatch _ _ => true
  | _ => false
  end.

Section Program.

Context {FS : Type} `{Provider FS}.

(** What the program acts on: the file system, the lines written to
    [std::cout], and the journal of the mutating calls issued so far. *)
Record Sys : Type := mkSys {
  s_fs : FS;
  s_out : list string;
  s_ops : list FsOp
}.

(** The comparator runs over [Sys] and the trace of the events it emitted. *)
Record World : Type := mkWorld {
  w_sys : Sys;
  w_events : list Event
}.

(** Computations of the dispatcher and of the comparator. *)
Definition Act (A : Type) : Type := ST Sys A.
Definition M (A : Type) : Type := ST World A.

Definition liftAct {A} (a : Act A) : M A :=
  fun w => let (r, s') := a (w_sys w) in (r, mkWorld s' (w_events w)).

Definition emit (ev : Event) : M unit :=
  modify (fun w => mkWorld (w_sys w) (w_events w ++ [ev])).

Definition getFS : M FS := fun w => (Ok (s_fs (w_sys w)), w).
Definition actFS : Act FS := fun s => (Ok (s_fs s), s).

(** [std::cout << line << "\n"] *)
Definition print (line : string) : Act unit :=
  modify (fun s => mkSys (s_fs s) (s_out s ++ [line]) (s_ops s)).

(** A mutating call: journalled, then applied; its failure is thrown. *)
Definition perform (op : FsOp) : Act unit :=
  fun s =>
    let r := match op with
             | OpCreateDirectories dir => create_directories (s_fs s) dir
             | OpRemove p => fs_remove (s_fs s) p
             | OpCopy src dst opts => fs_copy (s_fs s) src dst opts
             | OpSetLastWriteTime p t follow => setLastWriteTime (s_fs s) p t follow
             end in
    match r with
    | Ok fs' => (Ok tt, mkSys fs' (s_out s) (s_ops s ++ [op]))
    | Err e => (Err e, mkSys (s_fs s) (s_out s) (s_ops s ++ [op]))
    end.

(** *** [TreeDiff::Params] *)

Record Flags : Type := mkFlags {
  ignoreDirs : bool;
  ignoreSpecial : bool;
  ignoreForksSrc : bool;
  ignoreForksDst : bool;
  followSymlinks : bool;
  ignoreContent : bool;
  normalizeFilenames : bool
}.

(** The [std::function] members; [None] is the empty function. *)
Record Callbacks : Type := mkCallbacks {
  cb_srcOnly : option (path -> path -> Flags -> Act unit);
  cb_dstOnly : option (path -> path -> Flags -> Act unit);
  cb_match : option (path -> path -> Flags -> Act unit);
  cb_mismatch : option (path -> path -> Flags -> Act unit);
  cb_typeMismatch : option (path -> path -> Flags -> Act unit);
  cb_progressDirs : option (path -> path -> Flags -> Act unit);
  cb_progressFiles : option (path -> path -> Flags -> Act unit);
  cb_ignoredDir : option (path -> Flags -> Act unit);
  cb_ignoredFile : option (path -> Flags -> Act unit)
}.

Definition ignoreSrcFile (fname : string) (params : Flags) : bool :=
  ignoreForksSrc params && hasPrefix fname "._".

Definition ignoreDstFile (fname : string) (params : Flags) : bool :=
  ignoreForksDst params && hasPrefix fname "._".

(** *** class [TreeDiff] *)

Section TreeDiff.

Variable params : Flags.
Variable cbs : Callbacks.

Definition call2 (cb : option (path -> path -> Flags -> Act unit)) (a b : path) : M unit :=
  match cb with
  | Some f => liftAct (f a b params)
  | None => ret tt
  end.

Definition call1 (cb : option (path -> Flags -> Act unit)) (a : path) : M unit :=
  match cb with
  | Some f => liftAct (f a params)
  | None => ret tt
  end.

(** The private notification methods: the event, then the callback if one
    is bound. *)
Definition srcOnly (src dstdir : path) : M unit :=
  emit (SrcOnly src dstdir) ;; call2 (cb_srcOnly cbs) src dstdir.
Definition dstOnly (srcdir dst : path) : M unit :=
  emit (DstOnly srcdir dst) ;; call2 (cb_dstOnly cbs) srcdir dst.
Definition match_ (src dst : path) : M unit :=
  emit (Match src dst) ;; call2 (cb_match cbs) src dst.
Definition mismatch (src dst : path) : M unit :=
  emit (Mismatch src dst) ;; call2 (cb_mismatch cbs) src dst.
Definition typeMismatch (src dst : path) : M unit :=
  emit (TypeMismatch src dst) ;; call2 (cb_typeMismatch cbs) src dst.
Definition progressDirs (src dst : path) : M unit :=
  emit (ProgressDirs src dst) ;; call2 (cb_progressDirs cbs) src dst.
Definition progressFiles (src dst : path) : M unit :=
  emit (ProgressFiles src dst) ;; call2 (cb_progressFiles cbs) src dst.
Definition ignoredDir (entry : path) : M unit :=
  emit (IgnoredDir entry) ;; call1 (cb_ignoredDir cbs) entry.
Definition ignoredFile (entry : path) : M unit :=
  emit (IgnoredFile entry) ;; call1 (cb_ignoredFile cbs) entry.

(** The key an entry gets in the map. *)
Definition keyOf (entry : path) : string :=
  let fname := filename entry in
  if normalizeFilenames params then toNfd fname else fname.

(** One round of the loop that fills a map from a directory listing;
    [ignoreFile] is [ignoreSrcFile] for [srcmap] and [ignoreDstFile] for
    [dstmap]. *)
Definition fillStep (ignoreFile : string -> Flags -> bool) (map : smap) (entry : path) : smap :=
  if ignoreFile (filename entry) params then map
  else smap_set (keyOf entry) entry map.

Definition fillMap (ignoreFile : string -> Flags -> bool) (entries : list path) : smap :=
  List.fold_left (fillStep ignoreFile) entries [].

Definition fillSrcMap : list path -> smap := fillMap ignoreSrcFile.
Definition fillDstMap : list path -> smap := fillMap ignoreDstFile.

(** "Read src dir." *)
Definition readSrcDir (src : path) : M smap :=
  fs <- getFS ;;
  entries <- liftR (directory_iterator fs src) ;;
  ret (fillSrcMap entries).

(** "Read dst dir." *)
Definition readDstDir (dst : path) : M smap :=
  fs <- getFS ;;
  if fsExists fs dst then
    (entries <- liftR (directory_iterator fs dst) ;;
     ret (fillDstMap entries))
  else ret [].

Section Walk.

(** The recursive call [processDir(itsrc->second, itdst->second)]. *)
Variable processDir_rec : path -> path -> M bool.

(** "Names are matching. Compare type."  The body of the last [else] of the
    loop, for [es = itsrc->second] and [ed = itdst->second]; the result is
    [false] where the code sets [noDifferenceFound = false]. *)
Definition compareEntries (es ed : path) : M bool :=
  fs <- getFS ;;
  let srctype := getFileType fs es (followSymlinks params) in
  let dsttype := getFileType fs ed (followSymlinks params) in
  if negb (FileType_eqb srctype dsttype) then
    (typeMismatch es ed ;; ret false)
  else
    let type := getFileType fs es (followSymlinks params) in
    when (negb (FileType_eqb type FT_DIR)) (progressFiles es ed) ;;
    fs <- getFS ;;
    match type with
    | FT_REGULAR =>
        if N.eqb (file_size fs es) (file_size fs ed)
           && (ignoreContent params || String.eqb (readFile fs es) (readFile fs ed))
        then (match_ es ed ;; ret true)
        else (mismatch es ed ;; ret false)
    | FT_DIR =>
        if negb (ignoreDirs params) then
          (sub <- processDir_rec es ed ;;
           ret sub)
        else
          (ignoredDir es ;; ignoredDir ed ;; ret true)
    | FT_SYMLINK =>
        if String.eqb (read_symlink fs es) (read_symlink fs ed)
        then (match_ es ed ;; ret true)
        else (mismatch es ed ;; ret false)
    | FT_FIFO | FT_SOCKET =>
        if negb (ignoreSpecial params) then
          (match_ es ed ;; ret true)
        else
          (ignoredFile es ;; ignoredFile ed ;; ret true)
    | FT_BLOCK | FT_CHAR =>
        if negb (ignoreSpecial params) then
          if N.eqb (getRDev fs es) (getRDev fs ed)
          then (match_ es ed ;; ret true)
          else (mismatch es ed ;; ret false)
        else
          (ignoredFile es ;; ignoredFile ed ;; ret true)
    | FT_NON_EXISTING =>
        ignoredFile es ;; ignoredFile ed ;; ret true
    end.

(** "Compare dirs by iterating over both lists simultaneously."  The two
    lists are what is left of the maps from [itsrc] and from [itdst] on; an
    empty list is an iterator at [end()]. *)
Fixpoint walk (src dst : path) (srcmap : smap) : smap -> bool -> M bool :=
  fix walk_dst (dstmap : smap) (noDifferenceFound : bool) : M bool :=
    match srcmap, dstmap with
    | [], [] => ret noDifferenceFound
    | (ks, es) :: srcmap', [] =>
        srcOnly es dst ;; walk src dst srcmap' [] false
    | [], (kd, ed) :: dstmap' =>
        dstOnly src ed ;; walk_dst dstmap' false
    | (ks, es) :: srcmap', (kd, ed) :: dstmap' =>
        if str_lt ks kd then
          (srcOnly es dst ;; walk src dst srcmap' dstmap false)
        else if str_lt kd ks then
          (dstOnly src ed ;; walk_dst dstmap' false)
        else
          (same <- compareEntries es ed ;;
           walk src dst srcmap' dstmap' (noDifferenceFound && same))
    end.

End Walk.

(** [bool processDir(src, dst)]: "Returns true if no difference is found."
    [fuel] bounds the depth of the recursion; a tree deeper than the bound
    ends the run with [OutOfFuel]. *)
Fixpoint processDir (fuel : nat) (src dst : path) : M bool :=
  match fuel with
  | O => throw OutOfFuel
  | S fuel' =>
      progressDirs src dst ;;
      srcmap <- readSrcDir src ;;
      dstmap <- readDstDir dst ;;
      walk (processDir fuel') src dst srcmap dstmap true
  end.

End TreeDiff.

(** *** Output *)

Definition esc : string := String (ascii_of_nat 27) EmptyString.
Definition dquote : string := String (ascii_of_nat 34) EmptyString.

(** [std::cout << p] for a [std::filesystem::path]: the quoted path. *)
Definition showPath (p : path) : string :=
  dquote +:+ String.concat "/" p +:+ dquote.

(** [std::to_string(n)] *)
Definition to_string (n : N) : string := NilZero.string_of_uint (N.to_uint n).

(** *** [mkDirs], [removeRecursive], [copyRecursive], [printDirectoryEntry] *)

(** "Create directories if necessary.  This functions prints verbose
    messages and honours dummy mode." *)
Definition mkDirs (dir : path) (verbose : bool) (verbosePrefix : string)
    (dummyMode : bool) : Act unit :=
  fs <- actFS ;;
  if negb (fsExists fs dir) || dummyMode then
    (when verbose (print (verbosePrefix +:+ " " +:+ showPath dir)) ;;
     when (negb dummyMode) (perform (OpCreateDirectories dir)))
  else
    when (negb (fsIsDirectory fs dir false))
      (throw (RuntimeError ("Cannot create dir " +:+ showPath dir
                            +:+ " on existing non-dir " +:+ showPath dir))).

(** "Remove file or directory recursively." *)
Fixpoint removeRecursive (fuel : nat) (dst : path) (verbose : bool)
    (verbosePrefix : string) (followSymlinks_ : bool) (dummyMode : bool) : Act unit :=
  match fuel with
  | O => throw OutOfFuel
  | S fuel' =>
      (* First remove directory contents, recursively. *)
      fs <- actFS ;;
      (if fsIsDirectory fs dst false then
         (entries <- liftR (directory_iterator fs dst) ;;
          forEach entries (fun dst_ =>
            removeRecursive fuel' dst_ verbose verbosePrefix followSymlinks_ dummyMode))
       else ret tt) ;;
      (* Remove file or dir. *)
      fs <- actFS ;;
      when verbose
        (print (verbosePrefix +:+ " " +:+ getFileTypeStr fs dst followSymlinks_
                +:+ " " +:+ showPath dst)) ;;
      when (negb dummyMode) (perform (OpRemove dst))
  end.

(** The second half of [copyRecursive], from [if (src.is_directory())] on:
    the copy itself, once the way is clear.  [copyRecursive_rec] is the
    recursive call for the entries of a directory. *)
Definition copyInto (copyRecursive_rec : path -> path -> Act unit)
    (src dst : path) (opts : copy_options) (verbose : bool) (verbosePrefix : string)
    (params : Flags) (dummyMode : bool) : Act unit :=
  fs <- actFS ;;
  if is_directory fs src then
    (mkDirs dst verbose (verbosePrefix +:+ ": Creating dir") dummyMode ;;
     fs <- actFS ;;
     entries <- liftR (directory_iterator fs src) ;;
     forEach entries (fun src_ => copyRecursive_rec src_ dst))
  else
    (when verbose
       (print (verbosePrefix +:+ " " +:+ getFileTypeStr fs src (followSymlinks params)
               +:+ " " +:+ showPath src +:+ " -> " +:+ showPath dst)) ;;
     when (negb dummyMode) (perform (OpCopy src dst opts))).

(** "overwrite_existing does not replace symlinks or directories etc, so
    delete the destination first if it exists, unless both are regular
    files." *)
Definition mustDeleteFirst (fs : FS) (src dst : path) (opts : copy_options)
    (params : Flags) : bool :=
  has_option opts overwrite_existing
  && fsExists fs dst
  && (negb (fsIsRegular fs src (followSymlinks params))
      || negb (fsIsRegular fs dst false)).

(** "Copy file or directory recursively." *)
Fixpoint copyRecursive (fuel : nat) (src dstdir : path) (opts : copy_options)
    (verbose : bool) (verbosePrefix : string) (params : Flags)
    (dummyMode : bool) : Act unit :=
  match fuel with
  | O => throw OutOfFuel
  | S fuel' =>
      if ignoreSrcFile (filename src) params then ret tt
      else
        let dst := path_append dstdir (filename src) in
        fs <- actFS ;;
        when (mustDeleteFirst fs src dst opts params)
          (removeRecursive fuel dst verbose (verbosePrefix +:+ ": Deleting")
             (followSymlinks params) dummyMode) ;;
        copyInto
          (fun src_ dst_ =>
             copyRecursive fuel' src_ dst_ opts verbose verbosePrefix params dummyMode)
          src dst opts verbose verbosePrefix params dummyMode
  end.

(** "Print directory entry." *)
Fixpoint printDirectoryEntry (fuel : nat) (entry : path) (prefix suffix : string)
    (params : Flags) (recursive : bool) (src : bool) : Act unit :=
  match fuel with
  | O => throw OutOfFuel
  | S fuel' =>
      if (if src then ignoreSrcFile (filename entry) params
          else ignoreDstFile (filename entry) params)
      then ret tt
      else
        fs <- actFS ;;
        print (prefix +:+ getFileTypeStr fs entry (followSymlinks params)
               +:+ " " +:+ showPath entry +:+ suffix) ;;
        if negb recursive || negb (is_directory fs entry) then ret tt
        else
          (entries <- liftR (directory_iterator fs entry) ;;
           forEach entries (fun entry_ =>
             printDirectoryEntry fuel' entry_ prefix suffix params recursive src))
  end.

(** *** [main]: the options and the callbacks bound to the comparator *)

(** The locals of [main] after the command line is parsed. *)
Record Config : Type := mkConfig {
  verbose : nat;
  showMatches : bool;
  showSubtree : bool;
  dummyMode : bool;
  ignoreMtime : bool;
  noColor : bool;
  createMissingDst : bool;
  copyIns : path;
  copyDel : path;
  new_ : bool;
  delete_ : bool;
  update : bool;
  diff : bool;
  srcdir : path;
  dstdir : path;
  flags : Flags
}.

(** [bool preserve = false; // cl("preserve"); // todo] *)
Definition preserve : bool := false.

(** [std::string::empty()] of the [--copy-ins] / [--copy-del] argument. *)
Definition is_empty (p : path) : bool := match p with [] => true | _ => false end.

Section Main.

Variable fuel : nat.
Variable cfg : Config.

(** An [unsigned] used as a [bool]. *)
Definition verbose_b : bool := negb (Nat.eqb (verbose cfg) 0).

(** class [TerminalColors] *)
Definition col_ins : string := if noColor cfg then "" else esc +:+ "[32m".
Definition col_del : string := if noColor cfg then "" else esc +:+ "[31m".
Definition col_nor : string := if noColor cfg then "" else esc +:+ "[00m".

Definition copy_options_base : copy_options :=
  if followSymlinks (flags cfg) then copy_options_none else copy_symlinks.

(** [std::filesystem::copy_options::overwrite_existing | copy_options_base] *)
Definition overwriting : copy_options := N.lor overwrite_existing copy_options_base.

Definition on_srcOnly (src dstdir : path) (params_ : Flags) : Act unit :=
  when (diff cfg)
    (printDirectoryEntry fuel src (col_ins +:+ "+ ") col_nor params_ (showSubtree cfg) true ;;
     when (negb (is_empty (copyIns cfg)))
       (mkDirs (copyIns cfg) verbose_b "Creating --copy-ins destination dir" (dummyMode cfg) ;;
        copyRecursive fuel src (copyIns cfg) overwriting
          verbose_b "Copying (--copy-ins)" params_ (dummyMode cfg))) ;;
  when (new_ cfg)
    (copyRecursive fuel src dstdir copy_options_base verbose_b "Copying (new)" params_
       (dummyMode cfg)).

Definition on_dstOnly (srcdir_ dst : path) (params_ : Flags) : Act unit :=
  when (diff cfg)
    (printDirectoryEntry fuel dst (col_del +:+ "- ") col_nor params_ (showSubtree cfg) false ;;
     when (negb (is_empty (copyDel cfg)))
       (mkDirs (copyDel cfg) verbose_b "Creating --copy-del destination dir" (dummyMode cfg) ;;
        copyRecursive fuel dst (copyDel cfg) overwriting
          verbose_b "Copying (--copy-del)" params_ (dummyMode cfg))) ;;
  when (delete_ cfg)
    (removeRecursive fuel dst verbose_b "Deleting" (followSymlinks params_) (dummyMode cfg)).

Definition on_match (src dst : path) (params_ : Flags) : Act unit :=
  fs <- actFS ;;
  when (diff cfg && showMatches cfg)
    (print ("= " +:+ getFileTypeStr fs src (followSymlinks params_) +:+ " " +:+ showPath src
            +:+ " and " +:+ getFileTypeStr fs dst (followSymlinks params_) +:+ " "
            +:+ showPath dst)) ;;
  when (update cfg)
    (when (negb (ignoreMtime cfg)
           && Z.gtb (getLastWriteTime fs src (followSymlinks params_))
                    (getLastWriteTime fs dst (followSymlinks params_)))
       (when (negb (dummyMode cfg))
          (when preserve
             (when verbose_b
                (print ("Updating mtime " +:+ getFileTypeStr fs src (followSymlinks params_)
                        +:+ " " +:+ showPath src +:+ " -> " +:+ showPath dst)) ;;
              when (negb (dummyMode cfg))
                (perform (OpSetLastWriteTime dst
                            (getLastWriteTime fs src (followSymlinks params_))
                            (followSymlinks params_))))))).

(** The guard of the two update branches that compare the mtimes. *)
Definition srcIsNewer (fs : FS) (src dst : path) (params_ : Flags) : bool :=
  Z.gtb (getLastWriteTime fs src (followSymlinks params_))
        (getLastWriteTime fs dst (followSymlinks params_)).

Definition on_mismatch (src dst : path) (params_ : Flags) : Act unit :=
  when (diff cfg)
    (fs <- actFS ;;
     let srcInfo :=
       if FileType_eqb (getFileType fs src (followSymlinks params_)) FT_SYMLINK
       then " -> " +:+ dquote +:+ read_symlink fs src +:+ dquote
       else "" in
     let dstInfo :=
       if FileType_eqb (getFileType fs src (followSymlinks params_)) FT_SYMLINK
       then " -> " +:+ dquote +:+ read_symlink fs dst +:+ dquote
       else if negb (N.eqb (file_size fs src) (file_size fs dst))
            then " (size " +:+ to_string (file_size fs src) +:+ " != "
                 +:+ to_string (file_size fs dst) +:+ ")"
            else " (same size, different content)" in
     print ("Diff: " +:+ getFileTypeStr fs src (followSymlinks params_) +:+ " "
            +:+ showPath src +:+ srcInfo +:+ " and "
            +:+ getFileTypeStr fs dst (followSymlinks params_) +:+ " "
            +:+ showPath dst +:+ dstInfo)) ;;
  when (update cfg)
    (fs <- actFS ;;
     when (ignoreMtime cfg || srcIsNewer fs src dst params_)
       (copyRecursive fuel src (parent_path dst)
          overwriting verbose_b "Copying (update)"
          params_ (dummyMode cfg))).

Definition on_typeMismatch (src dst : path) (params_ : Flags) : Act unit :=
  when (diff cfg)
    (fs <- actFS ;;
     print ("Type mismatch: " +:+ getFileTypeStr fs src (followSymlinks params_) +:+ " "
            +:+ showPath src +:+ " and "
            +:+ getFileTypeStr fs dst (followSymlinks params_) +:+ " " +:+ showPath dst)) ;;
  when (update cfg)
    (copyRecursive fuel src (parent_path dst)
       overwriting verbose_b "Copying (type mismatch)"
       params_ (dummyMode cfg)).

Definition on_progressDirs (src dst : path) (params_ : Flags) : Act unit :=
  when (Nat.leb 2 (verbose cfg))
    (print ("Processing dirs " +:+ showPath src +:+ " and " +:+ showPath dst)).

Definition on_progressFiles (src dst : path) (params_ : Flags) : Act unit :=
  when (Nat.leb 3 (verbose cfg))
    (fs <- actFS ;;
     print ("Processing " +:+ getFileTypeStr fs src (followSymlinks params_) +:+ " "
            +:+ showPath src +:+ " and "
            +:+ getFileTypeStr fs dst (followSymlinks params_) +:+ " " +:+ showPath dst)).

Definition on_ignoredDir (entry : path) (params_ : Flags) : Act unit :=
  when (diff cfg || verbose_b)
    (print ("Ignoring dir " +:+ showPath entry)).

Definition on_ignoredFile (entry : path) (params_ : Flags) : Act unit :=
  when (diff cfg || verbose_b)
    (fs <- actFS ;;
     print ("Ignoring " +:+ getFileTypeStr fs entry (followSymlinks params_) +:+ " "
            +:+ showPath entry)).

(** [params.srcOnly = ...; params.dstOnly = ...; ...] *)
Definition mainCallbacks : Callbacks := {|
  cb_srcOnly := Some on_srcOnly;
  cb_dstOnly := Some on_dstOnly;
  cb_match := Some on_match;
  cb_mismatch := Some on_mismatch;
  cb_typeMismatch := Some on_typeMismatch;
  cb_progressDirs := Some on_progressDirs;
  cb_progressFiles := Some on_progressFiles;
  cb_ignoredDir := Some on_ignoredDir;
  cb_ignoredFile := Some on_ignoredFile
|}.

(** [TreeDiff::process()], with the trace of the events it emits. *)
Definition process : M bool :=
  processDir (flags cfg) mainCallbacks fuel (srcdir cfg) (dstdir cfg).

(** The comparator run from the dispatcher's side: the events are dropped. *)
Definition runTreeDiff {A} (m : M A) : Act A :=
  fun s => let (r, w) := m (mkWorld s []) in (r, w_sys w).

(** The body of [main] from "Create missing dest dir" on. *)
Definition treesync : Act unit :=
  fs <- actFS ;;
  when (new_ cfg && negb (fsExists fs (dstdir cfg)) && createMissingDst cfg)
    (mkDirs (dstdir cfg) verbose_b "Creating destination dir" (dummyMode cfg)) ;;
  fs <- actFS ;;
  when (negb (fsExists fs (srcdir cfg)))
    (throw (ExitError ("SRCDIR " +:+ showPath (srcdir cfg) +:+ " does not exist!"))) ;;
  when (negb (fsIsDirectory fs (srcdir cfg) (followSymlinks (flags cfg))))
    (throw (ExitError ("SRCDIR " +:+ showPath (srcdir cfg) +:+ " is not a directory!"))) ;;
  let checkDst := negb (createMissingDst cfg && dummyMode cfg) in
  when (negb (fsExists fs (dstdir cfg)) && checkDst)
    (throw (ExitError ("DSTDIR " +:+ showPath (dstdir cfg) +:+ " does not exist!"))) ;;
  when (negb (fsIsDirectory fs (dstdir cfg) (followSymlinks (flags cfg))) && checkDst)
    (throw (ExitError ("DSTDIR " +:+ showPath (dstdir cfg) +:+ " is not a directory!"))) ;;
  _ <- runTreeDiff process ;;
  ret tt.

End Main.

End Program.

Arguments Sys FS : clear implicits.
Arguments World FS : clear implicits.
Arguments Act FS A : clear implicits.
Arguments M FS A : clear implicits.
Arguments Callbacks FS : clear implicits.

(** *** [main]: from the command line to the options

    Modelled from the spec: [ut1::CommandLineParser] is declared in
    [CommandLineParser.hpp], which is not among the sources.  A parsed
    command line is taken as the set of the options that are set, with the
    arguments of the three options that carry one, as [main] uses it and
    its help texts say: [cl("name")] tests whether the option is in the set,
    [cl.setOption] puts it there and changes nothing else, [cl.getUInt] and
    [cl.getStr] read an argument and [cl.getArgs] the words that are no
    options. *)

Record CommandLine : Type := mkCommandLine {
  cl_options : gset string;
  cl_verbose : nat;          (* cl.getUInt("verbose") *)
  cl_copy_ins : path;        (* cl.getStr("copy-ins") *)
  cl_copy_del : path;        (* cl.getStr("copy-del") *)
  cl_args : list path        (* cl.getArgs() *)
}.

(** [cl(name)] *)
Definition isSet (cl : CommandLine) (name : string) : bool :=
  bool_decide (name ∈ cl_options cl).

(** [cl.setOption(name)] *)
Definition setOption (name : string) (cl : CommandLine) : CommandLine :=
  mkCommandLine ({[name]} ∪ cl_options cl) (cl_verbose cl) (cl_copy_ins cl)
                (cl_copy_del cl) (cl_args cl).

(** "Apply high level implications." *)
Definition applyImplications (cl : CommandLine) : CommandLine :=
  let cl :=
    if isSet cl "sync" || isSet cl "sync-fast"
    then setOption "update" (setOption "delete" (setOption "new" cl))
    else cl in
  let cl :=
    if isSet cl "sync-fast"
    then setOption "normalize-filenames"
           (setOption "ignore-mtime" (setOption "ignore-content" (setOption "ignore-forks" cl)))
    else cl in
  let cl := if isSet cl "update" then setOption "new" cl else cl in
  let cl :=
    if isSet cl "diff-fast"
    then setOption "normalize-filenames"
           (setOption "ignore-mtime"
              (setOption "ignore-content" (setOption "ignore-forks" (setOption "diff" cl))))
    else cl in
  cl.

(** "Get options." and "Determine mode.", for [srcdir] and [dstdir] the two
    arguments. *)
Definition optionsOf (cl : CommandLine) (src dst : path) : Config :=
  let new := isSet cl "new" in
  let delete := isSet cl "delete" in
  let upd := isSet cl "update" in
  {| verbose := cl_verbose cl;
     showMatches := isSet cl "show-matches";
     showSubtree := isSet cl "show-subtree";
     dummyMode := isSet cl "dummy-mode";
     ignoreMtime := isSet cl "ignore-mtime";
     noColor := isSet cl "no-color";
     createMissingDst := isSet cl "create-missing-dst";
     copyIns := cl_copy_ins cl;
     copyDel := cl_copy_del cl;
     new_ := new;
     delete_ := delete;
     update := upd;
     diff := if negb (new || delete || upd) then true else isSet cl "diff";
     srcdir := src;
     dstdir := dst;
     flags := {| ignoreDirs := isSet cl "ignore-dirs";
                 ignoreSpecial := isSet cl "ignore-special";
                 ignoreForksSrc := isSet cl "ignore-forks";
                 ignoreForksDst := isSet cl "ignore-forks-dst";
                 followSymlinks := isSet cl "follow-symlinks";
                 ignoreContent := isSet cl "ignore-content";
                 normalizeFilenames := isSet cl "normalize-filenames" |} |}.

(** [main] up to the options: two arguments or the error of [cl.error]. *)
Definition configOf (cl : CommandLine) : Result Config :=
  match cl_args cl with
  | [src; dst] => Ok (optionsOf (applyImplications cl) src dst)
  | _ => Err (ExitError "Please specify SRCDIR and DSTDIR.")
  end.

(** A [TreeDiff::Params] with no callback bound. *)
Definition noCallbacks {FS : Type} : Callbacks FS :=
  mkCallbacks None None None None None None None None None.

(** ** An in-memory provider

    A file system as a finite map from paths to nodes, to run the program on
    concrete trees.  It follows POSIX and [std::filesystem] where the
    examples below need it and is not a model of all of either. *)

Module MemFs.

Inductive Kind : Type :=
| KRegular (content : string)
| KDir
| KSymlink (target : path)
| KFifo
| KSocket
| KBlock (rdev : N)
| KChar (rdev : N).

Record Node : Type := mkNode { n_kind : Kind; n_mtime : Z }.

Abbreviation fs := (gmap path Node).

(** The node a path names once the symbolic links at its end are followed
    (at most [n] of them). *)
Fixpoint resolve (n : nat) (t : fs) (p : path) : option Node :=
  match t !! p with
  | Some (mkNode (KSymlink target) mt) =>
      match n with
      | O => None
      | S n' => resolve n' t target
      end
  | other => other
  end.

Definition stat (t : fs) (p : path) (follow : bool) : option Node :=
  if follow then resolve 8 t p else t !! p.

Definition typeOf (o : option Node) : FileType :=
  match o with
  | None => FT_NON_EXISTING
  | Some (mkNode k _) =>
      match k with
      | KRegular _ => FT_REGULAR
      | KDir => FT_DIR
      | KSymlink _ => FT_SYMLINK
      | KFifo => FT_FIFO
      | KSocket => FT_SOCKET
      | KBlock _ => FT_BLOCK
      | KChar _ => FT_CHAR
      end
  end.

Definition typeStr (ft : FileType) : string :=
  match ft with
  | FT_REGULAR => "file"
  | FT_DIR => "dir"
  | FT_SYMLINK => "symlink"
  | FT_FIFO => "fifo"
  | FT_SOCKET => "socket"
  | FT_BLOCK => "block"
  | FT_CHAR => "char"
  | FT_NON_EXISTING => "non-existing"
  end.

(** Canonical decomposition of the UTF-8 strings that hold only ASCII and
    the letters e-acute (C3 A9) and e-grave (C3 A8): each of the two becomes
    [e] followed by the combining accent (CC 81, CC 80). *)
Fixpoint nfd (s : string) : string :=
  match s with
  | EmptyString => EmptyString
  | String a s' =>
      match s' with
      | String b s'' =>
          if (Nat.eqb (nat_of_ascii a) 195 && Nat.eqb (nat_of_ascii b) 169)%bool then
            String "e" (String (ascii_of_nat 204) (String (ascii_of_nat 129) (nfd s'')))
          else if (Nat.eqb (nat_of_ascii a) 195 && Nat.eqb (nat_of_ascii b) 168)%bool then
            String "e" (String (ascii_of_nat 204) (String (ascii_of_nat 128) (nfd s'')))
          else String a (nfd s')
      | EmptyString => String a EmptyString
      end
  end.

Definition children (t : fs) (dir : path) : list path :=
  List.filter (fun q => bool_decide (q <> [] /\ parent_path q = dir))
              (List.map fst (map_to_list t)).

Definition isDir (o : option Node) : bool :=
  match o with Some (mkNode KDir _) => true | _ => false end.

Definition isRegular (o : option Node) : bool :=
  match o with Some (mkNode (KRegular _) _) => true | _ => false end.

Definition mtimeOf (o : option Node) : Z :=
  match o with Some n => n_mtime n | None => 0%Z end.

(** [create_directories]: every missing directory on the way is made. *)
Fixpoint mkdirs (t : fs) (done todo : path) : Result fs :=
  match todo with
  | [] => Ok t
  | name :: todo' =>
      let dir := done ++ [name] in
      match t !! dir with
      | None => mkdirs (<[dir := mkNode KDir 0%Z]> t) dir todo'
      | Some n => if isDir (resolve 8 t dir) then mkdirs t dir todo'
                  else Err (FilesystemError "create_directories: not a directory")
      end
  end.

(** [remove]: a file or an empty directory; nothing where nothing is. *)
Definition remove (t : fs) (p : path) : Result fs :=
  match t !! p with
  | None => Ok t
  | Some n =>
      match isDir (Some n), children t p with
      | true, _ :: _ => Err (FilesystemError "remove: directory not empty")
      | _, _ => Ok (delete p t)
      end
  end.

(** [copy] of something that is not a directory. *)
Definition copy (t : fs) (src dst : path) (opts : copy_options) : Result fs :=
  match t !! src with
  | None => Err (FilesystemError "copy: no such file")
  | Some (mkNode (KSymlink target) mt) =>
      if has_option opts copy_symlinks then
        match t !! dst with
        | None => Ok (<[dst := mkNode (KSymlink target) mt]> t)
        | Some _ => Err (FilesystemError "copy: file exists")
        end
      else
        match resolve 8 t src, t !! dst with
        | Some (mkNode (KRegular c) _), None => Ok (<[dst := mkNode (KRegular c) 0%Z]> t)
        | Some (mkNode (KRegular c) _), Some (mkNode (KRegular _) _) =>
            if has_option opts overwrite_existing
            then Ok (<[dst := mkNode (KRegular c) 0%Z]> t)
            else Err (FilesystemError "copy: file exists")
        | _, _ => Err (FilesystemError "copy: not supported")
        end
  | Some (mkNode (KRegular c) mt) =>
      match t !! dst with
      | None => Ok (<[dst := mkNode (KRegular c) 0%Z]> t)
      | Some (mkNode (KRegular _) _) =>
          if has_option opts overwrite_existing
          then Ok (<[dst := mkNode (KRegular c) 0%Z]> t)
          else Err (FilesystemError "copy: file exists")
      | Some _ => Err (FilesystemError "copy: not a regular file")
      end
  | Some _ => Err (FilesystemError "copy: not supported")
  end.

Definition touch (t : fs) (p : path) (mt : Z) (follow : bool) : Result fs :=
  match t !! p with
  | Some n => Ok (<[p := mkNode (n_kind n) mt]> t)
  | None => Err (FilesystemError "last_write_time: no such file")
  end.

#[export] Instance provider : Provider fs := {|
  toNfd := nfd;
  fsExists t p := bool_decide (is_Some (t !! p));
  fsIsDirectory t p follow := isDir (stat t p follow);
  fsIsRegular t p follow := isRegular (stat t p follow);
  getFileType t p follow := typeOf (stat t p follow);
  getFileTypeStr t p follow := typeStr (typeOf (stat t p follow));
  getLastWriteTime t p follow := mtimeOf (stat t p follow);
  getRDev t p :=
    match t !! p with
    | Some (mkNode (KBlock d) _) | Some (mkNode (KChar d) _) => d
    | _ => 0%N
    end;
  readFile t p :=
    match resolve 8 t p with
    | Some (mkNode (KRegular c) _) => c
    | _ => ""
    end;
  setLastWriteTime := touch;
  file_size t p :=
    match resolve 8 t p with
    | Some (mkNode (KRegular c) _) => N.of_nat (String.length c)
    | _ => 0%N
    end;
  read_symlink t p :=
    match t !! p with
    | Some (mkNode (KSymlink target) _) => String.concat "/" target
    | _ => ""
    end;
  is_directory t p := isDir (resolve 8 t p);
  directory_iterator t p :=
    if isDir (resolve 8 t p) then Ok (children t p)
    else Err (FilesystemError "directory_iterator: not a directory");
  create_directories t p := mkdirs t [] p;
  fs_remove := remove;
  fs_copy := copy
|}.

(** Some nodes and the start state of a run. *)
Definition file (content : string) (mtime : Z) : Node := mkNode (KRegular content) mtime.
Definition dir : Node := mkNode KDir 0%Z.
Definition start (t : fs) : Sys fs := mkSys t [] [].

End MemFs.

(** ** Example trees and options *)

Module Examples.

Import MemFs.

(** No option set. *)
Definition flags0 : Flags := mkFlags false false false false false false false.
(** [--normalize-filenames] *)
Definition flagsZ : Flags := mkFlags false false false false false false true.
(** [--ignore-forks] *)
Definition flagsF : Flags := mkFlags false false true false false false false.

(** The letter e-acute, precomposed (UTF-8: C3 A9). *)
Definition e_acute : string := String (ascii_of_nat 195) (String (ascii_of_nat 169) EmptyString).

(** Two spellings of one name: precomposed, and decomposed. *)
Definition cafe_nfc : path := ["src"; "caf" +:+ e_acute].
Definition cafe_nfd : path := ["src"; nfd ("caf" +:+ e_acute)].


(** A source and a destination tree that differ: [a.txt] is new, [d/x] has
    other content, and [old.txt] is gone from the source. *)
Definition tree1 : fs :=
  list_to_map
    [ (["src"], dir); (["dst"], dir);
      (["src"; "a.txt"], file "hello" 5%Z);
      (["src"; "d"], dir); (["src"; "d"; "x"], file "x" 1%Z);
      (["dst"; "d"], dir); (["dst"; "d"; "x"], file "y" 2%Z);
      (["dst"; "old.txt"], file "o" 1%Z) ].

(** A source tree without its destination. *)
Definition tree2 : fs :=
  list_to_map
    [ (["src"], dir);
      (["src"; "a.txt"], file "hello" 5%Z);
      (["src"; "b"], dir); (["src"; "b"; "c.txt"], file "c" 1%Z) ].

(** Plain [treesync -v -n src dst]: diff only. *)
Definition cfgDiff : Config := {|
  verbose := 1; showMatches := false; showSubtree := false; dummyMode := false;
  ignoreMtime := false; noColor := true; createMissingDst := false;
  copyIns := []; copyDel := [];
  new_ := false; delete_ := false; update := false; diff := true;
  srcdir := ["src"]; dstdir := ["dst"]; flags := flags0 |}.

(** One new file in the source; the directory for [--copy-ins] exists. *)
Definition tree3 : fs :=
  list_to_map
    [ (["src"], dir); (["dst"], dir); (["ins"], dir);
      (["src"; "a.txt"], file "hello" 5%Z) ].

(** [treesync -v -n --copy-ins=ins src dst], without and with [--dummy-mode]. *)
Definition cfgCopyIns (dummy : bool) : Config := {|
  verbose := 1; showMatches := false; showSubtree := false; dummyMode := dummy;
  ignoreMtime := false; noColor := true; createMissingDst := false;
  copyIns := ["ins"]; copyDel := [];
  new_ := false; delete_ := false; update := false; diff := true;
  srcdir := ["src"]; dstdir := ["dst"]; flags := flags0 |}.

(** The source has a file [x], older than the directory [x] of the
    destination. *)
Definition tree4 : fs :=
  list_to_map
    [ (["src"], dir); (["dst"], dir);
      (["src"; "x"], file "new" 1%Z);
      (["dst"; "x"], mkNode KDir 9%Z) ].

(** The source has a file [f], older than the file [f] of the destination,
    and of other content. *)
Definition tree5 : fs :=
  list_to_map
    [ (["src"], dir); (["dst"], dir);
      (["src"; "f"], file "abc" 1%Z);
      (["dst"; "f"], file "xyz" 9%Z) ].

(** The destination has a directory [._x] that the source has not, and the
    directory for [--copy-del] has a file of that name already. *)
Definition tree6 : fs :=
  list_to_map
    [ (["src"], dir); (["dst"], dir); (["out"], dir);
      (["dst"; "._x"], dir);
      (["out"; "._x"], file "old" 1%Z) ].

(** The source has a directory [sub], new to the destination, with a file
    and the resource fork of that file. *)
Definition tree7 : fs :=
  list_to_map
    [ (["src"], dir); (["dst"], dir);
      (["src"; "sub"], dir);
      (["src"; "sub"; "a"], file "data" 1%Z);
      (["src"; "sub"; "._a"], file "fork" 1%Z) ].

(** The source has a file [x] where the destination has a directory [x]
    with a file in it. *)
Definition tree8 : fs :=
  list_to_map
    [ (["src"], dir); (["dst"], dir);
      (["src"; "x"], file "new" 1%Z);
      (["dst"; "x"], dir);
      (["dst"; "x"; "y"], file "old" 1%Z) ].

(** [treesync -v -n -F --copy-del=out src dst] *)
Definition cfgCopyDel : Config := {|
  verbose := 1; showMatches := false; showSubtree := false; dummyMode := false;
  ignoreMtime := false; noColor := true; createMissingDst := false;
  copyIns := []; copyDel := ["out"];
  new_ := false; delete_ := false; update := false; diff := true;
  srcdir := ["src"]; dstdir := ["dst"]; flags := flagsF |}.


(** [treesync -v -n --sync src dst], without and with [--dummy-mode]. *)
Definition cfgSync (dummy : bool) : Config := {|
  verbose := 1; showMatches := false; showSubtree := false; dummyMode := dummy;
  ignoreMtime := false; noColor := true; createMissingDst := false;
  copyIns := []; copyDel := [];
  new_ := true; delete_ := true; update := true; diff := false;
  srcdir := ["src"]; dstdir := ["dst"]; flags := flags0 |}.


(** [treesync -v -n] with the given modes and options. *)
Definition cfgOf (new delete upd dif ignore_mtime : bool) (params : Flags) : Config := {|
  verbose := 1; showMatches := false; showSubtree := false; dummyMode := false;
  ignoreMtime := ignore_mtime; noColor := true; createMissingDst := false;
  copyIns := []; copyDel := [];
  new_ := new; delete_ := delete; update := upd; diff := dif;
  srcdir := ["src"]; dstdir := ["dst"]; flags := params |}.

(** [--ignore-content] *)
Definition flagsC : Flags := mkFlags false false false false false true false.

(** One file in the source, nothing in the destination; and the reverse. *)
Definition treeNew : fs :=
  list_to_map [ (["src"], dir); (["dst"], dir); (["src"; "a.txt"], file "12345" 1%Z) ].
Definition treeOld : fs :=
  list_to_map [ (["src"], dir); (["dst"], dir); (["dst"; "old.txt"], file "x" 1%Z) ].

(** The two spellings of one name side by side in the source. *)
Definition treeCafe : fs :=
  list_to_map
    [ (["src"], dir); (["dst"], dir);
      (cafe_nfc, file "1" 1%Z); (cafe_nfd, file "2" 1%Z) ].

(** The events of a comparison of [src] with [dst]. *)
Definition eventsOf (cfg : Config) (t : fs) : Result bool * list Event :=
  let (r, w) := process 4 cfg (mkWorld (start t) []) in (r, w_events w).

End Examples.

(** ** Vocabulary of the statements *)

(** A computation of the dispatcher that returns and leaves the file system
    as it is (it may print). *)
Definition quiet {FS : Type} (m : Act FS unit) : Prop :=
  forall s, exists s', m s = (Ok tt, s') /\ s_fs s' = s_fs s.

Definition quiet_cb2 {FS : Type}
    (cb : option (path -> path -> Flags -> Act FS unit)) : Prop :=
  forall f a b p, cb = Some f -> quiet (f a b p).

(** A callback that never throws (it may print and change the file system). *)
Definition returns_cb2 {FS : Type}
    (cb : option (path -> path -> Flags -> Act FS unit)) : Prop :=
  forall f a b p s, cb = Some f -> exists s', f a b p s = (Ok tt, s').

(** The events of a run that returned decide what it returned. *)
Definition no_difference (evs : list Event) : bool :=
  forallb (fun ev => negb (is_difference ev)) evs.

Definition verdict_ok {FS : Type} (m : M FS bool) : Prop :=
  forall w b w', m w = (Ok b, w') ->
    exists evs, w_events w' = w_events w ++ evs /\ b = no_difference evs.

(** A block is a key with the events the walk emitted for it.  The block of
    a key is right for two maps if it is the one [SrcOnly] event of the
    source slot when the destination has no such key, the one [DstOnly]
    event of the destination slot when the source has none, and what the
    comparison of the two slots emitted when both have it. *)
Definition block_ok {FS : Type} `{Provider FS} (params : Flags) (cbs : Callbacks FS)
    (rec : path -> path -> M FS bool) (src dst : path) (srcmap dstmap : smap)
    (blk : string * list Event) : Prop :=
  match smap_find (fst blk) srcmap, smap_find (fst blk) dstmap with
  | Some es, None => snd blk = [SrcOnly es dst]
  | None, Some ed => snd blk = [DstOnly src ed]
  | Some es, Some ed =>
      exists w r w', compareEntries params cbs rec es ed w = (r, w')
                     /\ w_events w' = w_events w ++ snd blk
  | None, None => False
  end.

(** What a computation adds to the journal of mutating calls: only calls
    that satisfy [P], and the file system stays as it is if it adds none.
    [proj] finds the dispatcher's state in the state of the computation. *)
Definition journals {FS S A : Type} (proj : S -> Sys FS) (P : FsOp -> Prop)
    (m : ST S A) : Prop :=
  forall s r s', m s = (r, s') ->
    exists ops, s_ops (proj s') = s_ops (proj s) ++ ops
                /\ Forall P ops
                /\ (ops = [] -> s_fs (proj s') = s_fs (proj s)).

(** In the dispatcher the state is the dispatcher's own. *)
Definition own {FS : Type} : Sys FS -> Sys FS := fun s => s.

(** A mutating call that [copyRecursive] may issue under the options
    [params]: it creates or copies nothing under a name that the source-side
    filter rejects, and copies nothing from such a name. *)
Definition respects_filter (params : Flags) (op : FsOp) : Prop :=
  match op with
  | OpCreateDirectories dir => ignoreSrcFile (filename dir) params = false
  | OpCopy src dst _ =>
      ignoreSrcFile (filename src) params = false
      /\ ignoreSrcFile (filename dst) params = false
  | OpRemove _ => True
  | OpSetLastWriteTime _ _ _ => False
  end.

Definition is_remove (op : FsOp) : Prop := exists p, op = OpRemove p.

(** A mutating call that brings nothing named like a resource fork into
    being, and copies nothing from such a name. *)
Definition no_fork (op : FsOp) : Prop :=
  match op with
  | OpCreateDirectories dir => hasPrefix (filename dir) "._" = false
  | OpCopy src dst _ =>
      hasPrefix (filename src) "._" = false /\ hasPrefix (filename dst) "._" = false
  | _ => True
  end.

(** The blocks of a walk over two maps from [w] to [w']: they make up the
    events the walk emitted, their keys ascend and are the keys of the two
    maps, and each of them is right. *)
Definition blocks_ok {FS : Type} `{Provider FS} (params : Flags) (cbs : Callbacks FS)
    (rec : path -> path -> M FS bool) (src dst : path) (srcmap dstmap : smap)
    (w w' : World FS) (blocks : list (string * list Event)) : Prop :=
  w_events w' = w_events w ++ List.concat (List.map snd blocks)
  /\ StronglySorted (fun a b => str_lt a b = true) (List.map fst blocks)
  /\ (forall k, In k (List.map fst blocks) <->
                In k (smap_keys srcmap) \/ In k (smap_keys dstmap))
  /\ Forall (block_ok params cbs rec src dst srcmap dstmap) blocks.

(** What the callbacks of [main] may add to the journal: no call at all in
    dummy mode. *)
Definition allowed (cfg : Config) (op : FsOp) : Prop := dummyMode cfg = false.

(** [rec'] returns what [rec] returns, wherever [rec] returns. *)
Definition extends {FS : Type} (rec rec' : path -> path -> M FS bool) : Prop :=
  forall s d w b w', rec s d w = (Ok b, w') -> rec' s d w = (Ok b, w').

(** Callbacks that add to the journal only calls that satisfy [P]. *)
Definition cb2_journal {FS : Type} (P : FsOp -> Prop)
    (cb : option (path -> path -> Flags -> Act FS unit)) : Prop :=
  forall f a b p, cb = Some f -> journals own P (f a b p).

Definition cb1_journal {FS : Type} (P : FsOp -> Prop)
    (cb : option (path -> Flags -> Act FS unit)) : Prop :=
  forall f a p, cb = Some f -> journals own P (f a p).

Definition callbacks_journal {FS : Type} (P : FsOp -> Prop) (cbs : Callbacks FS) : Prop :=
  cb2_journal P (cb_srcOnly cbs) /\ cb2_journal P (cb_dstOnly cbs)
  /\ cb2_journal P (cb_match cbs) /\ cb2_journal P (cb_mismatch cbs)
  /\ cb2_journal P (cb_typeMismatch cbs) /\ cb2_journal P (cb_progressDirs cbs)
  /\ cb2_journal P (cb_progressFiles cbs)
  /\ cb1_journal P (cb_ignoredDir cbs) /\ cb1_journal P (cb_ignoredFile cbs).

(** A mutating call as a [copyRecursive] with the options [opts] may issue
    it: a removal only if the options say overwrite, a copy only with these
    very options and to the file name of its source, never an mtime change,
    and none of them in dummy mode. *)
Definition copy_call_ok (opts : copy_options) (dummyMode : bool) (op : FsOp) : Prop :=
  dummyMode = false
  /\ match op with
     | OpRemove _ => has_option opts overwrite_existing = true
     | OpCreateDirectories _ => True
     | OpCopy src dst o => o = opts /\ filename dst = filename src
     | OpSetLastWriteTime _ _ _ => False
     end.

(** [--diff] with [--copy-ins] or [--copy-del]. *)
Definition side_export (cfg : Config) : bool :=
  diff cfg && negb (is_empty (copyIns cfg) && is_empty (copyDel cfg)).

(** A mutating call that the modes of a run permit: removals come of
    [--delete], [--update] and the side exports, new directories and copies
    of [--new], [--update] and the side exports, copies that may overwrite
    of [--update] and the side exports only; no mode changes an mtime and
    dummy mode permits nothing. *)
Definition mode_allows (cfg : Config) (op : FsOp) : Prop :=
  dummyMode cfg = false
  /\ match op with
     | OpRemove _ =>
         delete_ cfg = true \/ update cfg = true \/ side_export cfg = true
     | OpCreateDirectories _ =>
         new_ cfg = true \/ update cfg = true \/ side_export cfg = true
     | OpCopy _ _ o =>
         (new_ cfg = true /\ has_option o overwrite_existing = false)
         \/ update cfg = true \/ side_export cfg = true
     | OpSetLastWriteTime _ _ _ => False
     end.

(** A computation of the dispatcher whose every run relates the state
    before to the state after by [R]. *)
Definition keeps {FS A : Type} (R : Sys FS -> Sys FS -> Prop) (m : Act FS A) : Prop :=
  forall s r s', m s = (r, s') -> R s s'.

(** A computation of the comparator that relates the state of the
    dispatcher before to the one after by [R] unless it reports an event
    that [q] rejects. *)
Definition guarded {FS A : Type} (q : Event -> bool) (R : Sys FS -> Sys FS -> Prop)
    (m : M FS A) : Prop :=
  forall w r w', m w = (r, w') ->
    exists evs, w_events w' = w_events w ++ evs
      /\ (forallb q evs = true -> R (w_sys w) (w_sys w')).


(** The output is the same. *)
Definition silent {FS : Type} (s s' : Sys FS) : Prop := s_out s' = s_out s.

(** The events that a comparison without verbosity does not print: matches
    and progress. *)
Definition unprinted (ev : Event) : bool :=
  match ev with
  | Match _ _ | ProgressDirs _ _ | ProgressFiles _ _ => true
  | _ => false
  end.

(** Two identical trees: a file, and a directory with a file in it. *)
Definition treeSame : MemFs.fs :=
  list_to_map
    [ (["src"], MemFs.dir); (["dst"], MemFs.dir);
      (["src"; "a.txt"], MemFs.file "hello" 5%Z);
      (["dst"; "a.txt"], MemFs.file "hello" 3%Z);
      (["src"; "d"], MemFs.dir); (["src"; "d"; "x"], MemFs.file "x" 1%Z);
      (["dst"; "d"], MemFs.dir); (["dst"; "d"; "x"], MemFs.file "x" 1%Z) ].

(** [p] is [root] or lies below it. *)
Definition under (root p : path) : Prop := exists rest, p = root ++ rest.

(** The path a mutating call changes. *)
Definition target (op : FsOp) : path :=
  match op with
  | OpCreateDirectories dir => dir
  | OpRemove p => p
  | OpCopy _ dst _ => dst
  | OpSetLastWriteTime p _ _ => p
  end.

(** A provider whose [directory_iterator] yields entries of the directory
    it iterates: each is the path of the directory with one name appended,
    as [std::filesystem::directory_iterator] does. *)
Definition lists_children (FS : Type) `{Provider FS} : Prop :=
  forall (t : FS) (d : path) (entries : list path) (e : path),
    directory_iterator t d = Ok entries -> In e entries ->
    exists name, e = path_append d name.

(** A mutating call of a run that changes [d] or something below it, in a
    run with [--new], [--delete] or [--update], or the directory of
    [--copy-ins] or of [--copy-del] or something below these, in a run with
    [--diff]. *)
Definition writes_below (cfg : Config) (d : path) (op : FsOp) : Prop :=
  ((new_ cfg = true \/ delete_ cfg = true \/ update cfg = true) /\ under d (target op))
  \/ (diff cfg = true /\ is_empty (copyIns cfg) = false /\ under (copyIns cfg) (target op))
  \/ (diff cfg = true /\ is_empty (copyDel cfg) = false /\ under (copyDel cfg) (target op)).

(** Two symbolic links of one name with different targets, and two fifos. *)
Definition treeLinks : MemFs.fs :=
  list_to_map
    [ (["src"], MemFs.dir); (["dst"], MemFs.dir);
      (["src"; "l"], MemFs.mkNode (MemFs.KSymlink ["a"]) 1%Z);
      (["dst"; "l"], MemFs.mkNode (MemFs.KSymlink ["b"]) 1%Z);
      (["src"; "p"], MemFs.mkNode MemFs.KFifo 1%Z);
      (["dst"; "p"], MemFs.mkNode MemFs.KFifo 2%Z) ].

(** [--ignore-dirs] *)
Definition flagsD : Flags := mkFlags true false false false false false false.

(** The number of differences among the events of a run. *)
Definition count_differences (evs : list Event) : nat :=
  List.length (List.filter is_difference evs).

(** A computation of the dispatcher that only adds lines to the output. *)
Definition appends {FS A : Type} (m : Act FS A) : Prop :=
  forall s r s', m s = (r, s') -> exists lines, s_out s' = s_out s ++ lines.

(** A computation of the dispatcher that adds at least one line to the
    output if it returns. *)
Definition speaks {FS A : Type} (m : Act FS A) : Prop :=
  forall s a s', m s = (Ok a, s') -> exists line lines, s_out s' = s_out s ++ line :: lines.

(** A computation of the comparator that, if it returns, has added at least
    as many lines to the output as it has reported differences. *)
Definition loud {FS A : Type} (m : M FS A) : Prop :=
  forall w a w', m w = (Ok a, w') ->
    exists evs lines,
      w_events w' = w_events w ++ evs
      /\ s_out (w_sys w') = s_out (w_sys w) ++ lines
      /\ count_differences evs <= List.length lines.


(** * Properties *)

(** ** The order of the keys *)

Lemma ascii_compare_refl (a : ascii) : Ascii.compare a a = Eq.
Proof. unfold Ascii.compare. apply N.compare_refl. Qed.

Lemma string_compare_refl (s : string) : String.compare s s = Eq.
Proof.
  induction s as [|a s IH]; simpl; [reflexivity|].
  rewrite ascii_compare_refl. exact IH.
Qed.

Lemma ascii_compare_trans (a b c : ascii) :
  Ascii.compare a b = Lt -> Ascii.compare b c = Lt -> Ascii.compare a c = Lt.
Proof.
  unfold Ascii.compare. rewrite !N.compare_lt_iff. lia.
Qed.

Lemma string_compare_trans (a b c : string) :
  String.compare a b = Lt -> String.compare b c = Lt -> String.compare a c = Lt.
Proof.
  revert b c. induction a as [|x a IH]; intros [|y b] [|z c]; simpl; try congruence.
  destruct (Ascii.compare x y) eqn:Hxy; try congruence.
  - apply Ascii.compare_eq_iff in Hxy. subst y.
    destruct (Ascii.compare x z) eqn:Hxz; try congruence. apply IH.
  - destruct (Ascii.compare y z) eqn:Hyz; try congruence.
    + apply Ascii.compare_eq_iff in Hyz. subst z. rewrite Hxy. reflexivity.
    + rewrite (ascii_compare_trans _ _ _ Hxy Hyz). reflexivity.
Qed.

Lemma str_lt_compare (a b : string) : str_lt a b = true <-> String.compare a b = Lt.
Proof.
  unfold str_lt, String.ltb. destruct (String.compare a b); split; congruence.
Qed.

Lemma str_lt_irrefl (a : string) : str_lt a a = false.
Proof. unfold str_lt, String.ltb. rewrite string_compare_refl. reflexivity. Qed.

Lemma str_lt_trans (a b c : string) :
  str_lt a b = true -> str_lt b c = true -> str_lt a c = true.
Proof. rewrite !str_lt_compare. apply string_compare_trans. Qed.

Lemma str_lt_asym (a b : string) : str_lt a b = true -> str_lt b a = false.
Proof.
  intros Hab. destruct (str_lt b a) eqn:Hba; [|reflexivity].
  pose proof (str_lt_trans _ _ _ Hab Hba) as H. rewrite str_lt_irrefl in H. discriminate.
Qed.

Lemma str_lt_total (a b : string) :
  str_lt a b = false -> str_lt b a = false -> a = b.
Proof.
  unfold str_lt, String.ltb. rewrite (String.compare_antisym b a).
  destruct (String.compare a b) eqn:Hc; simpl; try discriminate.
  intros _ _. apply String.compare_eq_iff. exact Hc.
Qed.

Lemma str_lt_neq (a b : string) : str_lt a b = true -> a <> b.
Proof. intros H ->. rewrite str_lt_irrefl in H. discriminate. Qed.

(** ** Paths and file types *)

Lemma filename_append (dir : path) (name : string) :
  filename (path_append dir name) = name.
Proof. unfold filename, path_append. apply last_last. Qed.

Lemma parent_append (dir : path) (name : string) :
  parent_path (path_append dir name) = dir.
Proof. unfold parent_path, path_append. apply removelast_last. Qed.

Lemma FileType_eqb_eq (a b : FileType) : FileType_eqb a b = true <-> a = b.
Proof. destruct a, b; simpl; split; congruence. Qed.

(** ** The monad *)

Section MonadFacts.

Context {S : Type}.

Lemma bind_Ok {A B} (m : ST S A) (k : A -> ST S B) (s s' : S) (b : B) :
  bind m k s = (Ok b, s') ->
  exists a s1, m s = (Ok a, s1) /\ k a s1 = (Ok b, s').
Proof.
  unfold bind. destruct (m s) as [[a|e] s1]; intros Hk.
  - exists a, s1. split; [reflexivity | exact Hk].
  - discriminate.
Qed.

Lemma bind_step {A B} (m : ST S A) (k : A -> ST S B) (s s1 : S) (a : A) :
  m s = (Ok a, s1) -> bind m k s = k a s1.
Proof. unfold bind. intros ->. reflexivity. Qed.

Lemma bind_fail {A B} (m : ST S A) (k : A -> ST S B) (s s1 : S) (e : Error) :
  m s = (Err e, s1) -> bind m k s = (Err e, s1).
Proof. unfold bind. intros ->. reflexivity. Qed.

(** A run is its result and the state it reached. *)
Lemma run_Ok {A} (m : ST S A) (s : S) (a : A) :
  fst (m s) = Ok a -> m s = (Ok a, snd (m s)).
Proof. destruct (m s) as [r s']. simpl. intros ->. reflexivity. Qed.

End MonadFacts.

(** ** The ordered map *)

Lemma smap_set_keys (k : string) (v : path) (m : smap) (k' : string) :
  In k' (smap_keys (smap_set k v m)) <-> k' = k \/ In k' (smap_keys m).
Proof.
  induction m as [|[k0 v0] m IH]; simpl.
  - intuition.
  - destruct (str_lt k k0) eqn:H1; simpl; [intuition|].
    destruct (str_lt k0 k) eqn:H2; simpl.
    + rewrite IH. intuition.
    + apply str_lt_total in H1; [|exact H2]. subst k0. intuition.
Qed.

Lemma smap_set_sorted (k : string) (v : path) (m : smap) :
  smap_sorted m -> smap_sorted (smap_set k v m).
Proof.
  unfold smap_sorted. induction m as [|[k0 v0] m IH]; simpl; intros Hs.
  - constructor; constructor.
  - inversion Hs as [|? ? Hs' Hall]; subst.
    destruct (str_lt k k0) eqn:H1; simpl.
    + constructor; [exact Hs|]. constructor; [exact H1|].
      eapply List.Forall_impl; [|exact Hall]. simpl. intros a Ha.
      eapply str_lt_trans; eassumption.
    + destruct (str_lt k0 k) eqn:H2; simpl.
      * constructor; [apply IH; exact Hs'|].
        apply List.Forall_forall. intros a Ha.
        apply (smap_set_keys k v m a) in Ha. destruct Ha as [->|Ha]; [exact H2|].
        rewrite List.Forall_forall in Hall. apply Hall. exact Ha.
      * apply str_lt_total in H1; [|exact H2]. subst k0.
        constructor; assumption.
Qed.

Lemma smap_find_set_eq (k : string) (v : path) (m : smap) :
  smap_find k (smap_set k v m) = Some v.
Proof.
  induction m as [|[k0 v0] m IH]; simpl.
  - rewrite String.eqb_refl. reflexivity.
  - destruct (str_lt k k0) eqn:H1; simpl.
    + rewrite String.eqb_refl. reflexivity.
    + destruct (str_lt k0 k) eqn:H2; simpl.
      * apply str_lt_neq in H2.
        destruct (String.eqb_spec k k0) as [->|_]; [congruence | exact IH].
      * rewrite String.eqb_refl. reflexivity.
Qed.

Lemma smap_find_set_ne (k k' : string) (v : path) (m : smap) :
  k' <> k -> smap_find k' (smap_set k v m) = smap_find k' m.
Proof.
  intros Hne. induction m as [|[k0 v0] m IH]; simpl.
  - destruct (String.eqb_spec k' k); [congruence | reflexivity].
  - destruct (str_lt k k0) eqn:H1; simpl.
    + destruct (String.eqb_spec k' k); [congruence | reflexivity].
    + destruct (str_lt k0 k) eqn:H2; simpl.
      * rewrite IH. reflexivity.
      * apply str_lt_total in H1; [|exact H2]. subst k0.
        destruct (String.eqb_spec k' k); [congruence | reflexivity].
Qed.

Lemma smap_find_In (k : string) (v : path) (m : smap) :
  smap_find k m = Some v -> In (k, v) m.
Proof.
  induction m as [|[k0 v0] m IH]; simpl; [discriminate|].
  destruct (String.eqb_spec k k0) as [->|_].
  - intros [= ->]. left. reflexivity.
  - intros Hf. right. apply IH. exact Hf.
Qed.

Lemma smap_find_None (k : string) (m : smap) :
  smap_find k m = None <-> ~ In k (smap_keys m).
Proof.
  induction m as [|[k0 v0] m IH]; simpl.
  - intuition.
  - destruct (String.eqb_spec k k0) as [->|Hne].
    + split; [discriminate | intros Hn; exfalso; apply Hn; left; reflexivity].
    + rewrite IH. split; [intros Hn [Heq|Hin]; [congruence | tauto] | tauto].
Qed.

Lemma smap_In_find (k : string) (v : path) (m : smap) :
  smap_sorted m -> In (k, v) m -> smap_find k m = Some v.
Proof.
  unfold smap_sorted. induction m as [|[k0 v0] m IH]; simpl; [tauto|].
  intros Hs [Heq|Hin].
  - injection Heq as -> ->. rewrite String.eqb_refl. reflexivity.
  - inversion Hs as [|? ? Hs' Hall]; subst.
    destruct (String.eqb_spec k k0) as [->|_]; [|apply IH; assumption].
    rewrite List.Forall_forall in Hall.
    assert (Hlt : str_lt k0 k0 = true).
    { apply Hall. unfold smap_keys. apply (in_map fst) in Hin. exact Hin. }
    rewrite str_lt_irrefl in Hlt. discriminate.
Qed.

Lemma smap_set_In (k k0 : string) (v v0 : path) (m : smap) :
  In (k, v) (smap_set k0 v0 m) -> (k, v) = (k0, v0) \/ In (k, v) m.
Proof.
  induction m as [|[k1 v1] m IH]; simpl.
  - intros [Heq|[]]. left. congruence.
  - destruct (str_lt k0 k1); simpl.
    + intros [Heq|Hin]; [left; congruence | right; exact Hin].
    + destruct (str_lt k1 k0); simpl.
      * intros [Heq|Hin]; [right; left; exact Heq|].
        destruct (IH Hin) as [Heq|Hin']; [left; exact Heq | right; right; exact Hin'].
      * intros [Heq|Hin]; [left; congruence | right; right; exact Hin].
Qed.

(** ** Filling the maps *)

Section FillMap.

Context {FS : Type} `{Provider FS}.
Variable params : Flags.
Variable ignoreFile : string -> Flags -> bool.

Local Abbreviation step := (fillStep params ignoreFile).

Lemma fillMap_fold (entries : list path) :
  fillMap params ignoreFile entries = List.fold_left step entries [].
Proof. reflexivity. Qed.

Lemma fold_step_sorted (entries : list path) (acc : smap) :
  smap_sorted acc -> smap_sorted (List.fold_left step entries acc).
Proof.
  revert acc. induction entries as [|e l IH]; simpl; intros acc Hs; [exact Hs|].
  apply IH. unfold fillStep. destruct (ignoreFile _ _); [exact Hs|].
  apply smap_set_sorted. exact Hs.
Qed.

Lemma fillMap_sorted (entries : list path) :
  smap_sorted (fillMap params ignoreFile entries).
Proof. rewrite fillMap_fold. apply fold_step_sorted. constructor. Qed.

Lemma fold_step_slot (entries : list path) (acc : smap) (k : string) (v : path) :
  In (k, v) (List.fold_left step entries acc) ->
  In (k, v) acc
  \/ (k = keyOf params v /\ In v entries /\ ignoreFile (filename v) params = false).
Proof.
  revert acc. induction entries as [|e l IH]; simpl; intros acc Hin; [left; exact Hin|].
  destruct (IH _ Hin) as [Hacc|(Hk & Hv & Hi)].
  - unfold fillStep in Hacc. destruct (ignoreFile (filename e) params) eqn:Hign.
    + left. exact Hacc.
    + destruct (smap_set_In _ _ _ _ _ Hacc) as [Heq|Hold]; [|left; exact Hold].
      injection Heq as -> ->. right. split; [reflexivity|]. split; [left; reflexivity | exact Hign].
  - right. split; [exact Hk|]. split; [right; exact Hv | exact Hi].
Qed.

(** Every slot holds an entry of the listing under the key of that entry. *)
Lemma fillMap_slot (entries : list path) (k : string) (v : path) :
  In (k, v) (fillMap params ignoreFile entries) ->
  k = keyOf params v /\ In v entries /\ ignoreFile (filename v) params = false.
Proof.
  rewrite fillMap_fold. intros Hin.
  destruct (fold_step_slot _ _ _ _ Hin) as [[]|Hr]. exact Hr.
Qed.

(** A slot keeps its entry while no later entry of the listing takes its key. *)
Lemma fold_step_keeps (entries : list path) (acc : smap) (k : string) (v : path) :
  smap_find k acc = Some v ->
  (forall e, In e entries ->
     ignoreFile (filename e) params = true \/ keyOf params e <> k) ->
  smap_find k (List.fold_left step entries acc) = Some v.
Proof.
  revert acc. induction entries as [|e l IH]; simpl; intros acc Hf Hl; [exact Hf|].
  apply IH; [|intros e' He'; apply Hl; right; exact He'].
  unfold fillStep. destruct (Hl e (or_introl eq_refl)) as [Hign|Hne].
  - rewrite Hign. exact Hf.
  - destruct (ignoreFile _ _); [exact Hf|].
    rewrite smap_find_set_ne; [exact Hf | congruence].
Qed.

(** The entry scanned last is in its slot. *)
Lemma fillMap_last (before : list path) (e : path) :
  ignoreFile (filename e) params = false ->
  smap_find (keyOf params e) (fillMap params ignoreFile (before ++ [e])) = Some e.
Proof.
  intros Hign. rewrite fillMap_fold, List.fold_left_app. simpl.
  unfold fillStep at 1. rewrite Hign. apply smap_find_set_eq.
Qed.

Lemma fillMap_later_wins (before after : list path) (e : path) :
  ignoreFile (filename e) params = false ->
  (forall e', In e' after ->
     ignoreFile (filename e') params = true \/ keyOf params e' <> keyOf params e) ->
  smap_find (keyOf params e) (fillMap params ignoreFile (before ++ e :: after)) = Some e.
Proof.
  intros Hign Hafter.
  replace (before ++ e :: after) with ((before ++ [e]) ++ after)
    by (rewrite <- List.app_assoc; reflexivity).
  rewrite fillMap_fold, List.fold_left_app. apply fold_step_keeps; [|exact Hafter].
  rewrite <- fillMap_fold. apply fillMap_last. exact Hign.
Qed.

End FillMap.

(** ** Name collisions after normalization *)


Import MemFs.


(** ** The trace of events *)

Lemma no_difference_app (e1 e2 : list Event) :
  no_difference (e1 ++ e2) = no_difference e1 && no_difference e2.
Proof. unfold no_difference. apply forallb_app. Qed.

(** Inversion of a run that returned: one hypothesis per step. *)
Ltac st_inv H :=
  lazymatch type of H with
  | bind _ _ _ = (Ok _, _) =>
      let a := fresh "a" in
      let s1 := fresh "w" in
      let H1 := fresh "Hm" in
      let H2 := fresh "Hk" in
      apply bind_Ok in H; destruct H as (a & s1 & H1 & H2);
      cbv beta in H2; st_inv H1; st_inv H2
  | ret _ _ = (Ok _, _) => unfold ret in H; injection H as <- <-
  | when ?c _ _ = (Ok _, _) => unfold when in H; destruct c eqn:?; st_inv H
  | (if ?c then _ else _) _ = (Ok _, _) => destruct c eqn:?; st_inv H
  | _ => idtac
  end.

Section Trace.

Context {FS : Type} `{Provider FS}.
Variable params : Flags.
Variable cbs : Callbacks FS.

Lemma liftAct_events {A} (a : Act FS A) (w w' : World FS) (r : Result A) :
  liftAct a w = (r, w') -> w_events w' = w_events w.
Proof.
  unfold liftAct. destruct (a (w_sys w)) as [r0 s']. intros [= _ <-]. reflexivity.
Qed.

Lemma call2_events cb (a b : path) (w w' : World FS) (r : Result unit) :
  call2 params cb a b w = (r, w') -> w_events w' = w_events w.
Proof.
  unfold call2. destruct cb as [f|].
  - apply liftAct_events.
  - unfold ret. intros [= _ <-]. reflexivity.
Qed.

Lemma call1_events cb (a : path) (w w' : World FS) (r : Result unit) :
  call1 params cb a w = (r, w') -> w_events w' = w_events w.
Proof.
  unfold call1. destruct cb as [f|].
  - apply liftAct_events.
  - unfold ret. intros [= _ <-]. reflexivity.
Qed.

(** A notification method appends its event, whatever its callback does. *)
Lemma notify_events (ev : Event) (m : M FS unit) (w w' : World FS) (r : Result unit) :
  (forall w0 r0 w1, m w0 = (r0, w1) -> w_events w1 = w_events w0) ->
  bind (emit ev) (fun _ => m) w = (r, w') ->
  w_events w' = w_events w ++ [ev].
Proof.
  intros Hm. unfold bind, emit, modify. intros Hrun.
  apply Hm in Hrun. exact Hrun.
Qed.

Lemma srcOnly_events a b w r w' :
  srcOnly params cbs a b w = (r, w') -> w_events w' = w_events w ++ [SrcOnly a b].
Proof. apply notify_events. intros *. apply call2_events. Qed.

Lemma dstOnly_events a b w r w' :
  dstOnly params cbs a b w = (r, w') -> w_events w' = w_events w ++ [DstOnly a b].
Proof. apply notify_events. intros *. apply call2_events. Qed.

Lemma match_events a b w r w' :
  match_ params cbs a b w = (r, w') -> w_events w' = w_events w ++ [Match a b].
Proof. apply notify_events. intros *. apply call2_events. Qed.

Lemma mismatch_events a b w r w' :
  mismatch params cbs a b w = (r, w') -> w_events w' = w_events w ++ [Mismatch a b].
Proof. apply notify_events. intros *. apply call2_events. Qed.

Lemma typeMismatch_events a b w r w' :
  typeMismatch params cbs a b w = (r, w') -> w_events w' = w_events w ++ [TypeMismatch a b].
Proof. apply notify_events. intros *. apply call2_events. Qed.

Lemma progressDirs_events a b w r w' :
  progressDirs params cbs a b w = (r, w') -> w_events w' = w_events w ++ [ProgressDirs a b].
Proof. apply notify_events. intros *. apply call2_events. Qed.

Lemma progressFiles_events a b w r w' :
  progressFiles params cbs a b w = (r, w') -> w_events w' = w_events w ++ [ProgressFiles a b].
Proof. apply notify_events. intros *. apply call2_events. Qed.

Lemma ignoredDir_events a w r w' :
  ignoredDir params cbs a w = (r, w') -> w_events w' = w_events w ++ [IgnoredDir a].
Proof. apply notify_events. intros *. apply call1_events. Qed.

Lemma ignoredFile_events a w r w' :
  ignoredFile params cbs a w = (r, w') -> w_events w' = w_events w ++ [IgnoredFile a].
Proof. apply notify_events. intros *. apply call1_events. Qed.

Lemma getFS_run (w w' : World FS) (r : Result FS) :
  getFS w = (r, w') -> w' = w /\ r = Ok (s_fs (w_sys w)).
Proof. unfold getFS. intros [= <- <-]. split; reflexivity. Qed.

Lemma liftR_run {A} (x : Result A) (w w' : World FS) (r : Result A) :
  liftR x w = (r, w') -> w' = w /\ r = x.
Proof. unfold liftR. intros [= <- <-]. split; reflexivity. Qed.

Lemma readSrcDir_run (src : path) (w w' : World FS) (m : smap) :
  readSrcDir params src w = (Ok m, w') ->
  w' = w /\ exists entries,
    directory_iterator (s_fs (w_sys w)) src = Ok entries /\ m = fillSrcMap params entries.
Proof.
  unfold readSrcDir. intros Hrun. st_inv Hrun.
  apply getFS_run in Hm as [-> [= ->]]. apply liftR_run in Hm0 as [-> Hit].
  split; [reflexivity|]. exists a0. split; [symmetry; exact Hit | reflexivity].
Qed.

Lemma readDstDir_run (dst : path) (w w' : World FS) (m : smap) :
  readDstDir params dst w = (Ok m, w') ->
  w' = w /\ exists entries, m = fillDstMap params entries.
Proof.
  unfold readDstDir. intros Hrun. st_inv Hrun.
  - apply getFS_run in Hm as [-> [= ->]]. apply liftR_run in Hm0 as [-> Hit].
    split; [reflexivity|]. exists a0. reflexivity.
  - apply getFS_run in Hm as [-> [= ->]].
    split; [reflexivity|]. exists []. reflexivity.
Qed.

End Trace.

(** ** The verdict of [processDir] *)

Section Verdict.

Context {FS : Type} `{Provider FS}.
Variable params : Flags.
Variable cbs : Callbacks FS.

(** Closes a goal [exists evs, w_events w' = w_events w ++ evs /\ ...] from
    the equations the steps of the run left. *)
Ltac trace_done :=
  repeat match goal with
         | Hev : w_events ?x = _ |- context [w_events ?x] => rewrite Hev; clear Hev
         end;
  eexists; split;
  [ first [ rewrite <- ?List.app_assoc; reflexivity | symmetry; apply List.app_nil_r ]
  | simpl; try reflexivity ].

Lemma compareEntries_verdict (rec : path -> path -> M FS bool) (es ed : path) :
  (forall s d, verdict_ok (rec s d)) ->
  verdict_ok (compareEntries params cbs rec es ed).
Proof.
  intros Hrec w b w' Hrun. unfold compareEntries in Hrun.
  apply bind_Ok in Hrun. destruct Hrun as (fs0 & w0 & Hget & Hrun).
  apply getFS_run in Hget as [-> _].
  destruct (negb (FileType_eqb _ _)) eqn:Htype.
  - st_inv Hrun. apply typeMismatch_events in Hm. trace_done.
  - apply bind_Ok in Hrun. destruct Hrun as ([] & w1 & Hprog & Hrun).
    assert (Hev1 : exists e1, w_events w1 = w_events w ++ e1 /\ no_difference e1 = true).
    { unfold when in Hprog. destruct (negb (FileType_eqb _ FT_DIR)).
      - apply progressFiles_events in Hprog. eexists; split; [exact Hprog | reflexivity].
      - unfold ret in Hprog. injection Hprog as <-. exists [].
        rewrite List.app_nil_r. split; reflexivity. }
    destruct Hev1 as (e1 & Hev1 & Hnd1).
    apply bind_Ok in Hrun. destruct Hrun as (fs1 & w2 & Hget & Hrun).
    apply getFS_run in Hget as [-> _].
    assert (Hrest : exists e2, w_events w' = w_events w1 ++ e2 /\ b = no_difference e2).
    { destruct (getFileType fs0 es (followSymlinks params));
        repeat match type of Hrun with
               | (if ?c then _ else _) _ = _ => destruct c
               end;
        st_inv Hrun;
        repeat match goal with
               | Hx : match_ _ _ _ _ _ = _ |- _ => apply match_events in Hx
               | Hx : mismatch _ _ _ _ _ = _ |- _ => apply mismatch_events in Hx
               | Hx : ignoredDir _ _ _ _ = _ |- _ => apply ignoredDir_events in Hx
               | Hx : ignoredFile _ _ _ _ = _ |- _ => apply ignoredFile_events in Hx
               end;
        try (clear Hev1; trace_done).
      apply Hrec in Hm. exact Hm. }
    destruct Hrest as (e2 & Hev2 & Hb).
    exists (e1 ++ e2). split.
    + rewrite Hev2, Hev1, <- List.app_assoc. reflexivity.
    + rewrite no_difference_app, Hnd1. exact Hb.
Qed.

(** The loop: the flag it returns is the one it started with, cleared by
    every difference event of the walk. *)
Lemma walk_verdict (rec : path -> path -> M FS bool) (src dst : path) :
  (forall s d, verdict_ok (rec s d)) ->
  forall srcmap dstmap nd w b w',
    walk params cbs rec src dst srcmap dstmap nd w = (Ok b, w') ->
    exists evs, w_events w' = w_events w ++ evs /\ b = nd && no_difference evs.
Proof.
  intros Hrec.
  assert (Hsrc : forall x y (w0 w1 : World FS) nd0 b0 (w2 : World FS),
             srcOnly params cbs x y w0 = (Ok tt, w1) ->
             (exists evs, w_events w2 = w_events w1 ++ evs /\ b0 = false && no_difference evs) ->
             exists evs, w_events w2 = w_events w0 ++ evs /\ b0 = nd0 && no_difference evs).
  { intros x y w0 w1 nd0 b0 w2 Hs (evs & Hev & Hb). apply srcOnly_events in Hs.
    exists (SrcOnly x y :: evs). split.
    - rewrite Hev, Hs, <- List.app_assoc. reflexivity.
    - simpl. rewrite Hb. simpl. rewrite andb_false_r. reflexivity. }
  assert (Hdst : forall x y (w0 w1 : World FS) nd0 b0 (w2 : World FS),
             dstOnly params cbs x y w0 = (Ok tt, w1) ->
             (exists evs, w_events w2 = w_events w1 ++ evs /\ b0 = false && no_difference evs) ->
             exists evs, w_events w2 = w_events w0 ++ evs /\ b0 = nd0 && no_difference evs).
  { intros x y w0 w1 nd0 b0 w2 Hs (evs & Hev & Hb). apply dstOnly_events in Hs.
    exists (DstOnly x y :: evs). split.
    - rewrite Hev, Hs, <- List.app_assoc. reflexivity.
    - simpl. rewrite Hb. simpl. rewrite andb_false_r. reflexivity. }
  induction srcmap as [|[ks es] srcmap IHs]; induction dstmap as [|[kd ed] dstmap IHd];
    intros nd w b w' Hrun; simpl in Hrun.
  - unfold ret in Hrun. injection Hrun as <- <-. exists [].
    rewrite List.app_nil_r, andb_true_r. split; reflexivity.
  - apply bind_Ok in Hrun. destruct Hrun as ([] & w1 & Hs & Hrun).
    eapply Hdst; [exact Hs|]. apply IHd. exact Hrun.
  - apply bind_Ok in Hrun. destruct Hrun as ([] & w1 & Hs & Hrun).
    eapply Hsrc; [exact Hs|]. eapply IHs. exact Hrun.
  - destruct (str_lt ks kd).
    + apply bind_Ok in Hrun. destruct Hrun as ([] & w1 & Hs & Hrun).
      eapply Hsrc; [exact Hs|]. eapply IHs. exact Hrun.
    + destruct (str_lt kd ks).
      * apply bind_Ok in Hrun. destruct Hrun as ([] & w1 & Hs & Hrun).
        eapply Hdst; [exact Hs|]. apply IHd. exact Hrun.
      * apply bind_Ok in Hrun. destruct Hrun as (same & w1 & Hc & Hrun).
        apply (compareEntries_verdict rec es ed Hrec) in Hc.
        destruct Hc as (e1 & Hev1 & Hsame).
        apply IHs in Hrun. destruct Hrun as (e2 & Hev2 & Hb).
        exists (e1 ++ e2). split.
        -- rewrite Hev2, Hev1, <- List.app_assoc. reflexivity.
        -- rewrite no_difference_app, Hb, Hsame, andb_assoc. reflexivity.
Qed.

End Verdict.

Lemma processDir_verdict {FS : Type} `{Provider FS} (params : Flags) (cbs : Callbacks FS)
    (fuel : nat) (src dst : path) :
  verdict_ok (processDir params cbs fuel src dst).
Proof.
  revert src dst. induction fuel as [|fuel IH]; intros src dst w0 b0 w1 Hrun.
  - discriminate Hrun.
  - simpl in Hrun.
    apply bind_Ok in Hrun. destruct Hrun as ([] & w2 & Hp & Hrun).
    apply progressDirs_events in Hp.
    apply bind_Ok in Hrun. destruct Hrun as (srcmap & w3 & Hs & Hrun).
    apply readSrcDir_run in Hs as [-> _].
    apply bind_Ok in Hrun. destruct Hrun as (dstmap & w3 & Hd & Hrun).
    apply readDstDir_run in Hd as [-> _].
    apply (walk_verdict params cbs _ src dst IH) in Hrun.
    destruct Hrun as (evs & Hev & Hb).
    exists (ProgressDirs src dst :: evs). split.
    + rewrite Hev, Hp, <- List.app_assoc. reflexivity.
    + simpl. exact Hb.
Qed.

(** *** The recursion bound

    A result reached within the bound is the result for every greater
    bound. *)

Section Fuel.

Context {FS : Type} `{Provider FS}.
Variable params : Flags.
Variable cbs : Callbacks FS.

Lemma compareEntries_extends (rec rec' : path -> path -> M FS bool) (es ed : path) :
  extends rec rec' ->
  forall w b w',
    compareEntries params cbs rec es ed w = (Ok b, w') ->
    compareEntries params cbs rec' es ed w = (Ok b, w').
Proof.
  intros Hrec w b w' Hrun. unfold compareEntries in *.
  apply bind_Ok in Hrun. destruct Hrun as (fs0 & w0 & Hget & Hrun).
  rewrite (bind_step _ _ _ _ _ Hget).
  destruct (negb (FileType_eqb _ _)); [exact Hrun|].
  apply bind_Ok in Hrun. destruct Hrun as ([] & w1 & Hprog & Hrun).
  rewrite (bind_step _ _ _ _ _ Hprog).
  apply bind_Ok in Hrun. destruct Hrun as (fs1 & w2 & Hget1 & Hrun).
  rewrite (bind_step _ _ _ _ _ Hget1).
  destruct (getFileType fs0 es (followSymlinks params)); try exact Hrun.
  destruct (negb (ignoreDirs params)); [|exact Hrun].
  apply bind_Ok in Hrun. destruct Hrun as (sub & w3 & Hsub & Hrun).
  rewrite (bind_step _ _ _ _ _ (Hrec _ _ _ _ _ Hsub)). exact Hrun.
Qed.

Lemma walk_extends (rec rec' : path -> path -> M FS bool) (src dst : path) :
  extends rec rec' ->
  forall srcmap dstmap nd w b w',
    walk params cbs rec src dst srcmap dstmap nd w = (Ok b, w') ->
    walk params cbs rec' src dst srcmap dstmap nd w = (Ok b, w').
Proof.
  intros Hrec.
  induction srcmap as [|[ks es] srcmap IHs]; induction dstmap as [|[kd ed] dstmap IHd];
    intros nd w b w' Hrun; simpl in *.
  - exact Hrun.
  - apply bind_Ok in Hrun. destruct Hrun as ([] & w1 & Hd & Hrun).
    rewrite (bind_step _ _ _ _ _ Hd). apply IHd. exact Hrun.
  - apply bind_Ok in Hrun. destruct Hrun as ([] & w1 & Hs & Hrun).
    rewrite (bind_step _ _ _ _ _ Hs). apply IHs. exact Hrun.
  - destruct (str_lt ks kd); [|destruct (str_lt kd ks)].
    + apply bind_Ok in Hrun. destruct Hrun as ([] & w1 & Hs & Hrun).
      rewrite (bind_step _ _ _ _ _ Hs). apply IHs. exact Hrun.
    + apply bind_Ok in Hrun. destruct Hrun as ([] & w1 & Hd & Hrun).
      rewrite (bind_step _ _ _ _ _ Hd). apply IHd. exact Hrun.
    + apply bind_Ok in Hrun. destruct Hrun as (same & w1 & Hc & Hrun).
      rewrite (bind_step _ _ _ _ _ (compareEntries_extends rec rec' es ed Hrec _ _ _ Hc)).
      apply IHs. exact Hrun.
Qed.

Lemma processDir_more_fuel (n : nat) :
  extends (processDir params cbs n) (processDir params cbs (S n)).
Proof.
  induction n as [|n IH]; intros src dst w b w' Hrun.
  - discriminate Hrun.
  - change (processDir params cbs (S n) src dst w) with
      (bind (progressDirs params cbs src dst) (fun _ =>
       bind (readSrcDir params src) (fun srcmap =>
       bind (readDstDir params dst) (fun dstmap =>
       walk params cbs (processDir params cbs n) src dst srcmap dstmap true))) w) in Hrun.
    change (processDir params cbs (S (S n)) src dst w) with
      (bind (progressDirs params cbs src dst) (fun _ =>
       bind (readSrcDir params src) (fun srcmap =>
       bind (readDstDir params dst) (fun dstmap =>
       walk params cbs (processDir params cbs (S n)) src dst srcmap dstmap true))) w).
    apply bind_Ok in Hrun. destruct Hrun as ([] & w1 & Hp & Hrun).
    rewrite (bind_step _ _ _ _ _ Hp).
    apply bind_Ok in Hrun. destruct Hrun as (srcmap & w2 & Hs & Hrun).
    rewrite (bind_step _ _ _ _ _ Hs).
    apply bind_Ok in Hrun. destruct Hrun as (dstmap & w3 & Hd & Hrun).
    rewrite (bind_step _ _ _ _ _ Hd).
    apply (walk_extends _ _ src dst IH). exact Hrun.
Qed.

End Fuel.

(** C1.  Whenever [processDir] returns, it returns [true] if and only if no
    [SrcOnly], [DstOnly], [Mismatch] or [TypeMismatch] event is among the
    events it emitted, in the directory pair itself or anywhere below it; in
    particular a run that emitted [Match], [IgnoredDir], [IgnoredFile] and
    progress events only returns [true]. *)
Theorem processDir_true_iff_no_difference
    {FS : Type} `{Provider FS} (params : Flags) (cbs : Callbacks FS)
    (fuel : nat) (src dst : path) (w w' : World FS) (b : bool) :
  processDir params cbs fuel src dst w = (Ok b, w') ->
  exists evs,
    w_events w' = w_events w ++ evs
    /\ (b = true <-> forall ev, In ev evs -> is_difference ev = false)
    /\ ((forall ev, In ev evs ->
           match ev with
           | Match _ _ | IgnoredDir _ | IgnoredFile _
           | ProgressDirs _ _ | ProgressFiles _ _ => True
           | _ => False
           end) -> b = true).
Proof.
  intros Hrun.
  pose proof (processDir_verdict params cbs fuel src dst) as Hv.
  destruct (Hv _ _ _ Hrun) as (evs & Hev & Hb).
  assert (Hiff : b = true <-> forall ev, In ev evs -> is_difference ev = false).
  { rewrite Hb. unfold no_difference. rewrite forallb_forall.
    split; intros Hall ev Hin; specialize (Hall ev Hin);
      destruct (is_difference ev); simpl in *; congruence. }
  exists evs. split; [exact Hev|]. split; [exact Hiff|].
  intros Hbenign. apply Hiff. intros ev Hin. specialize (Hbenign ev Hin).
  destruct ev; simpl; tauto.
Qed.

Lemma processDir_true_iff_no_difference_witness :
  let w0 := mkWorld (start Examples.tree1) [] in
  let run := processDir Examples.flags0 (mainCallbacks 4 Examples.cfgDiff) 4 ["src"] ["dst"] w0 in
  fst run = Ok false
  /\ exists evs,
       w_events (snd run) = [] ++ evs
       /\ (false = true <-> forall ev, In ev evs -> is_difference ev = false)
       /\ ((forall ev, In ev evs ->
              match ev with
              | Match _ _ | IgnoredDir _ | IgnoredFile _
              | ProgressDirs _ _ | ProgressFiles _ _ => True
              | _ => False
              end) -> false = true).
Proof.
  intros w0 run. split; [vm_compute; reflexivity|].
  apply (processDir_true_iff_no_difference Examples.flags0
           (mainCallbacks 4 Examples.cfgDiff) 4 ["src"] ["dst"] w0 (snd run) false).
  apply run_Ok. vm_compute. reflexivity.
Defined.

(** ** Regular files *)

Section Regular.

Context {FS : Type} `{Provider FS}.
Variable params : Flags.
Variable cbs : Callbacks FS.

Lemma call2_quiet cb (a b : path) (w : World FS) :
  quiet_cb2 cb ->
  exists w', call2 params cb a b w = (Ok tt, w')
             /\ w_events w' = w_events w
             /\ s_fs (w_sys w') = s_fs (w_sys w).
Proof.
  intros Hq. unfold call2. destruct cb as [f|].
  - destruct (Hq f a b params eq_refl (w_sys w)) as (s' & Hrun & Hfs).
    unfold liftAct. rewrite Hrun. eexists. split; [reflexivity|]. split; [reflexivity | exact Hfs].
  - exists w. split; [reflexivity|]. split; reflexivity.
Qed.

Lemma progressFiles_quiet (a b : path) (w : World FS) :
  quiet_cb2 (cb_progressFiles cbs) ->
  exists w', progressFiles params cbs a b w = (Ok tt, w')
             /\ w_events w' = w_events w ++ [ProgressFiles a b]
             /\ s_fs (w_sys w') = s_fs (w_sys w).
Proof.
  intros Hq. unfold progressFiles, bind, emit, modify.
  destruct (call2_quiet _ a b (mkWorld (w_sys w) (w_events w ++ [ProgressFiles a b])) Hq)
    as (w' & Hrun & Hev & Hfs).
  exists w'. split; [exact Hrun|]. split; [exact Hev | exact Hfs].
Qed.

End Regular.

(** C3.  For two entries under one name that are both regular files, the
    comparator reports progress and then emits exactly one event: [Match] if
    the sizes are equal and the content is ignored or equal byte by byte, and
    [Mismatch] otherwise; the pair counts as equal in the first case only.
    (The progress callback is one that only reports, as the one of [main].) *)
Theorem regular_match_iff_same_size_and_content
    {FS : Type} `{Provider FS} (params : Flags) (cbs : Callbacks FS)
    (rec : path -> path -> M FS bool) (es ed : path) (w : World FS) :
  quiet_cb2 (cb_progressFiles cbs) ->
  getFileType (s_fs (w_sys w)) es (followSymlinks params) = FT_REGULAR ->
  getFileType (s_fs (w_sys w)) ed (followSymlinks params) = FT_REGULAR ->
  let fs := s_fs (w_sys w) in
  let same :=
    N.eqb (file_size fs es) (file_size fs ed)
    && (ignoreContent params || String.eqb (readFile fs es) (readFile fs ed)) in
  exists r w',
    compareEntries params cbs rec es ed w = (r, w')
    /\ w_events w' =
         w_events w ++ [ProgressFiles es ed; if same then Match es ed else Mismatch es ed]
    /\ (same = true <->
          file_size fs es = file_size fs ed
          /\ (ignoreContent params = true \/ readFile fs es = readFile fs ed))
    /\ (forall b, r = Ok b -> b = same).
Proof.
  intros Hq Hs Hd fs same.
  assert (Hsame : same = true <->
            file_size fs es = file_size fs ed
            /\ (ignoreContent params = true \/ readFile fs es = readFile fs ed)).
  { subst same. rewrite andb_true_iff, orb_true_iff, N.eqb_eq, String.eqb_eq. tauto. }
  destruct (progressFiles_quiet params cbs es ed w Hq) as (w1 & Hp & Hev1 & Hfs1).
  unfold compareEntries, bind at 1. unfold getFS at 1. cbv beta iota.
  rewrite Hs, Hd. cbn [FileType_eqb negb when].
  unfold bind at 1. rewrite Hp.
  unfold bind at 1. unfold getFS at 1. cbv beta iota. rewrite Hfs1.
  fold fs. fold same. destruct same.
  - unfold bind at 1. destruct (match_ params cbs es ed w1) as [[[]|e] w2] eqn:Hm;
      apply match_events in Hm; eexists; eexists;
      (split; [reflexivity|]);
      (split; [simpl; rewrite Hm, Hev1, <- List.app_assoc; reflexivity|]);
      (split; [exact Hsame|]); intros b; unfold ret; congruence.
  - unfold bind at 1. destruct (mismatch params cbs es ed w1) as [[[]|e] w2] eqn:Hm;
      apply mismatch_events in Hm; eexists; eexists;
      (split; [reflexivity|]);
      (split; [simpl; rewrite Hm, Hev1, <- List.app_assoc; reflexivity|]);
      (split; [exact Hsame|]); intros b; unfold ret; congruence.
Qed.

Lemma regular_match_iff_same_size_and_content_witness :
  let w0 := mkWorld (start Examples.tree1) [] in
  let cbs := mainCallbacks 4 Examples.cfgDiff in
  let rec := processDir Examples.flags0 cbs 3 in
  let es := ["src"; "d"; "x"] in
  let ed := ["dst"; "d"; "x"] in
  let same :=
    N.eqb (file_size Examples.tree1 es) (file_size Examples.tree1 ed)
    && (ignoreContent Examples.flags0
        || String.eqb (readFile Examples.tree1 es) (readFile Examples.tree1 ed)) in
  same = false
  /\ exists r w',
       compareEntries Examples.flags0 cbs rec es ed w0 = (r, w')
       /\ w_events w' =
            [] ++ [ProgressFiles es ed; if same then Match es ed else Mismatch es ed]
       /\ (same = true <->
             file_size Examples.tree1 es = file_size Examples.tree1 ed
             /\ (ignoreContent Examples.flags0 = true
                 \/ readFile Examples.tree1 es = readFile Examples.tree1 ed))
       /\ (forall b, r = Ok b -> b = same).
Proof.
  intros w0 cbs rec es ed same. split; [vm_compute; reflexivity|].
  apply (regular_match_iff_same_size_and_content Examples.flags0 cbs rec es ed w0).
  - intros f a b p [= <-] s. exists s. split; reflexivity.
  - vm_compute. reflexivity.
  - vm_compute. reflexivity.
Defined.

(** ** A destination that does not exist *)

Section MissingDst.

Context {FS : Type} `{Provider FS}.
Variable params : Flags.
Variable cbs : Callbacks FS.

Lemma readDstDir_missing (dst : path) (w : World FS) :
  fsExists (s_fs (w_sys w)) dst = false ->
  readDstDir params dst w = (Ok [], w).
Proof.
  intros Hex. unfold readDstDir, bind at 1. unfold getFS at 1. cbv beta iota.
  rewrite Hex. reflexivity.
Qed.

Lemma srcOnly_returns (a b : path) (w : World FS) :
  returns_cb2 (cb_srcOnly cbs) ->
  exists w', srcOnly params cbs a b w = (Ok tt, w')
             /\ w_events w' = w_events w ++ [SrcOnly a b].
Proof.
  intros Hq. unfold srcOnly, bind, emit, modify, call2.
  destruct (cb_srcOnly cbs) as [f|] eqn:Hcb.
  - destruct (Hq f a b params (w_sys w) eq_refl) as (s' & Hrun).
    unfold liftAct. cbn [w_sys w_events]. rewrite Hrun.
    eexists. split; reflexivity.
  - eexists. split; reflexivity.
Qed.

Lemma progressDirs_quiet (a b : path) (w : World FS) :
  quiet_cb2 (cb_progressDirs cbs) ->
  exists w', progressDirs params cbs a b w = (Ok tt, w')
             /\ w_events w' = w_events w ++ [ProgressDirs a b]
             /\ s_fs (w_sys w') = s_fs (w_sys w).
Proof.
  intros Hq. unfold progressDirs, bind, emit, modify.
  destruct (call2_quiet params _ a b (mkWorld (w_sys w) (w_events w ++ [ProgressDirs a b])) Hq)
    as (w' & Hrun & Hev & Hfs).
  exists w'. split; [exact Hrun|]. split; [exact Hev | exact Hfs].
Qed.

(** Against an empty destination map the walk reports every slot of the
    source map as source-only, in the order of the map. *)
Lemma walk_empty_dst (rec : path -> path -> M FS bool) (src dst : path) :
  returns_cb2 (cb_srcOnly cbs) ->
  forall srcmap nd w,
    exists w',
      walk params cbs rec src dst srcmap [] nd w
      = (Ok (nd && match srcmap with [] => true | _ => false end), w')
      /\ w_events w' = w_events w ++ List.map (fun e => SrcOnly e dst) (smap_values srcmap).
Proof.
  intros Hq. induction srcmap as [|[ks es] srcmap IH]; intros nd w; simpl.
  - exists w. rewrite andb_true_r, List.app_nil_r. split; reflexivity.
  - destruct (srcOnly_returns es dst w Hq) as (w1 & Hs & Hev1).
    destruct (IH false w1) as (w2 & Hw & Hev2).
    exists w2. split.
    + rewrite (bind_step _ _ _ _ _ Hs), Hw. rewrite andb_false_r. reflexivity.
    + rewrite Hev2, Hev1, <- List.app_assoc. reflexivity.
Qed.

End MissingDst.

(** C8.  A destination directory that does not exist is read as an empty
    map and no exception comes of it; the comparison then returns, having
    emitted one [SrcOnly] event for every slot of the source map, in key
    order, and nothing else after the progress event; it found no difference
    exactly if the source map is empty as well.  Every entry of the source
    listing that is not filtered and whose key no later entry takes has its
    slot, and so its event.  (The progress callback is one that only reports
    and the callback for source-only entries one that does not throw.) *)
Theorem missing_destination_is_empty
    {FS : Type} `{Provider FS} (params : Flags) (cbs : Callbacks FS)
    (fuel : nat) (src dst : path) (entries : list path) (w : World FS) :
  quiet_cb2 (cb_progressDirs cbs) ->
  returns_cb2 (cb_srcOnly cbs) ->
  fsExists (s_fs (w_sys w)) dst = false ->
  directory_iterator (s_fs (w_sys w)) src = Ok entries ->
  readDstDir params dst w = (Ok [], w)
  /\ exists w',
       processDir params cbs (S fuel) src dst w
       = (Ok match fillSrcMap params entries with [] => true | _ => false end, w')
       /\ w_events w' =
            w_events w ++ ProgressDirs src dst
              :: List.map (fun e => SrcOnly e dst) (smap_values (fillSrcMap params entries))
       /\ (forall before e after,
             entries = before ++ e :: after ->
             ignoreSrcFile (filename e) params = false ->
             (forall e', In e' after ->
                ignoreSrcFile (filename e') params = true
                \/ keyOf params e' <> keyOf params e) ->
             In (SrcOnly e dst)
                (List.map (fun e => SrcOnly e dst)
                          (smap_values (fillSrcMap params entries)))).
Proof.
  intros Hqp Hqs Hex Hit. split; [apply readDstDir_missing; exact Hex|].
  destruct (progressDirs_quiet params cbs src dst w Hqp) as (w1 & Hp & Hev1 & Hfs1).
  destruct (walk_empty_dst params cbs (processDir params cbs fuel) src dst Hqs
              (fillSrcMap params entries) true w1) as (w2 & Hw & Hev2).
  exists w2. split; [|split].
  - simpl. rewrite (bind_step _ _ _ _ _ Hp).
    assert (Hs : readSrcDir params src w1 = (Ok (fillSrcMap params entries), w1)).
    { unfold readSrcDir, bind at 1. unfold getFS at 1. cbv beta iota.
      rewrite Hfs1, Hit. reflexivity. }
    rewrite (bind_step _ _ _ _ _ Hs).
    rewrite (bind_step _ _ _ _ _ (readDstDir_missing params dst w1 ltac:(rewrite Hfs1; exact Hex))).
    exact Hw.
  - rewrite Hev2, Hev1, <- List.app_assoc. reflexivity.
  - intros before e after -> Hign Hafter.
    apply (in_map (fun e0 => SrcOnly e0 dst)).
    pose proof (fillMap_later_wins params ignoreSrcFile before after e Hign Hafter) as Hfind.
    apply smap_find_In in Hfind. apply (in_map snd) in Hfind. exact Hfind.
Qed.

Lemma missing_destination_is_empty_witness :
  let w0 := mkWorld (start Examples.tree2) [] in
  let cbs := mainCallbacks 4 Examples.cfgDiff in
  exists w',
    processDir Examples.flags0 cbs 4 ["src"] ["dst"] w0 = (Ok false, w')
    /\ w_events w' = [ProgressDirs ["src"] ["dst"];
                      SrcOnly ["src"; "a.txt"] ["dst"];
                      SrcOnly ["src"; "b"] ["dst"]].
Proof.
  intros w0 cbs.
  destruct (missing_destination_is_empty Examples.flags0 cbs 3 ["src"] ["dst"]
              (children Examples.tree2 ["src"]) w0)
    as (_ & w' & Hrun & Hev & _).
  - intros f a b p [= <-] s. exists s. split; reflexivity.
  - intros f a b p s [= <-]. unfold on_srcOnly. simpl.
    destruct (ignoreSrcFile (filename a) p); eexists; reflexivity.
  - vm_compute. reflexivity.
  - vm_compute. reflexivity.
  - exists w'. split; [exact Hrun | exact Hev].
Defined.

(** ** The merge join *)

Lemma smap_sorted_cons (k : string) (v : path) (m : smap) :
  smap_sorted ((k, v) :: m) ->
  smap_sorted m /\ forall k', In k' (smap_keys m) -> str_lt k k' = true.
Proof.
  unfold smap_sorted. simpl. intros Hs. inversion Hs as [|? ? Hs' Hall]; subst.
  split; [exact Hs'|]. rewrite List.Forall_forall in Hall. exact Hall.
Qed.

Lemma smap_find_head (k : string) (v : path) (m : smap) :
  smap_find k ((k, v) :: m) = Some v.
Proof. simpl. rewrite String.eqb_refl. reflexivity. Qed.

Lemma smap_find_tail (k k0 : string) (v0 : path) (m : smap) :
  k <> k0 -> smap_find k ((k0, v0) :: m) = smap_find k m.
Proof. intros Hne. simpl. destruct (String.eqb_spec k k0); [congruence | reflexivity]. Qed.

Lemma smap_find_below (k : string) (m : smap) :
  (forall k', In k' (smap_keys m) -> str_lt k k' = true) -> smap_find k m = None.
Proof.
  intros Hlt. apply smap_find_None. intros Hin. apply Hlt in Hin.
  rewrite str_lt_irrefl in Hin. discriminate.
Qed.

Section MergeJoin.

Context {FS : Type} `{Provider FS}.
Variable params : Flags.
Variable cbs : Callbacks FS.
Variable rec : path -> path -> M FS bool.
Variables src dst : path.
Hypothesis Hrec : forall s d, verdict_ok (rec s d).

(** A block in front of the blocks of the rest of the maps. *)
Lemma blocks_ok_cons (srcmap dstmap srcmap' dstmap' : smap) (w w1 w' : World FS)
    (k : string) (evs : list Event) (blocks : list (string * list Event)) :
  w_events w1 = w_events w ++ evs ->
  blocks_ok params cbs rec src dst srcmap' dstmap' w1 w' blocks ->
  (forall k', In k' (smap_keys srcmap) \/ In k' (smap_keys dstmap) <->
              k' = k \/ In k' (smap_keys srcmap') \/ In k' (smap_keys dstmap')) ->
  (forall k', In k' (smap_keys srcmap') \/ In k' (smap_keys dstmap') ->
              str_lt k k' = true
              /\ smap_find k' srcmap = smap_find k' srcmap'
              /\ smap_find k' dstmap = smap_find k' dstmap') ->
  block_ok params cbs rec src dst srcmap dstmap (k, evs) ->
  blocks_ok params cbs rec src dst srcmap dstmap w w' ((k, evs) :: blocks).
Proof.
  intros Hev (Hevs & Hsorted & Hkeys & Hall) Hunion Hrest Hhead.
  split; [|split; [|split]].
  - simpl. rewrite Hevs, Hev, <- List.app_assoc. reflexivity.
  - simpl. constructor; [exact Hsorted|].
    apply List.Forall_forall. intros k' Hin. apply Hkeys in Hin. apply Hrest. exact Hin.
  - intros k'. simpl. rewrite Hunion, Hkeys. intuition.
  - constructor; [exact Hhead|].
    rewrite List.Forall_forall in Hall. apply List.Forall_forall. intros [k' evs'] Hin.
    specialize (Hall _ Hin). unfold block_ok in *. simpl in *.
    assert (Hk' : In k' (List.map fst blocks)) by (apply (in_map fst) in Hin; exact Hin).
    apply Hkeys in Hk'. destruct (Hrest _ Hk') as (_ & -> & ->). exact Hall.
Qed.

Lemma walk_blocks :
  forall srcmap dstmap nd w b w',
    smap_sorted srcmap -> smap_sorted dstmap ->
    walk params cbs rec src dst srcmap dstmap nd w = (Ok b, w') ->
    exists blocks, blocks_ok params cbs rec src dst srcmap dstmap w w' blocks.
Proof.
  induction srcmap as [|[ks es] srcmap IHs]; induction dstmap as [|[kd ed] dstmap IHd];
    intros nd w b w' Hss Hsd Hrun; simpl in Hrun.
  - unfold ret in Hrun. injection Hrun as <- <-. exists [].
    split; [simpl; rewrite List.app_nil_r; reflexivity|].
    split; [constructor|]. split; [simpl; tauto | constructor].
  - (* only the destination is left *)
    apply bind_Ok in Hrun. destruct Hrun as ([] & w1 & Hd & Hrun).
    apply dstOnly_events in Hd.
    destruct (smap_sorted_cons _ _ _ Hsd) as (Hsd' & Hlt).
    destruct (IHd _ _ _ _ Hss Hsd' Hrun) as (blocks & Hb).
    exists ((kd, [DstOnly src ed]) :: blocks).
    eapply blocks_ok_cons; [exact Hd | exact Hb | | |].
    + intros k'. simpl. intuition.
    + intros k' [[]|Hin]. split; [apply Hlt; exact Hin|]. split; [reflexivity|].
      apply smap_find_tail. apply not_eq_sym, str_lt_neq, Hlt. exact Hin.
    + unfold block_ok. simpl. rewrite String.eqb_refl. reflexivity.
  - (* only the source is left *)
    apply bind_Ok in Hrun. destruct Hrun as ([] & w1 & Hs & Hrun).
    apply srcOnly_events in Hs.
    destruct (smap_sorted_cons _ _ _ Hss) as (Hss' & Hlt).
    destruct (IHs [] _ _ _ _ Hss' Hsd Hrun) as (blocks & Hb).
    exists ((ks, [SrcOnly es dst]) :: blocks).
    eapply blocks_ok_cons; [exact Hs | exact Hb | | |].
    + intros k'. simpl. intuition.
    + intros k' [Hin|[]]. split; [apply Hlt; exact Hin|]. split; [|reflexivity].
      apply smap_find_tail. apply not_eq_sym, str_lt_neq, Hlt. exact Hin.
    + unfold block_ok. simpl. rewrite String.eqb_refl. reflexivity.
  - destruct (smap_sorted_cons _ _ _ Hss) as (Hss' & Hlts).
    destruct (smap_sorted_cons _ _ _ Hsd) as (Hsd' & Hltd).
    destruct (str_lt ks kd) eqn:Hsk.
    + (* the source key comes first *)
      apply bind_Ok in Hrun. destruct Hrun as ([] & w1 & Hs & Hrun).
      apply srcOnly_events in Hs.
      destruct (IHs _ _ _ _ _ Hss' Hsd Hrun) as (blocks & Hb).
      assert (Hall : forall k', In k' (smap_keys srcmap) \/ In k' (smap_keys ((kd, ed) :: dstmap)) ->
                                str_lt ks k' = true).
      { intros k' [Hin|[<-|Hin]]; [apply Hlts; exact Hin | exact Hsk |].
        eapply str_lt_trans; [exact Hsk | apply Hltd; exact Hin]. }
      exists ((ks, [SrcOnly es dst]) :: blocks).
      eapply blocks_ok_cons; [exact Hs | exact Hb | | |].
      * intros k'. simpl. intuition.
      * intros k' Hin. split; [apply Hall; exact Hin|]. split; [|reflexivity].
        apply smap_find_tail. apply not_eq_sym, str_lt_neq, Hall. exact Hin.
      * unfold block_ok. cbn [fst snd]. rewrite smap_find_head.
        rewrite smap_find_below; [reflexivity|].
        intros k' Hin. apply Hall. right. exact Hin.
    + destruct (str_lt kd ks) eqn:Hdk.
      * (* the destination key comes first *)
        apply bind_Ok in Hrun. destruct Hrun as ([] & w1 & Hd & Hrun).
        apply dstOnly_events in Hd.
        destruct (IHd _ _ _ _ Hss Hsd' Hrun) as (blocks & Hb).
        assert (Hall : forall k', In k' (smap_keys ((ks, es) :: srcmap)) \/ In k' (smap_keys dstmap) ->
                                  str_lt kd k' = true).
        { intros k' [[<-|Hin]|Hin]; [exact Hdk | | apply Hltd; exact Hin].
          eapply str_lt_trans; [exact Hdk | apply Hlts; exact Hin]. }
        exists ((kd, [DstOnly src ed]) :: blocks).
        eapply blocks_ok_cons; [exact Hd | exact Hb | | |].
        -- intros k'. simpl. intuition.
        -- intros k' Hin. split; [apply Hall; exact Hin|]. split; [reflexivity|].
           apply smap_find_tail. apply not_eq_sym, str_lt_neq, Hall. exact Hin.
        -- unfold block_ok. cbn [fst snd]. rewrite smap_find_head.
           rewrite smap_find_below; [reflexivity|].
           intros k' Hin. apply Hall. left. exact Hin.
      * (* the same key on both sides *)
        pose proof (str_lt_total _ _ Hsk Hdk) as <-.
        apply bind_Ok in Hrun. destruct Hrun as (same & w1 & Hc & Hrun).
        destruct (compareEntries_verdict params cbs rec es ed Hrec _ _ _ Hc) as (evs & Hev & _).
        destruct (IHs _ _ _ _ _ Hss' Hsd' Hrun) as (blocks & Hb).
        exists ((ks, evs) :: blocks).
        eapply blocks_ok_cons; [exact Hev | exact Hb | | |].
        -- intros k'. simpl. intuition.
        -- intros k' Hin.
           assert (Hlt : str_lt ks k' = true)
             by (destruct Hin as [Hin|Hin]; [apply Hlts | apply Hltd]; exact Hin).
           split; [exact Hlt|].
           split; apply smap_find_tail; apply not_eq_sym, str_lt_neq; exact Hlt.
        -- unfold block_ok. cbn [fst snd]. rewrite !smap_find_head.
           exists w, (Ok same), w1. split; [exact Hc | exact Hev].
Qed.

End MergeJoin.

Lemma ascending_NoDup (l : list string) :
  StronglySorted (fun a b => str_lt a b = true) l -> List.NoDup l.
Proof.
  induction 1 as [|a l Hs IH Hall]; constructor; [|exact IH].
  intros Hin. rewrite List.Forall_forall in Hall. apply Hall in Hin.
  rewrite str_lt_irrefl in Hin. discriminate.
Qed.

(** C2.  Take the two maps filled from the listings of the two sides and a
    walk over them that returns.  The events it emitted split into blocks,
    one block for every key of either map and no other, in ascending order of
    the keys.  The block of a key that only the source map has is the single
    event [SrcOnly] of that slot, the block of a key that only the
    destination map has is the single event [DstOnly] of that slot, and the
    block of a key of both is what the comparison of the two slots emitted. *)
Theorem walk_reports_each_key_once_in_order
    {FS : Type} `{Provider FS} (params : Flags) (cbs : Callbacks FS) (fuel : nat)
    (src dst : path) (srcEntries dstEntries : list path)
    (nd : bool) (w w' : World FS) (b : bool) :
  let rec := processDir params cbs fuel in
  let srcmap := fillSrcMap params srcEntries in
  let dstmap := fillDstMap params dstEntries in
  walk params cbs rec src dst srcmap dstmap nd w = (Ok b, w') ->
  exists blocks : list (string * list Event),
    w_events w' = w_events w ++ List.concat (List.map snd blocks)
    /\ StronglySorted (fun a b => str_lt a b = true) (List.map fst blocks)
    /\ List.NoDup (List.map fst blocks)
    /\ (forall k, In k (List.map fst blocks) <->
                  In k (smap_keys srcmap) \/ In k (smap_keys dstmap))
    /\ Forall (block_ok params cbs rec src dst srcmap dstmap) blocks
    /\ (forall k es, smap_find k srcmap = Some es -> smap_find k dstmap = None ->
                     In (k, [SrcOnly es dst]) blocks)
    /\ (forall k ed, smap_find k srcmap = None -> smap_find k dstmap = Some ed ->
                     In (k, [DstOnly src ed]) blocks).
Proof.
  intros rec srcmap dstmap Hrun.
  destruct (walk_blocks params cbs rec src dst (processDir_verdict params cbs fuel)
              srcmap dstmap nd w b w'
              (fillMap_sorted params ignoreSrcFile srcEntries)
              (fillMap_sorted params ignoreDstFile dstEntries) Hrun)
    as (blocks & Hev & Hsorted & Hkeys & Hall).
  assert (Hblock : forall k, In k (smap_keys srcmap) \/ In k (smap_keys dstmap) ->
             exists evs, In (k, evs) blocks
                         /\ block_ok params cbs rec src dst srcmap dstmap (k, evs)).
  { intros k Hin. apply Hkeys in Hin. apply in_map_iff in Hin.
    destruct Hin as ([k' evs] & Hk & Hin). simpl in Hk. subst k'.
    exists evs. split; [exact Hin|].
    rewrite List.Forall_forall in Hall. apply Hall. exact Hin. }
  exists blocks.
  split; [exact Hev|]. split; [exact Hsorted|].
  split; [apply ascending_NoDup; exact Hsorted|].
  split; [exact Hkeys|]. split; [exact Hall|]. split.
  - intros k es Hs Hd.
    destruct (Hblock k) as (evs & Hin & Hok).
    { left. apply smap_find_In in Hs. apply (in_map fst) in Hs. exact Hs. }
    unfold block_ok in Hok. cbn [fst snd] in Hok. rewrite Hs, Hd in Hok. subst evs. exact Hin.
  - intros k ed Hs Hd.
    destruct (Hblock k) as (evs & Hin & Hok).
    { right. apply smap_find_In in Hd. apply (in_map fst) in Hd. exact Hd. }
    unfold block_ok in Hok. cbn [fst snd] in Hok. rewrite Hs, Hd in Hok. subst evs. exact Hin.
Qed.

Lemma walk_reports_each_key_once_in_order_witness :
  let w0 := mkWorld (start Examples.tree1) [] in
  let cbs := mainCallbacks 4 Examples.cfgDiff in
  let rec := processDir Examples.flags0 cbs 3 in
  let srcmap := fillSrcMap (FS := fs) Examples.flags0 (children Examples.tree1 ["src"]) in
  let dstmap := fillDstMap (FS := fs) Examples.flags0 (children Examples.tree1 ["dst"]) in
  let run := walk Examples.flags0 cbs rec ["src"] ["dst"] srcmap dstmap true w0 in
  fst run = Ok false
  /\ exists blocks : list (string * list Event),
       w_events (snd run) = [] ++ List.concat (List.map snd blocks)
       /\ StronglySorted (fun a b => str_lt a b = true) (List.map fst blocks)
       /\ (forall k, In k (List.map fst blocks) <-> In k ["a.txt"; "d"; "old.txt"])
       /\ In ("a.txt", [SrcOnly ["src"; "a.txt"] ["dst"]]) blocks
       /\ In ("old.txt", [DstOnly ["src"] ["dst"; "old.txt"]]) blocks.
Proof.
  intros w0 cbs rec srcmap dstmap run. split; [vm_compute; reflexivity|].
  destruct (walk_reports_each_key_once_in_order Examples.flags0 cbs 3 ["src"] ["dst"]
              (children Examples.tree1 ["src"]) (children Examples.tree1 ["dst"])
              true w0 (snd run) false)
    as (blocks & Hev & Hsorted & Hnodup & Hkeys & Hall & Hsrc & Hdst).
  - apply run_Ok. vm_compute. reflexivity.
  - exists blocks. split; [exact Hev|]. split; [exact Hsorted|]. split; [|split].
    + intros k. rewrite Hkeys. vm_compute. tauto.
    + apply Hsrc; vm_compute; reflexivity.
    + apply Hdst; vm_compute; reflexivity.
Defined.

(** ** The journal of mutating calls *)

Section Journal.

Context {FS : Type} `{Provider FS}.
Context {S : Type} (proj : S -> Sys FS).

Lemma journals_weaken {A} (P Q : FsOp -> Prop) (m : ST S A) :
  (forall op, P op -> Q op) -> journals proj P m -> journals proj Q m.
Proof.
  intros HPQ Hm s r s' Hrun. destruct (Hm _ _ _ Hrun) as (ops & Hops & Hall & Hfs).
  exists ops. split; [exact Hops|]. split; [|exact Hfs].
  eapply List.Forall_impl; [|exact Hall]. exact HPQ.
Qed.

(** A step that leaves the dispatcher's state alone. *)
Lemma journals_same {A} (P : FsOp -> Prop) (m : ST S A) :
  (forall s r s', m s = (r, s') -> proj s' = proj s) -> journals proj P m.
Proof.
  intros Hsame s r s' Hrun. apply Hsame in Hrun. exists [].
  rewrite Hrun, List.app_nil_r. split; [reflexivity|]. split; [constructor | reflexivity].
Qed.

Lemma journals_ret {A} (P : FsOp -> Prop) (a : A) : journals proj P (ret a).
Proof. apply journals_same. unfold ret. intros s r s' [= _ <-]. reflexivity. Qed.

Lemma journals_throw {A} (P : FsOp -> Prop) (e : Error) : journals proj P (@throw S A e).
Proof. apply journals_same. unfold throw. intros s r s' [= _ <-]. reflexivity. Qed.

Lemma journals_liftR {A} (P : FsOp -> Prop) (x : Result A) : journals proj P (liftR x).
Proof. apply journals_same. unfold liftR. intros s r s' [= _ <-]. reflexivity. Qed.

Lemma journals_bind {A B} (P : FsOp -> Prop) (m : ST S A) (k : A -> ST S B) :
  journals proj P m -> (forall a, journals proj P (k a)) -> journals proj P (bind m k).
Proof.
  intros Hm Hk s r s' Hrun. unfold bind in Hrun.
  destruct (m s) as [[a|e] s1] eqn:Hms.
  - destruct (Hm _ _ _ Hms) as (ops1 & Hops1 & Hall1 & Hfs1).
    destruct (Hk a _ _ _ Hrun) as (ops2 & Hops2 & Hall2 & Hfs2).
    exists (ops1 ++ ops2). split; [|split].
    + rewrite Hops2, Hops1, <- List.app_assoc. reflexivity.
    + apply List.Forall_app. split; assumption.
    + intros Hnil. apply List.app_eq_nil in Hnil as [-> ->].
      rewrite Hfs2, Hfs1; reflexivity.
  - injection Hrun as <- <-. apply (Hm _ _ _ Hms).
Qed.

Lemma journals_when (P : FsOp -> Prop) (c : bool) (m : ST S unit) :
  (c = true -> journals proj P m) -> journals proj P (when c m).
Proof.
  intros Hm. unfold when. destruct c; [apply Hm; reflexivity | apply journals_ret].
Qed.

Lemma journals_forEach {A} (P : FsOp -> Prop) (l : list A) (f : A -> ST S unit) :
  (forall x, journals proj P (f x)) -> journals proj P (forEach l f).
Proof.
  intros Hf. induction l as [|x l IH]; simpl.
  - apply journals_ret.
  - apply journals_bind; [apply Hf | intros _; exact IH].
Qed.

End Journal.

Section JournalAct.

Context {FS : Type} `{Provider FS}.

Lemma journals_actFS (P : FsOp -> Prop) : journals own P (@actFS FS).
Proof. apply journals_same. unfold actFS. intros s r s' [= _ <-]. reflexivity. Qed.

Lemma journals_print (P : FsOp -> Prop) (line : string) : journals own P (@print FS line).
Proof.
  intros s r s'. unfold print, modify. intros [= _ <-]. exists [].
  unfold own. simpl. rewrite List.app_nil_r. split; [reflexivity|].
  split; [constructor | reflexivity].
Qed.

Lemma journals_perform (P : FsOp -> Prop) (op : FsOp) :
  P op -> journals own P (perform op).
Proof.
  intros HP s r s'. unfold perform.
  destruct (match op with
            | OpCreateDirectories dir => create_directories (s_fs s) dir
            | OpRemove p => fs_remove (s_fs s) p
            | OpCopy src dst opts => fs_copy (s_fs s) src dst opts
            | OpSetLastWriteTime p t follow => setLastWriteTime (s_fs s) p t follow
            end) as [fs'|e];
    intros [= _ <-]; exists [op]; unfold own; simpl;
    (split; [reflexivity|]); (split; [constructor; [exact HP | constructor] | discriminate]).
Qed.

End JournalAct.

(** One step through a computation, for goals [journals proj P m]. *)
Ltac jstep :=
  lazymatch goal with
  | |- journals _ _ (ret _) => apply journals_ret
  | |- journals _ _ (throw _) => apply journals_throw
  | |- journals _ _ (liftR _) => apply journals_liftR
  | |- journals _ _ actFS => apply journals_actFS
  | |- journals _ _ (print _) => apply journals_print
  | |- journals _ _ (bind _ _) => apply journals_bind; [|intros ?]
  | |- journals _ _ (when _ _) => apply journals_when; intros ?
  | |- journals _ _ (forEach _ _) => apply journals_forEach; intros ?
  | |- journals _ _ (if ?c then _ else _) => destruct c eqn:?
  | |- journals _ _ (let _ := _ in _) => cbv zeta
  end.

Section JournalDispatcher.

Context {FS : Type} `{Provider FS}.

Lemma mkDirs_journal (dir : path) (verbose : bool) (verbosePrefix : string)
    (dummyMode : bool) :
  journals own (fun op => dummyMode = false /\ op = OpCreateDirectories dir)
    (mkDirs dir verbose verbosePrefix dummyMode).
Proof.
  unfold mkDirs. repeat jstep.
  apply journals_perform. split; [|reflexivity].
  destruct dummyMode; [discriminate | reflexivity].
Qed.

Lemma removeRecursive_journal (fuel : nat) (dst : path) (verbose : bool)
    (verbosePrefix : string) (followSymlinks_ : bool) (dummyMode : bool) :
  journals own (fun op => dummyMode = false /\ exists p, op = OpRemove p)
    (removeRecursive fuel dst verbose verbosePrefix followSymlinks_ dummyMode).
Proof.
  revert dst. induction fuel as [|fuel IH]; intros dst; simpl.
  - apply journals_throw.
  - repeat jstep; [apply IH|].
    apply journals_perform. split; [|eexists; reflexivity].
    destruct dummyMode; [discriminate | reflexivity].
Qed.

Lemma copyInto_journal (rec : path -> path -> Act FS unit) (src dst : path)
    (opts : copy_options) (verbose : bool) (verbosePrefix : string) (params : Flags)
    (dummyMode : bool) :
  ignoreSrcFile (filename src) params = false ->
  filename dst = filename src ->
  (forall a b, journals own (fun op => dummyMode = false /\ respects_filter params op)
                 (rec a b)) ->
  journals own (fun op => dummyMode = false /\ respects_filter params op)
    (copyInto rec src dst opts verbose verbosePrefix params dummyMode).
Proof.
  intros Hign Hname Hrec. unfold copyInto. repeat jstep.
  - eapply journals_weaken; [|apply mkDirs_journal].
    intros op [Hd ->]. split; [exact Hd|]. simpl. rewrite Hname. exact Hign.
  - apply Hrec.
  - apply journals_perform. split; [destruct dummyMode; [discriminate | reflexivity]|].
    simpl. rewrite Hname. split; exact Hign.
Qed.

(** [copyRecursive] where the recursion bound is not reached. *)
Lemma copyRecursive_S (fuel : nat) (src dstdir : path) (opts : copy_options)
    (verbose : bool) (verbosePrefix : string) (params : Flags) (dummyMode : bool) :
  copyRecursive (S fuel) src dstdir opts verbose verbosePrefix params dummyMode =
  if ignoreSrcFile (filename src) params then ret tt
  else
    let dst := path_append dstdir (filename src) in
    bind actFS (fun fs =>
    bind (when (mustDeleteFirst fs src dst opts params)
            (removeRecursive (S fuel) dst verbose (verbosePrefix +:+ ": Deleting")
               (followSymlinks params) dummyMode)) (fun _ =>
    copyInto
      (fun src_ dst_ =>
         copyRecursive fuel src_ dst_ opts verbose verbosePrefix params dummyMode)
      src dst opts verbose verbosePrefix params dummyMode)).
Proof. reflexivity. Qed.

(** A filtered source: [copyRecursive] returns at its first statement. *)
Lemma copyRecursive_filtered (n : nat) (src dstdir : path) (opts : copy_options)
    (verbose : bool) (verbosePrefix : string) (params : Flags) (dummyMode : bool)
    (s : Sys FS) :
  ignoreSrcFile (filename src) params = true ->
  copyRecursive (S n) src dstdir opts verbose verbosePrefix params dummyMode s = (Ok tt, s).
Proof. intros Hign. rewrite copyRecursive_S, Hign. reflexivity. Qed.

Lemma copyRecursive_journal (fuel : nat) (src dstdir : path) (opts : copy_options)
    (verbose : bool) (verbosePrefix : string) (params : Flags) (dummyMode : bool) :
  journals own (fun op => dummyMode = false /\ respects_filter params op)
    (copyRecursive fuel src dstdir opts verbose verbosePrefix params dummyMode).
Proof.
  revert src dstdir. induction fuel as [|fuel IH]; intros src dstdir.
  - apply journals_throw.
  - rewrite copyRecursive_S.
    destruct (ignoreSrcFile (filename src) params) eqn:Hign; [apply journals_ret|].
    repeat jstep.
    + eapply journals_weaken; [|apply removeRecursive_journal].
      intros op [Hd [p ->]]. split; [exact Hd | exact I].
    + apply copyInto_journal; [exact Hign | apply filename_append | intros; apply IH].
Qed.

Lemma printDirectoryEntry_journal (fuel : nat) (entry : path) (prefix suffix : string)
    (params : Flags) (recursive src : bool) :
  journals own (fun _ => False)
    (printDirectoryEntry fuel entry prefix suffix params recursive src).
Proof.
  revert entry. induction fuel as [|fuel IH]; intros entry; simpl.
  - apply journals_throw.
  - repeat jstep. apply IH.
Qed.

Variable fuel : nat.
Variable cfg : Config.

Local Abbreviation P := (allowed cfg).

Lemma copyRecursive_dummy src dstdir opts verbose verbosePrefix params :
  journals own P (copyRecursive fuel src dstdir opts verbose verbosePrefix params (dummyMode cfg)).
Proof.
  eapply journals_weaken; [|apply copyRecursive_journal]. intros op [Hd _]. exact Hd.
Qed.

Lemma removeRecursive_dummy dst verbose verbosePrefix follow :
  journals own P (removeRecursive fuel dst verbose verbosePrefix follow (dummyMode cfg)).
Proof.
  eapply journals_weaken; [|apply removeRecursive_journal]. intros op [Hd _]. exact Hd.
Qed.

Lemma mkDirs_dummy dir verbose verbosePrefix :
  journals own P (mkDirs dir verbose verbosePrefix (dummyMode cfg)).
Proof.
  eapply journals_weaken; [|apply mkDirs_journal]. intros op [Hd _]. exact Hd.
Qed.

Lemma printDirectoryEntry_dummy entry prefix suffix params recursive src :
  journals own P (printDirectoryEntry fuel entry prefix suffix params recursive src).
Proof.
  eapply journals_weaken; [|apply printDirectoryEntry_journal]. intros op [].
Qed.

Ltac jmain :=
  repeat first
    [ apply copyRecursive_dummy
    | apply removeRecursive_dummy
    | apply mkDirs_dummy
    | apply printDirectoryEntry_dummy
    | jstep ].

Lemma on_srcOnly_journal a b p : journals own P (on_srcOnly fuel cfg a b p).
Proof. unfold on_srcOnly. jmain. Qed.

Lemma on_dstOnly_journal a b p : journals own P (on_dstOnly fuel cfg a b p).
Proof. unfold on_dstOnly. jmain. Qed.

Lemma on_match_journal a b p : journals (FS := FS) own P (on_match cfg a b p).
Proof.
  unfold on_match. jmain. apply journals_perform.
  unfold P. destruct (dummyMode cfg); [discriminate | reflexivity].
Qed.

Lemma on_mismatch_journal a b p : journals own P (on_mismatch fuel cfg a b p).
Proof. unfold on_mismatch. jmain. Qed.

Lemma on_typeMismatch_journal a b p : journals own P (on_typeMismatch fuel cfg a b p).
Proof. unfold on_typeMismatch. jmain. Qed.

Lemma on_progressDirs_journal a b p : journals (FS := FS) own P (on_progressDirs cfg a b p).
Proof. unfold on_progressDirs. jmain. Qed.

Lemma on_progressFiles_journal a b p : journals (FS := FS) own P (on_progressFiles cfg a b p).
Proof. unfold on_progressFiles. jmain. Qed.

Lemma on_ignoredDir_journal a p : journals (FS := FS) own P (on_ignoredDir cfg a p).
Proof. unfold on_ignoredDir. jmain. Qed.

Lemma on_ignoredFile_journal a p : journals (FS := FS) own P (on_ignoredFile cfg a p).
Proof. unfold on_ignoredFile. jmain. Qed.

End JournalDispatcher.

Section JournalComparator.

Context {FS : Type} `{Provider FS}.
Variable fuel : nat.
Variable cfg : Config.

Local Abbreviation P := (allowed cfg).
Local Abbreviation cbs := (mainCallbacks fuel cfg).
Local Abbreviation params := (flags cfg).

Lemma journals_emit (ev : Event) : journals (FS := FS) w_sys P (emit ev).
Proof. apply journals_same. unfold emit, modify. intros s r s' [= _ <-]. reflexivity. Qed.

Lemma journals_getFS : journals (FS := FS) w_sys P getFS.
Proof. apply journals_same. unfold getFS. intros s r s' [= _ <-]. reflexivity. Qed.

Lemma journals_liftAct {A} (a : Act FS A) :
  journals own P a -> journals w_sys P (liftAct a).
Proof.
  intros Ha w r w'. unfold liftAct. destruct (a (w_sys w)) as [r0 s'] eqn:Hrun.
  intros [= _ <-]. simpl. exact (Ha _ _ _ Hrun).
Qed.

Ltac jnotify :=
  apply journals_bind; [apply journals_emit | intros _; apply journals_liftAct].

Lemma srcOnly_journal a b : journals w_sys P (srcOnly params cbs a b).
Proof. unfold srcOnly. jnotify; apply on_srcOnly_journal. Qed.
Lemma dstOnly_journal a b : journals w_sys P (dstOnly params cbs a b).
Proof. unfold dstOnly. jnotify; apply on_dstOnly_journal. Qed.
Lemma match_journal a b : journals w_sys P (match_ params cbs a b).
Proof. unfold match_. jnotify; apply on_match_journal. Qed.
Lemma mismatch_journal a b : journals w_sys P (mismatch params cbs a b).
Proof. unfold mismatch. jnotify; apply on_mismatch_journal. Qed.
Lemma typeMismatch_journal a b : journals w_sys P (typeMismatch params cbs a b).
Proof. unfold typeMismatch. jnotify; apply on_typeMismatch_journal. Qed.
Lemma progressDirs_journal a b : journals w_sys P (progressDirs params cbs a b).
Proof. unfold progressDirs. jnotify; apply on_progressDirs_journal. Qed.
Lemma progressFiles_journal a b : journals w_sys P (progressFiles params cbs a b).
Proof. unfold progressFiles. jnotify; apply on_progressFiles_journal. Qed.
Lemma ignoredDir_journal a : journals w_sys P (ignoredDir params cbs a).
Proof. unfold ignoredDir. jnotify; apply on_ignoredDir_journal. Qed.
Lemma ignoredFile_journal a : journals w_sys P (ignoredFile params cbs a).
Proof. unfold ignoredFile. jnotify; apply on_ignoredFile_journal. Qed.

Ltac jcomp :=
  repeat lazymatch goal with
    | |- journals _ _ getFS => apply journals_getFS
    | |- journals _ _ (srcOnly _ _ _ _) => apply srcOnly_journal
    | |- journals _ _ (dstOnly _ _ _ _) => apply dstOnly_journal
    | |- journals _ _ (match_ _ _ _ _) => apply match_journal
    | |- journals _ _ (mismatch _ _ _ _) => apply mismatch_journal
    | |- journals _ _ (typeMismatch _ _ _ _) => apply typeMismatch_journal
    | |- journals _ _ (progressDirs _ _ _ _) => apply progressDirs_journal
    | |- journals _ _ (progressFiles _ _ _ _) => apply progressFiles_journal
    | |- journals _ _ (ignoredDir _ _ _) => apply ignoredDir_journal
    | |- journals _ _ (ignoredFile _ _ _) => apply ignoredFile_journal
    | |- journals _ _ (if ?c then _ else _) => destruct c eqn:?
    | |- journals _ _ (match ?x with _ => _ end) => destruct x eqn:?
    | |- _ => jstep
    end.

Lemma compareEntries_journal (rec : path -> path -> M FS bool) (es ed : path) :
  (forall s d, journals w_sys P (rec s d)) ->
  journals w_sys P (compareEntries params cbs rec es ed).
Proof. intros Hrec. unfold compareEntries. jcomp; apply Hrec. Qed.

Lemma walk_journal (rec : path -> path -> M FS bool) (src dst : path) :
  (forall s d, journals w_sys P (rec s d)) ->
  forall srcmap dstmap nd, journals w_sys P (walk params cbs rec src dst srcmap dstmap nd).
Proof.
  intros Hrec.
  induction srcmap as [|[ks es] srcmap IHs]; induction dstmap as [|[kd ed] dstmap IHd];
    intros nd; simpl.
  - apply journals_ret.
  - apply journals_bind; [apply dstOnly_journal | intros _; apply IHd].
  - apply journals_bind; [apply srcOnly_journal | intros _; apply IHs].
  - destruct (str_lt ks kd); [|destruct (str_lt kd ks)].
    + apply journals_bind; [apply srcOnly_journal | intros _; apply IHs].
    + apply journals_bind; [apply dstOnly_journal | intros _; apply IHd].
    + apply journals_bind; [apply compareEntries_journal; exact Hrec | intros same; apply IHs].
Qed.

End JournalComparator.

Section JournalRun.

Context {FS : Type} `{Provider FS}.
Variable cfg : Config.

Local Abbreviation P := (allowed cfg).

Lemma processDir_journal (fuel n : nat) (src dst : path) :
  journals w_sys P (processDir (flags cfg) (mainCallbacks fuel cfg) n src dst).
Proof.
  revert src dst. induction n as [|n IH]; intros src dst; simpl.
  - apply journals_throw.
  - apply journals_bind; [apply progressDirs_journal | intros _].
    apply journals_bind.
    { unfold readSrcDir.
      apply journals_bind; [apply journals_getFS | intros fs].
      apply journals_bind; [apply journals_liftR | intros l; apply journals_ret]. }
    intros srcmap. apply journals_bind.
    { unfold readDstDir.
      apply journals_bind; [apply journals_getFS | intros fs].
      destruct (fsExists fs dst); [|apply journals_ret].
      apply journals_bind; [apply journals_liftR | intros l; apply journals_ret]. }
    intros dstmap. apply walk_journal. exact IH.
Qed.

Lemma runTreeDiff_journal {A} (m : M FS A) :
  journals w_sys P m -> journals own P (runTreeDiff m).
Proof.
  intros Hm s r s'. unfold runTreeDiff.
  destruct (m (mkWorld s [])) as [r0 w] eqn:Hrun. intros [= _ <-].
  exact (Hm _ _ _ Hrun).
Qed.

Lemma treesync_journal (fuel : nat) : journals own P (treesync fuel cfg).
Proof.
  unfold treesync.
  repeat lazymatch goal with
    | |- journals _ _ (mkDirs _ _ _ _) => apply mkDirs_dummy
    | |- journals _ _ (runTreeDiff _) => apply runTreeDiff_journal; apply processDir_journal
    | |- _ => jstep
    end.
Qed.

End JournalRun.

(** ** Dummy mode *)

Section Leaves.

Context {FS : Type} `{Provider FS}.

(** The copy of something that is not a directory. *)
Lemma copyInto_leaf (rec : path -> path -> Act FS unit) (src dst : path)
    (opts : copy_options) (verbose : bool) (verbosePrefix : string) (params : Flags)
    (dummyMode : bool) (s : Sys FS) :
  is_directory (s_fs s) src = false ->
  copyInto rec src dst opts verbose verbosePrefix params dummyMode s =
  bind (when verbose
          (print (verbosePrefix +:+ " " +:+ getFileTypeStr (s_fs s) src (followSymlinks params)
                  +:+ " " +:+ showPath src +:+ " -> " +:+ showPath dst)))
       (fun _ => when (negb dummyMode) (perform (OpCopy src dst opts))) s.
Proof.
  intros Hdir. unfold copyInto, bind at 1. unfold actFS at 1. cbv beta iota.
  rewrite Hdir. reflexivity.
Qed.

(** The removal of something that is not a directory. *)
Lemma removeRecursive_leaf (n : nat) (dst : path) (verbose : bool)
    (verbosePrefix : string) (followSymlinks_ : bool) (dummyMode : bool) (s : Sys FS) :
  fsIsDirectory (s_fs s) dst false = false ->
  removeRecursive (S n) dst verbose verbosePrefix followSymlinks_ dummyMode s =
  bind (when verbose
          (print (verbosePrefix +:+ " " +:+ getFileTypeStr (s_fs s) dst followSymlinks_
                  +:+ " " +:+ showPath dst)))
       (fun _ => when (negb dummyMode) (perform (OpRemove dst))) s.
Proof.
  intros Hdir. simpl. unfold bind at 1. unfold actFS at 1. cbv beta iota.
  rewrite Hdir. reflexivity.
Qed.

End Leaves.

(** C6, as the code has it.  A run in dummy mode issues no mutating call at
    all -- no copy, remove, mkdir or mtime change -- and leaves the file
    system as it found it, whatever the run returns.  Its log is the log of
    what it would do, which is not always the log of the run that does it:
    in dummy mode [mkDirs] logs the directory whenever it is verbose, and
    without dummy mode it logs nothing for a directory that exists.  Where a
    single file is copied or removed, the two modes log the same line. *)
Theorem dummy_mode_never_mutates
    {FS : Type} `{Provider FS} (fuel : nat) (cfg : Config) (s : Sys FS) :
  dummyMode cfg = true ->
  (s_fs (snd (treesync fuel cfg s)) = s_fs s
   /\ s_ops (snd (treesync fuel cfg s)) = s_ops s)
  /\ (forall dir verbose verbosePrefix (s0 : Sys FS),
        mkDirs dir verbose verbosePrefix true s0
        = (Ok tt, mkSys (s_fs s0)
                        (s_out s0 ++ if verbose then [verbosePrefix +:+ " " +:+ showPath dir]
                                     else [])
                        (s_ops s0)))
  /\ (forall dir verbose verbosePrefix (s0 : Sys FS),
        fsExists (s_fs s0) dir = true ->
        fsIsDirectory (s_fs s0) dir false = true ->
        mkDirs dir verbose verbosePrefix false s0 = (Ok tt, s0))
  /\ (forall rec src dst opts verbose verbosePrefix params (s0 : Sys FS),
        is_directory (s_fs s0) src = false ->
        s_out (snd (copyInto rec src dst opts verbose verbosePrefix params true s0))
        = s_out (snd (copyInto rec src dst opts verbose verbosePrefix params false s0)))
  /\ (forall n dst verbose verbosePrefix follow (s0 : Sys FS),
        fsIsDirectory (s_fs s0) dst false = false ->
        s_out (snd (removeRecursive (S n) dst verbose verbosePrefix follow true s0))
        = s_out (snd (removeRecursive (S n) dst verbose verbosePrefix follow false s0))).
Proof.
  intros Hdummy. split; [|split; [|split; [|split]]].
  - destruct (treesync fuel cfg s) as [r s'] eqn:Hrun.
    destruct (treesync_journal cfg fuel _ _ _ Hrun) as (ops & Hops & Hall & Hfs).
    assert (ops = []) as ->.
    { destruct ops as [|op ops]; [reflexivity|].
      inversion Hall as [|? ? Hop _]; subst. congruence. }
    unfold own in *. simpl. rewrite Hops, List.app_nil_r. split; [apply Hfs|]; reflexivity.
  - intros dir verbose verbosePrefix s0. unfold mkDirs, bind, actFS.
    rewrite orb_true_r. destruct verbose; simpl; [reflexivity|].
    unfold ret. rewrite List.app_nil_r. destruct s0; reflexivity.
  - intros dir verbose verbosePrefix s0 Hex Hdir. unfold mkDirs, bind, actFS.
    rewrite Hex, Hdir. reflexivity.
  - intros rec src dst opts verbose verbosePrefix params s0 Hdir.
    rewrite !copyInto_leaf by exact Hdir.
    unfold bind, when, print, modify, perform, ret. destruct verbose; simpl;
      destruct (fs_copy (s_fs s0) src dst opts); reflexivity.
  - intros n dst verbose verbosePrefix follow s0 Hdir.
    rewrite !removeRecursive_leaf by exact Hdir.
    unfold bind, when, print, modify, perform, ret, actFS. destruct verbose; simpl;
      destruct (fs_remove (s_fs s0) dst); reflexivity.
Qed.

Lemma dummy_mode_never_mutates_witness :
  let s0 := start Examples.tree1 in
  let s' := snd (treesync 4 (Examples.cfgSync true) s0) in
  s_fs s' = s_fs s0 /\ s_ops s' = s_ops s0.
Proof.
  intros s0 s'.
  exact (proj1 (dummy_mode_never_mutates 4 (Examples.cfgSync true) s0 eq_refl)).
Defined.

(** The log of a run in dummy mode and the log of the same run without it
    differ when the directory of [--copy-ins] exists: only the run in dummy
    mode logs its creation. *)
Lemma dummy_log_differs :
  let s0 := start Examples.tree3 in
  let copying := "Copying (--copy-ins) file " +:+ showPath ["src"; "a.txt"]
                 +:+ " -> " +:+ showPath ["ins"; "a.txt"] in
  dummyMode (Examples.cfgCopyIns true) = true
  /\ fst (treesync 4 (Examples.cfgCopyIns true) s0) = Ok tt
  /\ fst (treesync 4 (Examples.cfgCopyIns false) s0) = Ok tt
  /\ s_out (snd (treesync 4 (Examples.cfgCopyIns true) s0))
     = ["+ file " +:+ showPath ["src"; "a.txt"];
        "Creating --copy-ins destination dir " +:+ showPath ["ins"];
        copying]
  /\ s_out (snd (treesync 4 (Examples.cfgCopyIns false) s0))
     = ["+ file " +:+ showPath ["src"; "a.txt"];
        copying]
  /\ s_out (snd (treesync 4 (Examples.cfgCopyIns true) s0))
     <> s_out (snd (treesync 4 (Examples.cfgCopyIns false) s0)).
Proof.
  vm_compute. repeat split; try reflexivity.
  intros Heq. congruence.
Qed.

(** ** The update callbacks *)

Section Update.

Context {FS : Type} `{Provider FS}.
Variable fuel : nat.
Variable cfg : Config.



End Update.

Section PlainCopy.

Context {FS : Type} `{Provider FS}.


End PlainCopy.






(** ** Overwriting *)

Section Overwrite.

Context {FS : Type} `{Provider FS}.

(** A removal that returned, outside dummy mode: removals below, then the
    one of the entry itself. *)
Lemma removeRecursive_ops (n : nat) (dst : path) (verbose : bool)
    (verbosePrefix : string) (followSymlinks_ : bool) (s s1 : Sys FS) :
  removeRecursive (S n) dst verbose verbosePrefix followSymlinks_ false s = (Ok tt, s1) ->
  exists dels, Forall is_remove dels /\ s_ops s1 = s_ops s ++ dels ++ [OpRemove dst].
Proof.
  simpl. intros Hrun.
  apply bind_Ok in Hrun. destruct Hrun as (fs0 & s2 & Hget & Hrun).
  unfold actFS in Hget. injection Hget as <- <-.
  apply bind_Ok in Hrun. destruct Hrun as ([] & s3 & Hchildren & Hrun).
  assert (Hj : journals own (fun op => false = false /\ exists p, op = OpRemove p)
                 (if fsIsDirectory (s_fs s) dst false
                  then bind (liftR (directory_iterator (s_fs s) dst))
                         (fun entries => forEach entries (fun dst_ =>
                            removeRecursive n dst_ verbose verbosePrefix followSymlinks_ false))
                  else ret tt)).
  { repeat jstep. apply removeRecursive_journal. }
  destruct (Hj _ _ _ Hchildren) as (dels & Hdels & Hall & _). unfold own in Hdels.
  apply bind_Ok in Hrun. destruct Hrun as (fs1 & s4 & Hget & Hrun).
  unfold actFS in Hget. injection Hget as <- <-.
  apply bind_Ok in Hrun. destruct Hrun as ([] & s5 & Hprint & Hrun).
  assert (Hp : s_ops s5 = s_ops s3).
  { unfold when in Hprint. destruct verbose.
    - unfold print, modify in Hprint. injection Hprint as <-. reflexivity.
    - unfold ret in Hprint. injection Hprint as <-. reflexivity. }
  cbn [negb when] in Hrun. unfold perform in Hrun.
  destruct (fs_remove (s_fs s5) dst); [|discriminate].
  injection Hrun as <-. simpl.
  exists dels. split.
  - eapply List.Forall_impl; [|exact Hall]. intros op [_ Hop]. exact Hop.
  - rewrite Hp, Hdels, <- List.app_assoc. reflexivity.
Qed.

End Overwrite.

(** C7, as the code has it.  For a source entry that the source-side filter
    lets through: if the copy has the overwrite option, the destination path
    exists and the source or the destination is not a plain regular file,
    [copyRecursive] first runs [removeRecursive] on the destination and then
    the copy on what that left; so outside dummy mode, when the removal
    returns and the source is not a directory, the calls issued are removals,
    the last of them the removal of the destination itself, and then the one
    copy.  If both are plain regular files (or nothing is there, or the
    option is not set), it runs the copy alone. *)
Theorem overwrite_deletes_first_unless_regular
    {FS : Type} `{Provider FS} (n : nat) (src dstdir : path) (opts : copy_options)
    (verbose : bool) (verbosePrefix : string) (params : Flags) (dummyMode : bool)
    (s : Sys FS) :
  ignoreSrcFile (filename src) params = false ->
  let dst := path_append dstdir (filename src) in
  let rec := fun src_ dst_ =>
    copyRecursive n src_ dst_ opts verbose verbosePrefix params dummyMode in
  let delete :=
    removeRecursive (S n) dst verbose (verbosePrefix +:+ ": Deleting")
      (followSymlinks params) dummyMode in
  let copy := copyInto rec src dst opts verbose verbosePrefix params dummyMode in
  let run := copyRecursive (S n) src dstdir opts verbose verbosePrefix params dummyMode in
  (has_option opts overwrite_existing = true ->
   fsExists (s_fs s) dst = true ->
   fsIsRegular (s_fs s) src (followSymlinks params) = false
   \/ fsIsRegular (s_fs s) dst false = false ->
   run s = bind delete (fun _ => copy) s
   /\ (dummyMode = false ->
       forall s1, delete s = (Ok tt, s1) ->
       is_directory (s_fs s1) src = false ->
       exists dels,
         Forall is_remove dels
         /\ s_ops (snd (run s)) = s_ops s ++ dels ++ [OpRemove dst; OpCopy src dst opts]))
  /\ (fsIsRegular (s_fs s) src (followSymlinks params) = true ->
      fsIsRegular (s_fs s) dst false = true ->
      run s = copy s)
  /\ (has_option opts overwrite_existing = false \/ fsExists (s_fs s) dst = false ->
      run s = copy s).
Proof.
  intros Hign dst rec delete copy run.
  assert (Hrun : run s =
                 bind (when (mustDeleteFirst (s_fs s) src dst opts params) delete)
                      (fun _ => copy) s).
  { subst run. rewrite copyRecursive_S, Hign. reflexivity. }
  split; [|split].
  - intros Hopt Hex Hreg.
    assert (Hmust : mustDeleteFirst (s_fs s) src dst opts params = true).
    { unfold mustDeleteFirst. rewrite Hopt, Hex. simpl.
      destruct Hreg as [-> | ->]; simpl; [reflexivity | apply orb_true_r]. }
    rewrite Hmust in Hrun. cbn [when] in Hrun. split; [exact Hrun|].
    intros -> s1 Hdel Hdir.
    destruct (removeRecursive_ops _ _ _ _ _ _ _ Hdel) as (dels & Hall & Hops).
    exists dels. split; [exact Hall|].
    rewrite Hrun, (bind_step _ _ _ _ _ Hdel). subst copy.
    rewrite copyInto_leaf by exact Hdir.
    replace (s_ops s ++ dels ++ [OpRemove dst; OpCopy src dst opts])
      with (s_ops s1 ++ [OpCopy src dst opts])
      by (rewrite Hops, <- !List.app_assoc; reflexivity).
    unfold bind, when, print, modify, perform, ret. destruct verbose; simpl;
      destruct (fs_copy (s_fs s1) src dst opts); reflexivity.
  - intros Hrs Hrd. rewrite Hrun. unfold mustDeleteFirst. rewrite Hrs, Hrd. simpl.
    rewrite andb_false_r. reflexivity.
  - intros Hno. rewrite Hrun. unfold mustDeleteFirst.
    destruct Hno as [-> | ->]; simpl; [reflexivity|]. rewrite andb_false_r. reflexivity.
Qed.

Lemma overwrite_deletes_first_unless_regular_witness :
  let src := ["src"; "x"] in
  let dst := ["dst"; "x"] in
  let opts := N.lor overwrite_existing copy_symlinks in
  let run := copyRecursive 4 src ["dst"] opts true "Copying (type mismatch)"
               Examples.flags0 false in
  exists dels,
    Forall is_remove dels
    /\ s_ops (snd (run (start Examples.tree8)))
       = [] ++ dels ++ [OpRemove dst; OpCopy src dst opts].
Proof.
  intros src dst opts run.
  destruct (overwrite_deletes_first_unless_regular 3 src ["dst"] opts true
              "Copying (type mismatch)" Examples.flags0 false (start Examples.tree8) eq_refl)
    as (Hdel & _ & _).
  destruct Hdel as (_ & Hops).
  - vm_compute. reflexivity.
  - vm_compute. reflexivity.
  - right. vm_compute. reflexivity.
  - apply (Hops eq_refl
             (snd (removeRecursive 4 dst true ("Copying (type mismatch)" +:+ ": Deleting")
                     false false (start Examples.tree8)))).
    + apply run_Ok. vm_compute. reflexivity.
    + vm_compute. reflexivity.
Defined.

(** A copy with the overwrite option whose destination exists and whose
    source is a directory, and still nothing is removed and nothing copied:
    the source is named like a resource fork and the source-side filter is
    on.  The run of [--copy-del] with [--ignore-forks] gets there with an
    entry that only the destination has. *)
Lemma filtered_source_is_not_overwritten :
  let src := ["dst"; "._x"] in
  let dst := ["out"; "._x"] in
  let opts := N.lor overwrite_existing copy_symlinks in
  let s0 := start Examples.tree6 in
  has_option opts overwrite_existing = true
  /\ fsExists Examples.tree6 dst = true
  /\ fsIsRegular Examples.tree6 src false = false
  /\ copyRecursive 4 src ["out"] opts true "Copying (--copy-del)" Examples.flagsF false s0
     = (Ok tt, s0)
  /\ fst (treesync 4 Examples.cfgCopyDel s0) = Ok tt
  /\ s_ops (snd (treesync 4 Examples.cfgCopyDel s0)) = []
  /\ s_out (snd (treesync 4 Examples.cfgCopyDel s0))
     = ["- dir " +:+ showPath src].
Proof.
  intros src dst opts s0.
  split; [reflexivity|]. split; [vm_compute; reflexivity|]. split; [vm_compute; reflexivity|].
  split; [apply copyRecursive_filtered; reflexivity|].
  vm_compute. repeat split; reflexivity.
Qed.

(** ** Resource forks *)

(** C10.  With the source-side filter on, [copyRecursive] called for an
    entry whose name starts with "._" returns at once: nothing is printed,
    no call is issued, the state is the one before.  And of all the calls a
    [copyRecursive] issues, at any depth of its recursion and whatever it
    returns, none creates a directory or a copy under such a name and none
    copies from such a name. *)
Theorem copyRecursive_skips_forks
    {FS : Type} `{Provider FS} (params : Flags) (opts : copy_options) (verbose : bool)
    (verbosePrefix : string) (dummyMode : bool) :
  ignoreForksSrc params = true ->
  (forall n src dstdir (s : Sys FS),
     hasPrefix (filename src) "._" = true ->
     copyRecursive (S n) src dstdir opts verbose verbosePrefix params dummyMode s
     = (Ok tt, s))
  /\ (forall fuel src dstdir (s : Sys FS),
        exists ops,
          s_ops (snd (copyRecursive fuel src dstdir opts verbose verbosePrefix params
                        dummyMode s))
          = s_ops s ++ ops
          /\ Forall no_fork ops).
Proof.
  intros Hforks. split.
  - intros n src dstdir s Hpre. apply copyRecursive_filtered.
    unfold ignoreSrcFile. rewrite Hforks, Hpre. reflexivity.
  - intros fuel src dstdir s.
    destruct (copyRecursive fuel src dstdir opts verbose verbosePrefix params dummyMode s)
      as [r s'] eqn:Hrun.
    destruct (copyRecursive_journal fuel src dstdir opts verbose verbosePrefix params
                dummyMode _ _ _ Hrun) as (ops & Hops & Hall & _).
    exists ops. split; [exact Hops|].
    eapply List.Forall_impl; [|exact Hall].
    intros op [_ Hop]. unfold respects_filter, ignoreSrcFile in Hop.
    rewrite Hforks in Hop. destruct op; simpl in *; try exact I; exact Hop.
Qed.

Lemma copyRecursive_skips_forks_witness :
  let s0 := start Examples.tree7 in
  let run := copyRecursive 4 ["src"; "sub"] ["dst"] copy_symlinks true "Copying (new)"
               Examples.flagsF false in
  copyRecursive 4 ["src"; "sub"; "._a"] ["dst"; "sub"] copy_symlinks true "Copying (new)"
    Examples.flagsF false s0 = (Ok tt, s0)
  /\ s_ops (snd (run s0))
     = [OpCreateDirectories ["dst"; "sub"];
        OpCopy ["src"; "sub"; "a"] ["dst"; "sub"; "a"] copy_symlinks]
  /\ exists ops, s_ops (snd (run s0)) = [] ++ ops /\ Forall no_fork ops.
Proof.
  intros s0 run.
  destruct (copyRecursive_skips_forks Examples.flagsF copy_symlinks true "Copying (new)"
              false eq_refl) as (Hskip & Hall).
  split; [apply Hskip; reflexivity|].
  split; [vm_compute; reflexivity|].
  apply Hall.
Defined.

(** ** The scenarios of the specification, run *)

(** A file that only the source has: [--diff] reports it, [--new] copies it. *)
Example scenario_new :
  s_out (snd (treesync 4 (Examples.cfgOf false false false true false Examples.flags0)
                (start Examples.treeNew)))
  = ["+ file " +:+ showPath ["src"; "a.txt"]]
  /\ s_ops (snd (treesync 4 (Examples.cfgOf true false false false false Examples.flags0)
                   (start Examples.treeNew)))
     = [OpCopy ["src"; "a.txt"] ["dst"; "a.txt"] copy_symlinks].
Proof. vm_compute. split; reflexivity. Qed.

(** A file that only the destination has: [--diff] reports it, [--delete]
    removes it. *)
Example scenario_delete :
  s_out (snd (treesync 4 (Examples.cfgOf false false false true false Examples.flags0)
                (start Examples.treeOld)))
  = ["- file " +:+ showPath ["dst"; "old.txt"]]
  /\ s_ops (snd (treesync 4 (Examples.cfgOf false true false false false Examples.flags0)
                   (start Examples.treeOld)))
     = [OpRemove ["dst"; "old.txt"]]
  /\ s_fs (snd (treesync 4 (Examples.cfgOf false true false false false Examples.flags0)
                  (start Examples.treeOld))) !! ["dst"; "old.txt"] = None.
Proof. vm_compute. repeat split; reflexivity. Qed.

(** Two files of one size and other bytes: a mismatch, and a match with
    [--ignore-content]. *)
Example scenario_ignore_content :
  Examples.eventsOf (Examples.cfgOf false false false true false Examples.flags0)
                    Examples.tree5
  = (Ok false, [ProgressDirs ["src"] ["dst"];
                ProgressFiles ["src"; "f"] ["dst"; "f"];
                Mismatch ["src"; "f"] ["dst"; "f"]])
  /\ Examples.eventsOf (Examples.cfgOf false false false true false Examples.flagsC)
                       Examples.tree5
     = (Ok true, [ProgressDirs ["src"] ["dst"];
                  ProgressFiles ["src"; "f"] ["dst"; "f"];
                  Match ["src"; "f"] ["dst"; "f"]]).
Proof. vm_compute. split; reflexivity. Qed.

(** After [--new --delete --update --ignore-mtime] the two trees compare
    equal. *)
Example scenario_idempotence :
  let synced := s_fs (snd (treesync 4 (Examples.cfgOf true true true false true Examples.flags0)
                             (start Examples.tree1))) in
  fst (Examples.eventsOf (Examples.cfgOf false false false true false Examples.flags0)
                         Examples.tree1) = Ok false
  /\ fst (Examples.eventsOf (Examples.cfgOf false false false true false Examples.flags0)
                            synced) = Ok true.
Proof. vm_compute. split; reflexivity. Qed.

(** Two spellings of one name in the source, with [--normalize-filenames]:
    one [SrcOnly] event for the two entries. *)
Example scenario_collision :
  exists e,
    Examples.eventsOf (Examples.cfgOf false false false true false Examples.flagsZ)
                      Examples.treeCafe
    = (Ok false, [ProgressDirs ["src"] ["dst"]; SrcOnly e ["dst"]])
    /\ (e = Examples.cafe_nfc \/ e = Examples.cafe_nfd).
Proof.
  destruct (Examples.eventsOf (Examples.cfgOf false false false true false Examples.flagsZ)
              Examples.treeCafe) as [r evs] eqn:Hrun.
  vm_compute in Hrun. injection Hrun as <- <-.
  eexists. split; [reflexivity|]. vm_compute. tauto.
Qed.

(** * Further properties *)

(** ** What the comparator adds to the callbacks: nothing *)

Section Frame.

Context {FS : Type} `{Provider FS}.
Variable P : FsOp -> Prop.
Variable params : Flags.
Variable cbs : Callbacks FS.
Hypothesis Hcbs : callbacks_journal P cbs.

Lemma frame_emit (ev : Event) : journals (FS := FS) w_sys P (emit ev).
Proof. apply journals_same. unfold emit, modify. intros s r s' [= _ <-]. reflexivity. Qed.

Lemma frame_getFS : journals (FS := FS) w_sys P getFS.
Proof. apply journals_same. unfold getFS. intros s r s' [= _ <-]. reflexivity. Qed.

Lemma frame_liftAct {A} (a : Act FS A) :
  journals (FS := FS) own P a -> journals (FS := FS) w_sys P (liftAct a).
Proof.
  intros Ha w r w'. unfold liftAct. destruct (a (w_sys w)) as [r0 s'] eqn:Hrun.
  intros [= _ <-]. simpl. exact (Ha _ _ _ Hrun).
Qed.

Lemma frame_call2 (cb : option (path -> path -> Flags -> Act FS unit)) (a b : path) :
  cb2_journal P cb -> journals (FS := FS) w_sys P (call2 params cb a b).
Proof.
  intros Hcb. unfold call2. destruct cb as [f|].
  - apply frame_liftAct. apply (Hcb f a b params eq_refl).
  - apply journals_ret.
Qed.

Lemma frame_call1 (cb : option (path -> Flags -> Act FS unit)) (a : path) :
  cb1_journal P cb -> journals (FS := FS) w_sys P (call1 params cb a).
Proof.
  intros Hcb. unfold call1. destruct cb as [f|].
  - apply frame_liftAct. apply (Hcb f a params eq_refl).
  - apply journals_ret.
Qed.

Ltac fnotify := apply journals_bind; [apply frame_emit | intros _].

Lemma frame_srcOnly a b : journals (FS := FS) w_sys P (srcOnly params cbs a b).
Proof. unfold srcOnly. fnotify. apply frame_call2. apply Hcbs. Qed.
Lemma frame_dstOnly a b : journals (FS := FS) w_sys P (dstOnly params cbs a b).
Proof. unfold dstOnly. fnotify. apply frame_call2. apply Hcbs. Qed.
Lemma frame_match a b : journals (FS := FS) w_sys P (match_ params cbs a b).
Proof. unfold match_. fnotify. apply frame_call2. apply Hcbs. Qed.
Lemma frame_mismatch a b : journals (FS := FS) w_sys P (mismatch params cbs a b).
Proof. unfold mismatch. fnotify. apply frame_call2. apply Hcbs. Qed.
Lemma frame_typeMismatch a b : journals (FS := FS) w_sys P (typeMismatch params cbs a b).
Proof. unfold typeMismatch. fnotify. apply frame_call2. apply Hcbs. Qed.
Lemma frame_progressDirs a b : journals (FS := FS) w_sys P (progressDirs params cbs a b).
Proof. unfold progressDirs. fnotify. apply frame_call2. apply Hcbs. Qed.
Lemma frame_progressFiles a b : journals (FS := FS) w_sys P (progressFiles params cbs a b).
Proof. unfold progressFiles. fnotify. apply frame_call2. apply Hcbs. Qed.
Lemma frame_ignoredDir a : journals (FS := FS) w_sys P (ignoredDir params cbs a).
Proof. unfold ignoredDir. fnotify. apply frame_call1. apply Hcbs. Qed.
Lemma frame_ignoredFile a : journals (FS := FS) w_sys P (ignoredFile params cbs a).
Proof. unfold ignoredFile. fnotify. apply frame_call1. apply Hcbs. Qed.

Ltac fcomp :=
  repeat lazymatch goal with
    | |- journals _ _ getFS => apply frame_getFS
    | |- journals _ _ (srcOnly _ _ _ _) => apply frame_srcOnly
    | |- journals _ _ (dstOnly _ _ _ _) => apply frame_dstOnly
    | |- journals _ _ (match_ _ _ _ _) => apply frame_match
    | |- journals _ _ (mismatch _ _ _ _) => apply frame_mismatch
    | |- journals _ _ (typeMismatch _ _ _ _) => apply frame_typeMismatch
    | |- journals _ _ (progressDirs _ _ _ _) => apply frame_progressDirs
    | |- journals _ _ (progressFiles _ _ _ _) => apply frame_progressFiles
    | |- journals _ _ (ignoredDir _ _ _) => apply frame_ignoredDir
    | |- journals _ _ (ignoredFile _ _ _) => apply frame_ignoredFile
    | |- journals _ _ (if ?c then _ else _) => destruct c eqn:?
    | |- journals _ _ (match ?x with _ => _ end) => destruct x eqn:?
    | |- _ => jstep
    end.

Lemma frame_compareEntries (rec : path -> path -> M FS bool) (es ed : path) :
  (forall s d, journals (FS := FS) w_sys P (rec s d)) ->
  journals (FS := FS) w_sys P (compareEntries params cbs rec es ed).
Proof. intros Hrec. unfold compareEntries. fcomp; apply Hrec. Qed.

Lemma frame_walk (rec : path -> path -> M FS bool) (src dst : path) :
  (forall s d, journals (FS := FS) w_sys P (rec s d)) ->
  forall srcmap dstmap nd, journals (FS := FS) w_sys P (walk params cbs rec src dst srcmap dstmap nd).
Proof.
  intros Hrec.
  induction srcmap as [|[ks es] srcmap IHs]; induction dstmap as [|[kd ed] dstmap IHd];
    intros nd; simpl.
  - apply journals_ret.
  - apply journals_bind; [apply frame_dstOnly | intros _; apply IHd].
  - apply journals_bind; [apply frame_srcOnly | intros _; apply IHs].
  - destruct (str_lt ks kd); [|destruct (str_lt kd ks)].
    + apply journals_bind; [apply frame_srcOnly | intros _; apply IHs].
    + apply journals_bind; [apply frame_dstOnly | intros _; apply IHd].
    + apply journals_bind; [apply frame_compareEntries; exact Hrec | intros same; apply IHs].
Qed.

Lemma frame_processDir (n : nat) (src dst : path) :
  journals (FS := FS) w_sys P (processDir params cbs n src dst).
Proof.
  revert src dst. induction n as [|n IH]; intros src dst; simpl.
  - apply journals_throw.
  - apply journals_bind; [apply frame_progressDirs | intros _].
    apply journals_bind.
    { unfold readSrcDir.
      apply journals_bind; [apply frame_getFS | intros fs].
      apply journals_bind; [apply journals_liftR | intros l; apply journals_ret]. }
    intros srcmap. apply journals_bind.
    { unfold readDstDir.
      apply journals_bind; [apply frame_getFS | intros fs].
      destruct (fsExists fs dst); [|apply journals_ret].
      apply journals_bind; [apply journals_liftR | intros l; apply journals_ret]. }
    intros dstmap. apply frame_walk. exact IH.
Qed.

End Frame.

(** X1.  The comparator issues no mutating call of its own: whatever a run
    of [processDir] adds to the journal, for any options and whatever it
    returns, satisfies every property that all calls of the bound callbacks
    satisfy, and if the run adds nothing the file system is the one before. *)
Theorem comparator_adds_no_call
    {FS : Type} `{Provider FS} (P : FsOp -> Prop) (params : Flags) (cbs : Callbacks FS)
    (fuel : nat) (src dst : path) (w : World FS) :
  callbacks_journal P cbs ->
  exists ops,
    s_ops (w_sys (snd (processDir params cbs fuel src dst w))) = s_ops (w_sys w) ++ ops
    /\ Forall P ops
    /\ (ops = [] ->
        s_fs (w_sys (snd (processDir params cbs fuel src dst w))) = s_fs (w_sys w)).
Proof.
  intros Hcbs.
  destruct (processDir params cbs fuel src dst w) as [r w'] eqn:Hrun.
  exact (frame_processDir P params cbs Hcbs fuel src dst _ _ _ Hrun).
Qed.

Lemma noCallbacks_journal {FS : Type} (P : FsOp -> Prop) :
  callbacks_journal (FS := FS) P noCallbacks.
Proof. repeat split; intros f; intros; discriminate. Qed.

Lemma comparator_adds_no_call_witness :
  let w := mkWorld (start Examples.tree1) [] in
  let run := processDir Examples.flags0 noCallbacks 4 ["src"] ["dst"] w in
  exists ops,
    s_ops (w_sys (snd run)) = s_ops (w_sys w) ++ ops
    /\ Forall (fun _ => False) ops
    /\ (ops = [] -> s_fs (w_sys (snd run)) = s_fs (w_sys w)).
Proof.
  intros w run.
  exact (comparator_adds_no_call (fun _ => False) Examples.flags0 noCallbacks 4
           ["src"] ["dst"] w (noCallbacks_journal _)).
Defined.

(** ** What a copy may do, and what each mode may do *)

Section Modes.

Context {FS : Type} `{Provider FS}.

Lemma copyRecursive_calls (fuel : nat) (src dstdir : path) (opts : copy_options)
    (verbose : bool) (verbosePrefix : string) (params : Flags) (dummyMode : bool) :
  journals own (copy_call_ok opts dummyMode)
    (copyRecursive fuel src dstdir opts verbose verbosePrefix params dummyMode).
Proof.
  revert src dstdir. induction fuel as [|fuel IH]; intros src dstdir.
  - apply journals_throw.
  - rewrite copyRecursive_S.
    destruct (ignoreSrcFile (filename src) params) eqn:Hign; [apply journals_ret|].
    cbv zeta. apply journals_bind; [apply journals_actFS | intros fs].
    apply journals_bind.
    + apply journals_when. intros Hdel.
      eapply journals_weaken; [|apply removeRecursive_journal].
      intros op [Hd [p ->]]. split; [exact Hd|]. simpl.
      unfold mustDeleteFirst in Hdel.
      destruct (has_option opts overwrite_existing); [reflexivity | discriminate].
    + intros _. unfold copyInto. repeat jstep.
      * eapply journals_weaken; [|apply mkDirs_journal].
        intros op [Hd ->]. split; [exact Hd | exact I].
      * apply IH.
      * apply journals_perform. split; [destruct dummyMode; [discriminate | reflexivity]|].
        simpl. split; [reflexivity | apply filename_append].
Qed.

Lemma base_never_overwrites (cfg : Config) :
  has_option (copy_options_base cfg) overwrite_existing = false.
Proof. unfold copy_options_base. destruct (followSymlinks (flags cfg)); reflexivity. Qed.

Variable fuel : nat.
Variable cfg : Config.

Local Abbreviation Q := (mode_allows cfg).

Lemma side_export_ins : diff cfg = true -> is_empty (copyIns cfg) = false -> side_export cfg = true.
Proof. unfold side_export. intros -> ->. reflexivity. Qed.

Lemma side_export_del : diff cfg = true -> is_empty (copyDel cfg) = false -> side_export cfg = true.
Proof. unfold side_export. intros -> ->. rewrite andb_false_r. reflexivity. Qed.

(** A copy that may overwrite, in a mode that permits it. *)
Lemma copy_overwriting_mode src dstdir verbosePrefix params :
  update cfg = true \/ side_export cfg = true ->
  journals own Q
    (copyRecursive fuel src dstdir (overwriting cfg) (verbose_b cfg) verbosePrefix params
       (dummyMode cfg)).
Proof.
  intros Hmode. eapply journals_weaken; [|apply copyRecursive_calls].
  intros [dir|p|a b o|p t f] [Hd Hop]; (split; [exact Hd|]); simpl in *.
  - right. exact Hmode.
  - right. exact Hmode.
  - right. exact Hmode.
  - exact Hop.
Qed.

(** A copy that may not, for [--new]. *)
Lemma copy_new_mode src dstdir verbosePrefix params :
  new_ cfg = true ->
  journals own Q
    (copyRecursive fuel src dstdir (copy_options_base cfg) (verbose_b cfg) verbosePrefix params
       (dummyMode cfg)).
Proof.
  intros Hnew. eapply journals_weaken; [|apply copyRecursive_calls].
  intros [dir|p|a b o|p t f] [Hd Hop]; (split; [exact Hd|]); simpl in *.
  - left. exact Hnew.
  - rewrite base_never_overwrites in Hop. discriminate.
  - destruct Hop as [-> _]. left. split; [exact Hnew | apply base_never_overwrites].
  - exact Hop.
Qed.

Lemma mkDirs_side_mode dir verbosePrefix :
  new_ cfg = true \/ update cfg = true \/ side_export cfg = true ->
  journals own Q (mkDirs dir (verbose_b cfg) verbosePrefix (dummyMode cfg)).
Proof.
  intros Hmode. eapply journals_weaken; [|apply mkDirs_journal].
  intros op [Hd ->]. split; [exact Hd | exact Hmode].
Qed.

Lemma printDirectoryEntry_mode entry prefix suffix params recursive src :
  journals own Q (printDirectoryEntry fuel entry prefix suffix params recursive src).
Proof.
  eapply journals_weaken; [|apply printDirectoryEntry_journal]. intros op [].
Qed.

Lemma on_srcOnly_mode a b p : journals own Q (on_srcOnly fuel cfg a b p).
Proof.
  unfold on_srcOnly. apply journals_bind; [|intros _].
  - apply journals_when. intros Hdiff.
    apply journals_bind; [apply printDirectoryEntry_mode | intros _].
    apply journals_when. intros Hins. apply negb_true_iff in Hins.
    apply journals_bind; [|intros _].
    + apply mkDirs_side_mode. right. right. apply side_export_ins; assumption.
    + apply copy_overwriting_mode. right. apply side_export_ins; assumption.
  - apply journals_when. intros Hnew. apply copy_new_mode. exact Hnew.
Qed.

Lemma on_dstOnly_mode a b p : journals own Q (on_dstOnly fuel cfg a b p).
Proof.
  unfold on_dstOnly. apply journals_bind; [|intros _].
  - apply journals_when. intros Hdiff.
    apply journals_bind; [apply printDirectoryEntry_mode | intros _].
    apply journals_when. intros Hdel. apply negb_true_iff in Hdel.
    apply journals_bind; [|intros _].
    + apply mkDirs_side_mode. right. right. apply side_export_del; assumption.
    + apply copy_overwriting_mode. right. apply side_export_del; assumption.
  - apply journals_when. intros Hdelete.
    eapply journals_weaken; [|apply removeRecursive_journal].
    intros op [Hd [q ->]]. split; [exact Hd|]. left. exact Hdelete.
Qed.

Lemma on_match_mode a b p : journals (FS := FS) own Q (on_match cfg a b p).
Proof.
  unfold on_match. apply journals_bind; [apply journals_actFS | intros fs].
  apply journals_bind; [repeat jstep | intros _].
  do 3 (apply journals_when; intros _).
  apply journals_when. unfold preserve. discriminate.
Qed.

Lemma on_mismatch_mode a b p : journals own Q (on_mismatch fuel cfg a b p).
Proof.
  unfold on_mismatch. apply journals_bind; [repeat jstep | intros _].
  apply journals_when. intros Hupd.
  apply journals_bind; [apply journals_actFS | intros fs].
  apply journals_when. intros _. apply copy_overwriting_mode. left. exact Hupd.
Qed.

Lemma on_typeMismatch_mode a b p : journals own Q (on_typeMismatch fuel cfg a b p).
Proof.
  unfold on_typeMismatch. apply journals_bind; [repeat jstep | intros _].
  apply journals_when. intros Hupd. apply copy_overwriting_mode. left. exact Hupd.
Qed.

Lemma mainCallbacks_mode : callbacks_journal Q (mainCallbacks fuel cfg).
Proof.
  unfold callbacks_journal, cb2_journal, cb1_journal. simpl.
  repeat split; intros f; intros; match goal with E : Some _ = Some f |- _ =>
    injection E as <- end.
  - apply on_srcOnly_mode.
  - apply on_dstOnly_mode.
  - apply on_match_mode.
  - apply on_mismatch_mode.
  - apply on_typeMismatch_mode.
  - unfold on_progressDirs. repeat jstep.
  - unfold on_progressFiles. repeat jstep.
  - unfold on_ignoredDir. repeat jstep.
  - unfold on_ignoredFile. repeat jstep.
Qed.

Lemma frame_runTreeDiff {A} (P : FsOp -> Prop) (m : M FS A) :
  journals w_sys P m -> journals own P (runTreeDiff m).
Proof.
  intros Hm s r s'. unfold runTreeDiff.
  destruct (m (mkWorld s [])) as [r0 w] eqn:Hrun. intros [= _ <-].
  exact (Hm _ _ _ Hrun).
Qed.

Lemma treesync_mode : journals own Q (treesync fuel cfg).
Proof.
  unfold treesync.
  apply journals_bind; [apply journals_actFS | intros fs].
  apply journals_bind.
  { apply journals_when. intros Hc. apply mkDirs_side_mode. left.
    destruct (new_ cfg); [reflexivity | discriminate]. }
  intros _.
  repeat lazymatch goal with
    | |- journals _ _ (runTreeDiff _) =>
        apply frame_runTreeDiff; apply frame_processDir; apply mainCallbacks_mode
    | |- _ => jstep
    end.
Qed.

End Modes.

(** What a run of [treesync] adds to the journal and what it leaves of the
    file system, once every added call is known to satisfy [P]. *)
Lemma journal_of_run {FS : Type} `{Provider FS} (P : FsOp -> Prop) {A} (m : Act FS A)
    (s : Sys FS) :
  journals own P m ->
  exists ops, s_ops (snd (m s)) = s_ops s ++ ops /\ Forall P ops
              /\ (ops = [] -> s_fs (snd (m s)) = s_fs s).
Proof. intros Hm. destruct (m s) as [r s'] eqn:Hrun. exact (Hm _ _ _ Hrun). Qed.

(** X2.  A copy keeps names and options: every call that [copyRecursive]
    issues, at any depth and whether it returns or throws, is the creation
    of a directory, a removal (only if the options say overwrite_existing),
    or a copy with the very options it was given to a path that has the file
    name of its source; it never changes an mtime, and in dummy mode it
    issues no call. *)
Theorem copyRecursive_keeps_names_and_options
    {FS : Type} `{Provider FS} (fuel : nat) (src dstdir : path) (opts : copy_options)
    (verbose : bool) (verbosePrefix : string) (params : Flags) (dummyMode : bool)
    (s : Sys FS) :
  exists ops,
    s_ops (snd (copyRecursive fuel src dstdir opts verbose verbosePrefix params dummyMode s))
    = s_ops s ++ ops
    /\ Forall (copy_call_ok opts dummyMode) ops.
Proof.
  destruct (journal_of_run (copy_call_ok opts dummyMode)
              (copyRecursive fuel src dstdir opts verbose verbosePrefix params dummyMode) s
              (copyRecursive_calls _ _ _ _ _ _ _ _)) as (ops & Hops & Hall & _).
  exists ops. split; assumption.
Qed.

(** X3.  Every mutating call of a run is one that the modes of the run
    permit: a removal needs [--delete], [--update] or a side export
    ([--diff] with [--copy-ins] or [--copy-del]); a new directory or a copy
    needs [--new], [--update] or a side export; a copy that may overwrite
    needs [--update] or a side export; no mtime is ever set. *)
Theorem treesync_calls_follow_modes
    {FS : Type} `{Provider FS} (fuel : nat) (cfg : Config) (s : Sys FS) :
  exists ops,
    s_ops (snd (treesync fuel cfg s)) = s_ops s ++ ops
    /\ Forall (mode_allows cfg) ops.
Proof.
  destruct (journal_of_run (mode_allows cfg) (treesync fuel cfg) s (treesync_mode fuel cfg))
    as (ops & Hops & Hall & _).
  exists ops. split; assumption.
Qed.

(** X4.  A run that only compares changes nothing: without [--new],
    [--delete], [--update], [--copy-ins] and [--copy-del] the run issues no
    mutating call and leaves the file system as it found it, in dummy mode
    or not, whatever the trees hold and even if the run fails. *)
Theorem diff_only_is_read_only
    {FS : Type} `{Provider FS} (fuel : nat) (cfg : Config) (s : Sys FS) :
  new_ cfg = false -> delete_ cfg = false -> update cfg = false ->
  copyIns cfg = [] -> copyDel cfg = [] ->
  s_ops (snd (treesync fuel cfg s)) = s_ops s
  /\ s_fs (snd (treesync fuel cfg s)) = s_fs s.
Proof.
  intros Hn Hd Hu Hi He.
  destruct (journal_of_run (mode_allows cfg) (treesync fuel cfg) s (treesync_mode fuel cfg))
    as (ops & Hops & Hall & Hfs).
  assert (Hnil : ops = []).
  { destruct ops as [|op ops]; [reflexivity|]. exfalso.
    apply List.Forall_inv in Hall. destruct Hall as [_ Hop].
    assert (Hside : side_export cfg = false).
    { unfold side_export. rewrite Hi, He. simpl. apply andb_false_r. }
    rewrite Hn, Hd, Hu, Hside in Hop.
    destruct op; intuition discriminate. }
  subst ops. rewrite List.app_nil_r in Hops. split; [exact Hops | exact (Hfs eq_refl)].
Qed.

Lemma diff_only_is_read_only_witness :
  let s0 := start Examples.tree1 in
  s_ops (snd (treesync 4 Examples.cfgDiff s0)) = s_ops s0
  /\ s_fs (snd (treesync 4 Examples.cfgDiff s0)) = s_fs s0.
Proof.
  intros s0.
  exact (diff_only_is_read_only 4 Examples.cfgDiff s0 eq_refl eq_refl eq_refl eq_refl eq_refl).
Defined.

(** X5.  [--new] alone never destroys anything: without [--delete],
    [--update], [--copy-ins] and [--copy-del] a run removes nothing and
    every copy it makes is one without overwrite_existing. *)
Theorem new_only_never_removes_or_overwrites
    {FS : Type} `{Provider FS} (fuel : nat) (cfg : Config) (s : Sys FS) :
  delete_ cfg = false -> update cfg = false ->
  copyIns cfg = [] -> copyDel cfg = [] ->
  exists ops,
    s_ops (snd (treesync fuel cfg s)) = s_ops s ++ ops
    /\ Forall (fun op => match op with
                         | OpCreateDirectories _ => True
                         | OpCopy _ _ o => has_option o overwrite_existing = false
                         | OpRemove _ | OpSetLastWriteTime _ _ _ => False
                         end) ops.
Proof.
  intros Hd Hu Hi He.
  destruct (journal_of_run (mode_allows cfg) (treesync fuel cfg) s (treesync_mode fuel cfg))
    as (ops & Hops & Hall & _).
  exists ops. split; [exact Hops|].
  assert (Hside : side_export cfg = false).
  { unfold side_export. rewrite Hi, He. simpl. apply andb_false_r. }
  eapply List.Forall_impl; [|exact Hall].
  intros op [_ Hop]. rewrite ?Hd, ?Hu, ?Hside in Hop.
  destruct op; intuition discriminate.
Qed.

Lemma new_only_never_removes_or_overwrites_witness :
  let cfg := Examples.cfgOf true false false false false Examples.flags0 in
  exists ops,
    s_ops (snd (treesync 4 cfg (start Examples.treeNew))) = s_ops (start Examples.treeNew) ++ ops
    /\ Forall (fun op => match op with
                         | OpCreateDirectories _ => True
                         | OpCopy _ _ o => has_option o overwrite_existing = false
                         | OpRemove _ | OpSetLastWriteTime _ _ _ => False
                         end) ops.
Proof.
  intros cfg.
  exact (new_only_never_removes_or_overwrites 4 cfg (start Examples.treeNew)
           eq_refl eq_refl eq_refl eq_refl).
Defined.

(** X6.  [--delete] alone only removes: without [--new], [--update],
    [--copy-ins] and [--copy-del] every mutating call of a run is a
    removal; nothing is created or copied. *)
Theorem delete_only_only_removes
    {FS : Type} `{Provider FS} (fuel : nat) (cfg : Config) (s : Sys FS) :
  new_ cfg = false -> update cfg = false ->
  copyIns cfg = [] -> copyDel cfg = [] ->
  exists ops,
    s_ops (snd (treesync fuel cfg s)) = s_ops s ++ ops
    /\ Forall is_remove ops.
Proof.
  intros Hn Hu Hi He.
  destruct (journal_of_run (mode_allows cfg) (treesync fuel cfg) s (treesync_mode fuel cfg))
    as (ops & Hops & Hall & _).
  exists ops. split; [exact Hops|].
  assert (Hside : side_export cfg = false).
  { unfold side_export. rewrite Hi, He. simpl. apply andb_false_r. }
  eapply List.Forall_impl; [|exact Hall].
  intros op [_ Hop]. rewrite ?Hn, ?Hu, ?Hside in Hop.
  destruct op; try (exfalso; intuition discriminate). eexists; reflexivity.
Qed.

Lemma delete_only_only_removes_witness :
  let cfg := Examples.cfgOf false true false false false Examples.flags0 in
  exists ops,
    s_ops (snd (treesync 4 cfg (start Examples.treeOld))) = s_ops (start Examples.treeOld) ++ ops
    /\ Forall is_remove ops.
Proof.
  intros cfg.
  exact (delete_only_only_removes 4 cfg (start Examples.treeOld)
           eq_refl eq_refl eq_refl eq_refl).
Defined.

(** ** The command line *)

Lemma isSet_setOption (n m : string) (cl : CommandLine) :
  isSet (setOption n cl) m = String.eqb n m || isSet cl m.
Proof.
  unfold isSet, setOption. simpl.
  destruct (String.eqb_spec n m) as [->|Hne]; simpl.
  - apply bool_decide_eq_true. apply elem_of_union_l, elem_of_singleton. reflexivity.
  - apply bool_decide_ext. rewrite elem_of_union, elem_of_singleton.
    split; [intros [Heq|Hin]; [congruence | exact Hin] | intros Hin; right; exact Hin].
Qed.

Lemma isSet_if (c : bool) (a b : CommandLine) (m : string) :
  isSet (if c then a else b) m = if c then isSet a m else isSet b m.
Proof. destruct c; reflexivity. Qed.

(** Decide the comparisons of two option names that are both given. *)
Ltac eval_eqb :=
  repeat match goal with
    | |- context [String.eqb ?x ?y] =>
        tryif is_var y then fail else
          let v := eval vm_compute in (String.eqb x y) in
          change (String.eqb x y) with v
    end.

(** The options after the implications, in closed form: each shortcut adds
    the options it stands for. *)
Lemma isSet_applyImplications (cl : CommandLine) (m : string) :
  isSet (applyImplications cl) m =
  isSet cl m
  || (isSet cl "sync" || isSet cl "sync-fast")
     && (String.eqb "new" m || String.eqb "delete" m || String.eqb "update" m)
  || isSet cl "update" && String.eqb "new" m
  || (isSet cl "sync-fast" || isSet cl "diff-fast")
     && (String.eqb "ignore-forks" m || String.eqb "ignore-content" m
         || String.eqb "ignore-mtime" m || String.eqb "normalize-filenames" m)
  || isSet cl "diff-fast" && String.eqb "diff" m.
Proof.
  unfold applyImplications. cbv zeta.
  repeat (rewrite ?isSet_if, ?isSet_setOption; eval_eqb; cbn [orb andb]).
  destruct (isSet cl "sync"), (isSet cl "sync-fast"), (isSet cl "update"),
    (isSet cl "diff-fast"); cbn [orb andb];
    destruct (isSet cl m); cbn [orb andb]; btauto.
Qed.

Lemma applyImplications_fields (cl : CommandLine) :
  cl_verbose (applyImplications cl) = cl_verbose cl
  /\ cl_copy_ins (applyImplications cl) = cl_copy_ins cl
  /\ cl_copy_del (applyImplications cl) = cl_copy_del cl
  /\ cl_args (applyImplications cl) = cl_args cl.
Proof.
  unfold applyImplications. cbv zeta.
  repeat match goal with |- context [if ?c then _ else _] => destruct c end;
    repeat split; reflexivity.
Qed.

Lemma optionsOf_ext (a b : CommandLine) (src dst : path) :
  cl_verbose a = cl_verbose b -> cl_copy_ins a = cl_copy_ins b ->
  cl_copy_del a = cl_copy_del b ->
  (forall m, "sync" <> m -> "sync-fast" <> m -> "diff-fast" <> m -> isSet a m = isSet b m) ->
  optionsOf a src dst = optionsOf b src dst.
Proof.
  intros Hv Hi Hd Hset. unfold optionsOf. rewrite Hv, Hi, Hd.
  rewrite !Hset by discriminate. reflexivity.
Qed.

(** Two command lines with the same arguments whose options agree after the
    implications, the shortcuts themselves apart, give the same options. *)
Lemma configOf_ext (a b : CommandLine) :
  cl_verbose a = cl_verbose b -> cl_copy_ins a = cl_copy_ins b ->
  cl_copy_del a = cl_copy_del b -> cl_args a = cl_args b ->
  (forall m, "sync" <> m -> "sync-fast" <> m -> "diff-fast" <> m ->
             isSet (applyImplications a) m = isSet (applyImplications b) m) ->
  configOf a = configOf b.
Proof.
  intros Hv Hi Hd Ha Hset. unfold configOf. rewrite Ha.
  destruct (cl_args b) as [|src [|dst [|x l]]]; [reflexivity | reflexivity | | reflexivity].
  f_equal. apply optionsOf_ext; try exact Hset.
  - rewrite !(proj1 (applyImplications_fields _)). exact Hv.
  - rewrite !(proj1 (proj2 (applyImplications_fields _))). exact Hi.
  - rewrite !(proj1 (proj2 (proj2 (applyImplications_fields _)))). exact Hd.
Qed.

Ltac same_options cl :=
  apply configOf_ext; [reflexivity | reflexivity | reflexivity | reflexivity |];
  let m := fresh "m" in
  let H1 := fresh in let H2 := fresh in let H3 := fresh in
  intros m H1 H2 H3;
  apply String.eqb_neq in H1; apply String.eqb_neq in H2; apply String.eqb_neq in H3;
  rewrite !isSet_applyImplications, !isSet_setOption;
  eval_eqb; rewrite ?H1, ?H2, ?H3; cbn [orb andb];
  destruct (isSet cl "sync"), (isSet cl "sync-fast"), (isSet cl "update"),
    (isSet cl "diff-fast"); cbn [orb andb]; btauto.

(** X7.  The modes of a parsed command line: [--update] is never without
    [--new]; some mode is always active, [--diff] being the one when no
    other is asked for; and the destination-side fork filter is on only if
    [--ignore-forks-dst] itself was given, which no shortcut implies. *)
Theorem configOf_modes (cl : CommandLine) (cfg : Config) :
  configOf cl = Ok cfg ->
  (update cfg = true -> new_ cfg = true)
  /\ new_ cfg || delete_ cfg || update cfg || diff cfg = true
  /\ (new_ cfg || delete_ cfg || update cfg = false -> diff cfg = true)
  /\ ignoreForksDst (flags cfg) = isSet cl "ignore-forks-dst".
Proof.
  unfold configOf. destruct (cl_args cl) as [|src [|dst [|x l]]]; try discriminate.
  intros [= <-]. unfold optionsOf. cbn [update new_ delete_ diff flags ignoreForksDst].
  rewrite !isSet_applyImplications. eval_eqb. cbn [orb andb].
  rewrite !andb_false_r, !orb_false_r, ?andb_true_r.
  destruct (isSet cl "new"), (isSet cl "delete"), (isSet cl "update"), (isSet cl "sync"),
    (isSet cl "sync-fast"), (isSet cl "diff"), (isSet cl "diff-fast");
    cbn [orb andb negb]; repeat split; intros; congruence.
Qed.

Lemma configOf_modes_witness :
  let cl := mkCommandLine {["update"]} 1 [] [] [["src"]; ["dst"]] in
  let cfg := optionsOf (applyImplications cl) ["src"] ["dst"] in
  (update cfg = true -> new_ cfg = true)
  /\ new_ cfg || delete_ cfg || update cfg || diff cfg = true
  /\ (new_ cfg || delete_ cfg || update cfg = false -> diff cfg = true)
  /\ ignoreForksDst (flags cfg) = isSet cl "ignore-forks-dst".
Proof.
  intros cl cfg. exact (configOf_modes cl cfg eq_refl).
Defined.

(** X8.  The shortcuts stand for what their help texts say: [--sync] gives
    the options of [--new --delete --update], [--sync-fast] those of
    [--new --delete --update --ignore-forks --ignore-content --ignore-mtime
    --normalize-filenames], [--diff-fast] those of [--diff --ignore-forks
    --ignore-content --ignore-mtime --normalize-filenames], and [--update]
    those of [--new --update]. *)
Theorem shortcuts_expand (cl : CommandLine) :
  configOf (setOption "sync" cl)
  = configOf (setOption "update" (setOption "delete" (setOption "new" cl)))
  /\ configOf (setOption "sync-fast" cl)
     = configOf (setOption "normalize-filenames" (setOption "ignore-mtime"
                  (setOption "ignore-content" (setOption "ignore-forks"
                    (setOption "update" (setOption "delete" (setOption "new" cl)))))))
  /\ configOf (setOption "diff-fast" cl)
     = configOf (setOption "normalize-filenames" (setOption "ignore-mtime"
                  (setOption "ignore-content" (setOption "ignore-forks"
                    (setOption "diff" cl)))))
  /\ configOf (setOption "update" cl)
     = configOf (setOption "update" (setOption "new" cl)).
Proof. repeat split; same_options cl. Qed.

(** ** What a run does where it reports no difference *)


Section Guarded.

Context {FS : Type} `{Provider FS}.
Variable q : Event -> bool.
Variable R : Sys FS -> Sys FS -> Prop.
Hypothesis Rrefl : forall s, R s s.
Hypothesis Rtrans : forall a b c, R a b -> R b c -> R a c.
Variable params : Flags.
Variable cbs : Callbacks FS.

(** The callback of an event that [q] accepts keeps [R]. *)
Hypothesis HsrcOnly : forall f a b,
  cb_srcOnly cbs = Some f -> q (SrcOnly a b) = true -> keeps R (f a b params).
Hypothesis HdstOnly : forall f a b,
  cb_dstOnly cbs = Some f -> q (DstOnly a b) = true -> keeps R (f a b params).
Hypothesis Hmatch : forall f a b,
  cb_match cbs = Some f -> q (Match a b) = true -> keeps R (f a b params).
Hypothesis Hmismatch : forall f a b,
  cb_mismatch cbs = Some f -> q (Mismatch a b) = true -> keeps R (f a b params).
Hypothesis HtypeMismatch : forall f a b,
  cb_typeMismatch cbs = Some f -> q (TypeMismatch a b) = true -> keeps R (f a b params).
Hypothesis HprogressDirs : forall f a b,
  cb_progressDirs cbs = Some f -> q (ProgressDirs a b) = true -> keeps R (f a b params).
Hypothesis HprogressFiles : forall f a b,
  cb_progressFiles cbs = Some f -> q (ProgressFiles a b) = true -> keeps R (f a b params).
Hypothesis HignoredDir : forall f a,
  cb_ignoredDir cbs = Some f -> q (IgnoredDir a) = true -> keeps R (f a params).
Hypothesis HignoredFile : forall f a,
  cb_ignoredFile cbs = Some f -> q (IgnoredFile a) = true -> keeps R (f a params).

Lemma guarded_same {A} (m : M FS A) :
  (forall w r w', m w = (r, w') -> w' = w) -> guarded q R m.
Proof.
  intros Hsame w r w' Hrun. apply Hsame in Hrun. subst w'. exists [].
  rewrite List.app_nil_r. split; [reflexivity | intros _; apply Rrefl].
Qed.

Lemma guarded_ret {A} (a : A) : guarded q R (ret a).
Proof. apply guarded_same. unfold ret. intros w r w' [= _ <-]. reflexivity. Qed.

Lemma guarded_throw {A} (e : Error) : guarded q R (@throw _ A e).
Proof. apply guarded_same. unfold throw. intros w r w' [= _ <-]. reflexivity. Qed.

Lemma guarded_liftR {A} (x : Result A) : guarded q R (liftR x).
Proof. apply guarded_same. unfold liftR. intros w r w' [= _ <-]. reflexivity. Qed.

Lemma guarded_getFS : guarded q R getFS.
Proof. apply guarded_same. unfold getFS. intros w r w' [= _ <-]. reflexivity. Qed.

Lemma guarded_bind {A B} (m : M FS A) (k : A -> M FS B) :
  guarded q R m -> (forall a, guarded q R (k a)) -> guarded q R (bind m k).
Proof.
  intros Hm Hk w r w' Hrun. unfold bind in Hrun.
  destruct (m w) as [[a|e] w1] eqn:Hmw.
  - destruct (Hm _ _ _ Hmw) as (evs1 & Hev1 & Hq1).
    destruct (Hk a _ _ _ Hrun) as (evs2 & Hev2 & Hq2).
    exists (evs1 ++ evs2). split; [rewrite Hev2, Hev1, List.app_assoc; reflexivity|].
    rewrite List.forallb_app. intros Hnd. apply andb_true_iff in Hnd as [Hn1 Hn2].
    exact (Rtrans _ _ _ (Hq1 Hn1) (Hq2 Hn2)).
  - injection Hrun as <- <-. exact (Hm _ _ _ Hmw).
Qed.

(** A report with its callback. *)
Lemma guarded_report2 (ev : Event) cb (a b : path) :
  (forall f, cb = Some f -> q ev = true -> keeps R (f a b params)) ->
  guarded q R (bind (emit ev) (fun _ => call2 params cb a b)).
Proof.
  intros Hcb w r w' Hrun. exists [ev]. unfold bind, emit, modify in Hrun. simpl in Hrun.
  unfold call2 in Hrun. destruct cb as [f|].
  - unfold liftAct in Hrun. simpl in Hrun.
    destruct (f a b params (w_sys w)) as [r0 s1] eqn:Hf. injection Hrun as <- <-.
    split; [reflexivity|]. simpl. rewrite andb_true_r. intros Hq.
    exact (Hcb f eq_refl Hq _ _ _ Hf).
  - unfold ret in Hrun. injection Hrun as <- <-.
    split; [reflexivity | intros _; apply Rrefl].
Qed.

Lemma guarded_report1 (ev : Event) cb (a : path) :
  (forall f, cb = Some f -> q ev = true -> keeps R (f a params)) ->
  guarded q R (bind (emit ev) (fun _ => call1 params cb a)).
Proof.
  intros Hcb w r w' Hrun. exists [ev]. unfold bind, emit, modify in Hrun. simpl in Hrun.
  unfold call1 in Hrun. destruct cb as [f|].
  - unfold liftAct in Hrun. simpl in Hrun.
    destruct (f a params (w_sys w)) as [r0 s1] eqn:Hf. injection Hrun as <- <-.
    split; [reflexivity|]. simpl. rewrite andb_true_r. intros Hq.
    exact (Hcb f eq_refl Hq _ _ _ Hf).
  - unfold ret in Hrun. injection Hrun as <- <-.
    split; [reflexivity | intros _; apply Rrefl].
Qed.

Ltac gstep :=
  lazymatch goal with
  | |- guarded _ _ (ret _) => apply guarded_ret
  | |- guarded _ _ (throw _) => apply guarded_throw
  | |- guarded _ _ (liftR _) => apply guarded_liftR
  | |- guarded _ _ getFS => apply guarded_getFS
  | |- guarded _ _ (srcOnly _ _ _ _) =>
      apply guarded_report2; intros; eapply HsrcOnly; eassumption
  | |- guarded _ _ (dstOnly _ _ _ _) =>
      apply guarded_report2; intros; eapply HdstOnly; eassumption
  | |- guarded _ _ (match_ _ _ _ _) =>
      apply guarded_report2; intros; eapply Hmatch; eassumption
  | |- guarded _ _ (mismatch _ _ _ _) =>
      apply guarded_report2; intros; eapply Hmismatch; eassumption
  | |- guarded _ _ (typeMismatch _ _ _ _) =>
      apply guarded_report2; intros; eapply HtypeMismatch; eassumption
  | |- guarded _ _ (progressDirs _ _ _ _) =>
      apply guarded_report2; intros; eapply HprogressDirs; eassumption
  | |- guarded _ _ (progressFiles _ _ _ _) =>
      apply guarded_report2; intros; eapply HprogressFiles; eassumption
  | |- guarded _ _ (ignoredDir _ _ _) =>
      apply guarded_report1; intros; eapply HignoredDir; eassumption
  | |- guarded _ _ (ignoredFile _ _ _) =>
      apply guarded_report1; intros; eapply HignoredFile; eassumption
  | |- guarded _ _ (bind _ _) => apply guarded_bind; [|intros ?]
  | |- guarded _ _ (when ?c _) => unfold when; destruct c eqn:?
  | |- guarded _ _ (if ?c then _ else _) => destruct c eqn:?
  | |- guarded _ _ (match ?x with _ => _ end) => destruct x eqn:?
  | |- guarded _ _ (let _ := _ in _) => cbv zeta
  end.

Lemma guarded_compareEntries (rec : path -> path -> M FS bool) (es ed : path) :
  (forall s d, guarded q R (rec s d)) -> guarded q R (compareEntries params cbs rec es ed).
Proof. intros Hrec. unfold compareEntries. repeat gstep; apply Hrec. Qed.

Lemma guarded_walk (rec : path -> path -> M FS bool) (src dst : path) :
  (forall s d, guarded q R (rec s d)) ->
  forall srcmap dstmap nd, guarded q R (walk params cbs rec src dst srcmap dstmap nd).
Proof.
  intros Hrec.
  induction srcmap as [|[ks es] srcmap IHs]; induction dstmap as [|[kd ed] dstmap IHd];
    intros nd; simpl.
  - apply guarded_ret.
  - apply guarded_bind; [gstep | intros _; apply IHd].
  - apply guarded_bind; [gstep | intros _; apply IHs].
  - destruct (str_lt ks kd); [|destruct (str_lt kd ks)].
    + apply guarded_bind; [gstep | intros _; apply IHs].
    + apply guarded_bind; [gstep | intros _; apply IHd].
    + apply guarded_bind; [apply guarded_compareEntries; exact Hrec | intros same; apply IHs].
Qed.

Lemma guarded_processDir (n : nat) (src dst : path) :
  guarded q R (processDir params cbs n src dst).
Proof.
  revert src dst. induction n as [|n IH]; intros src dst; simpl.
  - apply guarded_throw.
  - apply guarded_bind; [gstep | intros _].
    apply guarded_bind; [unfold readSrcDir; repeat gstep | intros srcmap].
    apply guarded_bind; [unfold readDstDir; repeat gstep | intros dstmap].
    apply guarded_walk. exact IH.
Qed.

End Guarded.

Lemma on_match_reads_only {FS : Type} `{Provider FS} (cfg : Config) a b p :
  journals (FS := FS) own (fun _ => False) (on_match cfg a b p).
Proof.
  unfold on_match. apply journals_bind; [apply journals_actFS | intros fs].
  apply journals_bind; [repeat jstep | intros _].
  do 3 (apply journals_when; intros _).
  apply journals_when. unfold preserve. discriminate.
Qed.





(** The callbacks of [main] for matches and progress print nothing where no
    verbosity and no [--show-matches] is asked for. *)
Lemma process_silent {FS : Type} `{Provider FS} (fuel : nat) (cfg : Config) :
  verbose cfg = 0 -> showMatches cfg = false ->
  guarded unprinted silent (process (FS := FS) fuel cfg).
Proof.
  intros Hv Hm. unfold process. apply guarded_processDir.
  - intros s. reflexivity.
  - intros a b c H1 H2. unfold silent in *. congruence.
  - intros f a b _ Hq. discriminate Hq.
  - intros f a b _ Hq. discriminate Hq.
  - intros f a b [= <-] _ s r s'. unfold on_match. rewrite Hm, andb_false_r.
    unfold preserve, bind, actFS, when, ret.
    destruct (update cfg); [destruct (_ && _); [destruct (negb (dummyMode cfg))|]|];
      intros [= _ <-]; reflexivity.
  - intros f a b _ Hq. discriminate Hq.
  - intros f a b _ Hq. discriminate Hq.
  - intros f a b [= <-] _ s r s'. unfold on_progressDirs. rewrite Hv.
    unfold when, ret. simpl. intros [= _ <-]. reflexivity.
  - intros f a b [= <-] _ s r s'. unfold on_progressFiles. rewrite Hv.
    unfold when, ret. simpl. intros [= _ <-]. reflexivity.
  - intros f a _ Hq. discriminate Hq.
  - intros f a _ Hq. discriminate Hq.
Qed.

(** X10.  A plain comparison prints nothing for what matches: without
    verbosity and without [--show-matches], a run of the comparison that
    reports only matches and progress (no difference and no ignored entry)
    leaves the output as it was, in every mode and whether it returns or
    fails. *)
Theorem matches_print_nothing
    {FS : Type} `{Provider FS} (fuel : nat) (cfg : Config) (w : World FS) :
  verbose cfg = 0 -> showMatches cfg = false ->
  exists evs,
    w_events (snd (process fuel cfg w)) = w_events w ++ evs
    /\ (forallb unprinted evs = true ->
        s_out (w_sys (snd (process fuel cfg w))) = s_out (w_sys w)).
Proof.
  intros Hv Hm. destruct (process fuel cfg w) as [r w'] eqn:Hrun.
  exact (process_silent fuel cfg Hv Hm _ _ _ Hrun).
Qed.

Lemma matches_print_nothing_witness :
  let cfg0 := mkConfig 0 false false false false true false [] [] true true true true
                ["src"] ["dst"] Examples.flags0 in
  let w := mkWorld (start treeSame) [] in
  exists evs,
    w_events (snd (process 4 cfg0 w)) = w_events w ++ evs
    /\ (forallb unprinted evs = true ->
        s_out (w_sys (snd (process 4 cfg0 w))) = s_out (w_sys w)).
Proof.
  intros cfg0 w. exact (matches_print_nothing 4 cfg0 w eq_refl eq_refl).
Defined.

(** ** Where a run writes *)

Lemma under_refl (p : path) : under p p.
Proof. exists []. symmetry. apply List.app_nil_r. Qed.

Lemma under_trans (a b c : path) : under a b -> under b c -> under a c.
Proof. intros [r1 ->] [r2 ->]. exists (r1 ++ r2). symmetry. apply List.app_assoc. Qed.

Lemma under_append (d : path) (name : string) : under d (path_append d name).
Proof. exists [name]. reflexivity. Qed.


Section Below.

Context {FS : Type} `{Provider FS}.
Hypothesis Hlist : lists_children FS.

Lemma journals_bind_run {S A B} (proj : S -> Sys FS) (P : FsOp -> Prop)
    (m : ST S A) (k : A -> ST S B) :
  journals proj P m ->
  (forall a, (exists s s1, m s = (Ok a, s1)) -> journals proj P (k a)) ->
  journals proj P (bind m k).
Proof.
  intros Hm Hk s r s' Hrun. unfold bind in Hrun.
  destruct (m s) as [[a|e] s1] eqn:Hms.
  - destruct (Hm _ _ _ Hms) as (ops1 & Hops1 & Hall1 & Hfs1).
    assert (Hka : journals proj P (k a)) by (apply Hk; exists s, s1; exact Hms).
    destruct (Hka _ _ _ Hrun) as (ops2 & Hops2 & Hall2 & Hfs2).
    exists (ops1 ++ ops2). split; [rewrite Hops2, Hops1, List.app_assoc; reflexivity|].
    split; [apply List.Forall_app; split; assumption|].
    intros Hnil. apply List.app_eq_nil in Hnil as [-> ->].
    rewrite (Hfs2 eq_refl). exact (Hfs1 eq_refl).
  - injection Hrun as <- <-. exact (Hm _ _ _ Hms).
Qed.

Lemma journals_forEach_In {S A} (proj : S -> Sys FS) (P : FsOp -> Prop)
    (l : list A) (f : A -> ST S unit) :
  (forall x, In x l -> journals proj P (f x)) -> journals proj P (forEach l f).
Proof.
  induction l as [|x l IH]; intros Hf; simpl.
  - apply journals_ret.
  - apply journals_bind; [apply Hf; left; reflexivity | intros _].
    apply IH. intros y Hy. apply Hf. right. exact Hy.
Qed.

(** [removeRecursive dst] removes only [dst] and what is below it. *)
Lemma removeRecursive_under (fuel : nat) (dst : path) (verbose : bool)
    (verbosePrefix : string) (followSymlinks_ : bool) (dummyMode : bool) :
  journals own (fun op => dummyMode = false /\ exists p, op = OpRemove p /\ under dst p)
    (removeRecursive fuel dst verbose verbosePrefix followSymlinks_ dummyMode).
Proof.
  revert dst. induction fuel as [|fuel IH]; intros dst; simpl.
  - apply journals_throw.
  - apply journals_bind; [apply journals_actFS | intros fs].
    apply journals_bind; [|intros _].
    + destruct (fsIsDirectory fs dst false); [|apply journals_ret].
      apply journals_bind_run; [apply journals_liftR | intros entries (s & s1 & Hres)].
      unfold liftR in Hres. injection Hres as Hres _.
      apply journals_forEach_In. intros e Hin.
      destruct (Hlist _ _ _ _ Hres Hin) as [name ->].
      eapply journals_weaken; [|apply IH].
      intros op (Hd & p & -> & Hu). split; [exact Hd|]. exists p. split; [reflexivity|].
      eapply under_trans; [apply under_append | exact Hu].
    + repeat jstep. apply journals_perform. split.
      * destruct dummyMode; [discriminate | reflexivity].
      * exists dst. split; [reflexivity | apply under_refl].
Qed.

(** [copyRecursive src dstdir] writes only below [dstdir]. *)
Lemma copyRecursive_under (fuel : nat) (src dstdir : path) (opts : copy_options)
    (verbose : bool) (verbosePrefix : string) (params : Flags) (dummyMode : bool) :
  journals own (fun op => under dstdir (target op))
    (copyRecursive fuel src dstdir opts verbose verbosePrefix params dummyMode).
Proof.
  revert src dstdir. induction fuel as [|fuel IH]; intros src dstdir.
  - apply journals_throw.
  - rewrite copyRecursive_S.
    destruct (ignoreSrcFile (filename src) params) eqn:Hign; [apply journals_ret|].
    cbv zeta. apply journals_bind; [apply journals_actFS | intros fs].
    apply journals_bind.
    + apply journals_when. intros _.
      eapply journals_weaken; [|apply removeRecursive_under].
      intros op (_ & p & -> & Hu). simpl.
      eapply under_trans; [apply under_append | exact Hu].
    + intros _. unfold copyInto. repeat jstep.
      * eapply journals_weaken; [|apply mkDirs_journal].
        intros op [_ ->]. simpl. apply under_append.
      * eapply journals_weaken; [|apply IH].
        intros op Hu. eapply under_trans; [apply under_append | exact Hu].
      * apply journals_perform. simpl. apply under_append.
Qed.

Variable fuel : nat.
Variable cfg : Config.

Local Abbreviation W := (writes_below cfg).
Local Abbreviation cbs := (mainCallbacks fuel cfg).
Local Abbreviation params := (flags cfg).

Lemma prints_below {A} (d : path) (m : Act FS A) :
  journals own (fun _ => False) m -> journals own (W d) m.
Proof. apply journals_weaken. intros op []. Qed.

Lemma on_srcOnly_below es d p : journals own (W d) (on_srcOnly fuel cfg es d p).
Proof.
  unfold on_srcOnly. apply journals_bind; [|intros _].
  - apply journals_when. intros Hdiff.
    apply journals_bind; [apply prints_below, printDirectoryEntry_journal | intros _].
    apply journals_when. intros Hins. apply negb_true_iff in Hins.
    apply journals_bind; [|intros _].
    + eapply journals_weaken; [|apply mkDirs_journal].
      intros op [_ ->]. right. left. split; [exact Hdiff|].
      split; [exact Hins | apply under_refl].
    + eapply journals_weaken; [|apply copyRecursive_under].
      intros op Hu. right. left. split; [exact Hdiff | split; assumption].
  - apply journals_when. intros Hnew.
    eapply journals_weaken; [|apply copyRecursive_under].
    intros op Hu. left. split; [left; exact Hnew | exact Hu].
Qed.

Lemma on_dstOnly_below s d name p :
  journals own (W d) (on_dstOnly fuel cfg s (path_append d name) p).
Proof.
  unfold on_dstOnly. apply journals_bind; [|intros _].
  - apply journals_when. intros Hdiff.
    apply journals_bind; [apply prints_below, printDirectoryEntry_journal | intros _].
    apply journals_when. intros Hdel. apply negb_true_iff in Hdel.
    apply journals_bind; [|intros _].
    + eapply journals_weaken; [|apply mkDirs_journal].
      intros op [_ ->]. right. right. split; [exact Hdiff|].
      split; [exact Hdel | apply under_refl].
    + eapply journals_weaken; [|apply copyRecursive_under].
      intros op Hu. right. right. split; [exact Hdiff | split; assumption].
  - apply journals_when. intros Hdelete.
    eapply journals_weaken; [|apply removeRecursive_under].
    intros op (_ & q & -> & Hu). left. split; [right; left; exact Hdelete|]. simpl.
    eapply under_trans; [apply under_append | exact Hu].
Qed.

Lemma on_mismatch_below es d name p :
  journals own (W d) (on_mismatch fuel cfg es (path_append d name) p).
Proof.
  unfold on_mismatch. apply journals_bind; [apply prints_below; repeat jstep | intros _].
  apply journals_when. intros Hupd.
  apply journals_bind; [apply journals_actFS | intros fs].
  apply journals_when. intros _. rewrite parent_append.
  eapply journals_weaken; [|apply copyRecursive_under].
  intros op Hu. left. split; [right; right; exact Hupd | exact Hu].
Qed.

Lemma on_typeMismatch_below es d name p :
  journals own (W d) (on_typeMismatch fuel cfg es (path_append d name) p).
Proof.
  unfold on_typeMismatch. apply journals_bind; [apply prints_below; repeat jstep | intros _].
  apply journals_when. intros Hupd. rewrite parent_append.
  eapply journals_weaken; [|apply copyRecursive_under].
  intros op Hu. left. split; [right; right; exact Hupd | exact Hu].
Qed.

Ltac wnotify := apply journals_bind; [apply frame_emit | intros _; apply frame_liftAct].

Lemma compareEntries_below (rec : path -> path -> M FS bool) (es d : path) (name : string) :
  (forall s, journals w_sys (W d) (rec s (path_append d name))) ->
  journals w_sys (W d) (compareEntries params cbs rec es (path_append d name)).
Proof.
  intros Hrec. unfold compareEntries.
  repeat lazymatch goal with
    | |- journals _ _ getFS => apply frame_getFS
    | |- journals _ _ (match_ _ _ _ _) =>
        unfold match_; wnotify; apply prints_below, on_match_reads_only
    | |- journals _ _ (mismatch _ _ _ _) => unfold mismatch; wnotify; apply on_mismatch_below
    | |- journals _ _ (typeMismatch _ _ _ _) =>
        unfold typeMismatch; wnotify; apply on_typeMismatch_below
    | |- journals _ _ (progressFiles _ _ _ _) =>
        unfold progressFiles; wnotify; apply prints_below;
        unfold on_progressFiles; repeat jstep
    | |- journals _ _ (ignoredDir _ _ _) =>
        unfold ignoredDir; wnotify; apply prints_below; unfold on_ignoredDir; repeat jstep
    | |- journals _ _ (ignoredFile _ _ _) =>
        unfold ignoredFile; wnotify; apply prints_below; unfold on_ignoredFile; repeat jstep
    | |- journals _ _ (rec _ _) => apply Hrec
    | |- journals _ _ (match ?x with _ => _ end) => destruct x eqn:?
    | |- _ => jstep
    end.
Qed.

Lemma walk_below (rec : path -> path -> M FS bool) (src d : path) :
  (forall s name, journals w_sys (W d) (rec s (path_append d name))) ->
  forall srcmap dstmap nd,
    (forall k e, In (k, e) dstmap -> exists name, e = path_append d name) ->
    journals w_sys (W d) (walk params cbs rec src d srcmap dstmap nd).
Proof.
  intros Hrec.
  assert (Hsrc : forall es, journals w_sys (W d) (srcOnly params cbs es d)).
  { intros es. unfold srcOnly. wnotify. apply on_srcOnly_below. }
  assert (Hdst : forall name, journals w_sys (W d) (dstOnly params cbs src (path_append d name))).
  { intros name. unfold dstOnly. wnotify. apply on_dstOnly_below. }
  induction srcmap as [|[ks es] srcmap IHs]; induction dstmap as [|[kd ed] dstmap IHd];
    intros nd Hch; simpl.
  - apply journals_ret.
  - destruct (Hch kd ed (or_introl eq_refl)) as [name ->].
    apply journals_bind; [apply Hdst | intros _].
    apply IHd. intros k e Hin. apply (Hch k e). right. exact Hin.
  - apply journals_bind; [apply Hsrc | intros _; apply IHs; exact Hch].
  - destruct (Hch kd ed (or_introl eq_refl)) as [name ->].
    assert (Hch' : forall k e, In (k, e) dstmap -> exists name, e = path_append d name).
    { intros k e Hin. apply (Hch k e). right. exact Hin. }
    destruct (str_lt ks kd); [|destruct (str_lt kd ks)].
    + apply journals_bind; [apply Hsrc | intros _; apply IHs; exact Hch].
    + apply journals_bind; [apply Hdst | intros _; apply IHd; exact Hch'].
    + apply journals_bind; [apply compareEntries_below; intros s; apply Hrec | intros same].
      apply IHs. exact Hch'.
Qed.

Lemma processDir_below (n : nat) (src d : path) :
  journals w_sys (W d) (processDir params cbs n src d).
Proof.
  revert src d. induction n as [|n IH]; intros src d; simpl.
  - apply journals_throw.
  - apply journals_bind.
    { unfold progressDirs. wnotify. apply prints_below. unfold on_progressDirs. repeat jstep. }
    intros _. apply journals_bind.
    { unfold readSrcDir.
      apply journals_bind; [apply frame_getFS | intros fs].
      apply journals_bind; [apply journals_liftR | intros l; apply journals_ret]. }
    intros srcmap. apply journals_bind_run.
    { unfold readDstDir.
      apply journals_bind; [apply frame_getFS | intros fs].
      destruct (fsExists fs d); [|apply journals_ret].
      apply journals_bind; [apply journals_liftR | intros l; apply journals_ret]. }
    intros dstmap (w & w1 & Hread). apply walk_below.
    + intros s name. eapply journals_weaken; [|apply IH].
      intros op [[Hmode Hu]|Hside]; [left; split; [exact Hmode|] | right; exact Hside].
      eapply under_trans; [apply under_append | exact Hu].
    + intros k e Hin. unfold readDstDir, bind, getFS, liftR, ret in Hread.
      destruct (fsExists (s_fs (w_sys w)) d); [|injection Hread as <- _; destruct Hin].
      destruct (directory_iterator (s_fs (w_sys w)) d) as [entries|err] eqn:Hit;
        [|discriminate].
      injection Hread as <- _. apply fillMap_slot in Hin as (_ & Hin & _).
      exact (Hlist _ _ _ _ Hit Hin).
Qed.

Lemma treesync_below : journals own (W (dstdir cfg)) (treesync fuel cfg).
Proof.
  unfold treesync.
  apply journals_bind; [apply journals_actFS | intros fs].
  apply journals_bind.
  { apply journals_when. intros Hc. eapply journals_weaken; [|apply mkDirs_journal].
    intros op [_ ->]. left. split; [|apply under_refl].
    left. destruct (new_ cfg); [reflexivity | discriminate Hc]. }
  intros _.
  repeat lazymatch goal with
    | |- journals _ _ (runTreeDiff _) =>
        apply frame_runTreeDiff; apply processDir_below
    | |- _ => jstep
    end.
Qed.

End Below.

(** The in-memory provider lists children. *)
Lemma memfs_lists_children : lists_children MemFs.fs.
Proof.
  intros t d entries e Hit Hin. cbn [directory_iterator provider] in Hit.
  destruct (isDir (resolve 8 t d)); [|discriminate Hit]. injection Hit as <-.
  unfold children in Hin. apply List.filter_In in Hin as [_ Hq].
  apply bool_decide_eq_true in Hq as [Hne Hpar].
  exists (List.last e ""). unfold path_append. rewrite <- Hpar.
  apply List.app_removelast_last. exact Hne.
Qed.

(** X11.  A run writes only where it is told to: with a provider whose
    directory listings yield entries of the listed directory, every mutating
    call of a run, whether the run returns or fails, changes DSTDIR or a
    path below it, and this in a run with [--new], [--delete] or [--update]
    only, or, in a run with [--diff], the directory given to [--copy-ins]
    or to [--copy-del] or a path below these. *)
Theorem writes_stay_below_destinations
    {FS : Type} `{Provider FS} (fuel : nat) (cfg : Config) (s : Sys FS) :
  lists_children FS ->
  exists ops,
    s_ops (snd (treesync fuel cfg s)) = s_ops s ++ ops
    /\ Forall (writes_below cfg (dstdir cfg)) ops.
Proof.
  intros Hlist.
  destruct (journal_of_run (writes_below cfg (dstdir cfg)) (treesync fuel cfg) s
              (treesync_below Hlist fuel cfg)) as (ops & Hops & Hall & _).
  exists ops. split; assumption.
Qed.

Lemma writes_stay_below_destinations_witness :
  exists ops,
    s_ops (snd (treesync 4 (Examples.cfgSync false) (start Examples.tree1)))
    = s_ops (start Examples.tree1) ++ ops
    /\ Forall (writes_below (Examples.cfgSync false) ["dst"]) ops.
Proof.
  exact (writes_stay_below_destinations 4 (Examples.cfgSync false) (start Examples.tree1)
           memfs_lists_children).
Defined.







(** ** The roots of a run *)

(** X15.  Roots that are no directories are rejected before anything is
    done: without [--create-missing-dst], if SRCDIR or DSTDIR does not exist
    or is not a directory, the run ends with the error of
    [reportErrorAndExit] and the state is the one before: nothing is
    compared, printed or changed. *)
Theorem bad_roots_are_rejected
    {FS : Type} `{Provider FS} (fuel : nat) (cfg : Config) (s : Sys FS) :
  createMissingDst cfg = false ->
  fsExists (s_fs s) (srcdir cfg)
  && fsIsDirectory (s_fs s) (srcdir cfg) (followSymlinks (flags cfg))
  && fsExists (s_fs s) (dstdir cfg)
  && fsIsDirectory (s_fs s) (dstdir cfg) (followSymlinks (flags cfg)) = false ->
  exists msg, treesync fuel cfg s = (Err (ExitError msg), s).
Proof.
  intros Hc Hbad. unfold treesync, bind, actFS. cbv beta iota.
  rewrite Hc, !andb_false_r. unfold when, throw, ret. cbn [negb andb].
  destruct (fsExists (s_fs s) (srcdir cfg)); cbn [negb andb]; [|eexists; reflexivity].
  destruct (fsIsDirectory (s_fs s) (srcdir cfg) _); cbn [negb andb]; [|eexists; reflexivity].
  destruct (fsExists (s_fs s) (dstdir cfg)); cbn [negb andb]; [|eexists; reflexivity].
  destruct (fsIsDirectory (s_fs s) (dstdir cfg) _); cbn [negb andb]; [|eexists; reflexivity].
  discriminate Hbad.
Qed.

Lemma bad_roots_are_rejected_witness :
  exists msg,
    treesync 4 Examples.cfgDiff (start Examples.tree2)
    = (Err (ExitError msg), start Examples.tree2).
Proof.
  apply (bad_roots_are_rejected 4 Examples.cfgDiff (start Examples.tree2)).
  - reflexivity.
  - vm_compute. reflexivity.
Defined.

(** ** [--ignore-dirs] *)

Section IgnoreDirs.

Context {FS : Type} `{Provider FS}.
Variable params : Flags.
Variable cbs : Callbacks FS.
Hypothesis Hign : ignoreDirs params = true.

Lemma bind_ext {S A B} (m : ST S A) (k k' : A -> ST S B) (s : S) :
  (forall a s1, k a s1 = k' a s1) -> bind m k s = bind m k' s.
Proof. intros Hk. unfold bind. destruct (m s) as [[a|e] s1]; [apply Hk | reflexivity]. Qed.

Lemma compareEntries_ignores_rec (rec rec' : path -> path -> M FS bool) (es ed : path)
    (w : World FS) :
  compareEntries params cbs rec es ed w = compareEntries params cbs rec' es ed w.
Proof.
  unfold compareEntries. apply bind_ext. intros fs w1.
  destruct (negb (FileType_eqb _ _)); [reflexivity|].
  apply bind_ext. intros [] w2. apply bind_ext. intros fs2 w3.
  destruct (getFileType fs es (followSymlinks params)); try reflexivity.
  rewrite Hign. reflexivity.
Qed.

Lemma walk_ignores_rec (rec rec' : path -> path -> M FS bool) (src dst : path) :
  forall srcmap dstmap nd w,
    walk params cbs rec src dst srcmap dstmap nd w
    = walk params cbs rec' src dst srcmap dstmap nd w.
Proof.
  induction srcmap as [|[ks es] srcmap IHs]; induction dstmap as [|[kd ed] dstmap IHd];
    intros nd w; simpl.
  - reflexivity.
  - unfold bind. destruct (dstOnly params cbs src ed w) as [[[]|e] w1]; [apply IHd | reflexivity].
  - unfold bind. destruct (srcOnly params cbs es dst w) as [[[]|e] w1]; [apply IHs | reflexivity].
  - destruct (str_lt ks kd); [|destruct (str_lt kd ks)].
    + unfold bind. destruct (srcOnly params cbs es dst w) as [[[]|e] w1];
        [apply IHs | reflexivity].
    + unfold bind. destruct (dstOnly params cbs src ed w) as [[[]|e] w1];
        [apply IHd | reflexivity].
    + unfold bind. rewrite (compareEntries_ignores_rec rec rec').
      destruct (compareEntries params cbs rec' es ed w) as [[same|e] w1];
        [apply IHs | reflexivity].
Qed.

End IgnoreDirs.

(** X16.  With [--ignore-dirs] the comparator never descends: a run of
    [processDir] at any depth bound is the run at depth one, so that only the
    two directories given are read, however deep the trees are. *)
Theorem ignoreDirs_never_descends
    {FS : Type} `{Provider FS} (params : Flags) (cbs : Callbacks FS) (n : nat)
    (src dst : path) (w : World FS) :
  ignoreDirs params = true ->
  processDir params cbs (S n) src dst w = processDir params cbs 1 src dst w.
Proof.
  intros Hign. simpl. unfold bind.
  destruct (progressDirs params cbs src dst w) as [[[]|e] w1]; [|reflexivity].
  destruct (readSrcDir params src w1) as [[srcmap|e] w2]; [|reflexivity].
  destruct (readDstDir params dst w2) as [[dstmap|e] w3]; [|reflexivity].
  apply walk_ignores_rec. exact Hign.
Qed.

Lemma ignoreDirs_never_descends_witness :
  let w := mkWorld (start Examples.tree1) [] in
  processDir flagsD (mainCallbacks 4 Examples.cfgDiff) 4 ["src"] ["dst"] w
  = processDir flagsD (mainCallbacks 4 Examples.cfgDiff) 1 ["src"] ["dst"] w.
Proof.
  intros w.
  exact (ignoreDirs_never_descends flagsD (mainCallbacks 4 Examples.cfgDiff) 3
           ["src"] ["dst"] w eq_refl).
Defined.

(** ** Entries of other kinds *)

(** X17.  Entries of one name and different type are one event: the
    comparator emits exactly one [TypeMismatch] for the pair and counts it
    as a difference, whatever the callbacks do; it reports no progress for
    the pair, compares no content and does not descend where one of the two
    is a directory. *)
Theorem different_types_are_one_event
    {FS : Type} `{Provider FS} (params : Flags) (cbs : Callbacks FS)
    (rec : path -> path -> M FS bool) (es ed : path) (w : World FS) :
  getFileType (s_fs (w_sys w)) es (followSymlinks params)
  <> getFileType (s_fs (w_sys w)) ed (followSymlinks params) ->
  exists r w',
    compareEntries params cbs rec es ed w = (r, w')
    /\ w_events w' = w_events w ++ [TypeMismatch es ed]
    /\ (forall b, r = Ok b -> b = false).
Proof.
  intros Hne. unfold compareEntries, bind at 1. unfold getFS at 1. cbv beta iota.
  destruct (FileType_eqb _ _) eqn:Heq; [apply FileType_eqb_eq in Heq; contradiction|].
  cbn [negb]. unfold bind at 1.
  destruct (typeMismatch params cbs es ed w) as [[[]|e] w1] eqn:Hm;
    apply typeMismatch_events in Hm; eexists; eexists;
    (split; [reflexivity|]); (split; [exact Hm|]); intros b; unfold ret; congruence.
Qed.

Lemma different_types_are_one_event_witness :
  let w := mkWorld (start Examples.tree4) [] in
  exists r w',
    compareEntries Examples.flags0 (mainCallbacks 4 Examples.cfgDiff)
      (processDir Examples.flags0 (mainCallbacks 4 Examples.cfgDiff) 3)
      ["src"; "x"] ["dst"; "x"] w = (r, w')
    /\ w_events w' = w_events w ++ [TypeMismatch ["src"; "x"] ["dst"; "x"]]
    /\ (forall b, r = Ok b -> b = false).
Proof.
  intros w.
  apply (different_types_are_one_event Examples.flags0 (mainCallbacks 4 Examples.cfgDiff)).
  vm_compute. discriminate.
Defined.

(** X18.  Two entries of one name and of one kind that is neither regular
    file nor directory differ only by link target or device number: after
    the progress event the comparator emits [Mismatch] for two symbolic
    links with different targets and, unless special files are ignored, for
    two block or two character devices with different device numbers;
    otherwise two [IgnoredFile] events where the kind is ignored (special
    files under [--ignore-special], entries that vanished) and [Match] in
    every other case, fifos and sockets among them; the pair counts as a
    difference in the [Mismatch] case only.  (The progress callback is one
    that only reports, as the one of [main].) *)
Theorem other_kinds_differ_by_target_or_device
    {FS : Type} `{Provider FS} (params : Flags) (cbs : Callbacks FS)
    (rec : path -> path -> M FS bool) (es ed : path) (type : FileType)
    (w w' : World FS) (b : bool) :
  quiet_cb2 (cb_progressFiles cbs) ->
  getFileType (s_fs (w_sys w)) es (followSymlinks params) = type ->
  getFileType (s_fs (w_sys w)) ed (followSymlinks params) = type ->
  type <> FT_REGULAR -> type <> FT_DIR ->
  compareEntries params cbs rec es ed w = (Ok b, w') ->
  let fs := s_fs (w_sys w) in
  let differs :=
    match type with
    | FT_SYMLINK => negb (String.eqb (read_symlink fs es) (read_symlink fs ed))
    | FT_BLOCK | FT_CHAR =>
        negb (ignoreSpecial params) && negb (N.eqb (getRDev fs es) (getRDev fs ed))
    | _ => false
    end in
  let ignored :=
    match type with
    | FT_FIFO | FT_SOCKET | FT_BLOCK | FT_CHAR => ignoreSpecial params
    | FT_NON_EXISTING => true
    | _ => false
    end in
  b = negb differs
  /\ w_events w' =
       w_events w ++ ProgressFiles es ed ::
         (if differs then [Mismatch es ed]
          else if ignored then [IgnoredFile es; IgnoredFile ed]
          else [Match es ed]).
Proof.
  intros Hq Hs Hd Hreg Hdir Hrun fs differs ignored. subst differs ignored fs.
  destruct (progressFiles_quiet params cbs es ed w Hq) as (w1 & Hp & Hev1 & Hfs1).
  unfold compareEntries in Hrun.
  apply bind_Ok in Hrun. destruct Hrun as (fs0 & w0 & Hget & Hrun).
  apply getFS_run in Hget as [-> [= ->]].
  rewrite Hs, Hd in Hrun.
  assert (Hrefl : FileType_eqb type type = true) by (apply FileType_eqb_eq; reflexivity).
  assert (Hnd : FileType_eqb type FT_DIR = false).
  { destruct (FileType_eqb type FT_DIR) eqn:E; [|reflexivity].
    apply FileType_eqb_eq in E. contradiction. }
  rewrite Hrefl, Hnd in Hrun. cbn [negb when] in Hrun.
  apply bind_Ok in Hrun. destruct Hrun as ([] & w2 & Hp' & Hrun).
  rewrite Hp in Hp'. injection Hp' as <-.
  apply bind_Ok in Hrun. destruct Hrun as (fs1 & w3 & Hget & Hrun).
  apply getFS_run in Hget as [-> [= ->]]. rewrite Hfs1 in Hrun.
  destruct type; try contradiction; cbv beta iota in Hrun |- *;
    repeat match type of Hrun with
      | context [if negb ?c then _ else _] => destruct c; cbn [negb andb] in Hrun |- *
      | context [if ?c then _ else _] => destruct c; cbn [negb andb] in Hrun |- *
      end;
    st_inv Hrun;
    repeat match goal with
      | Hm : match_ _ _ _ _ _ = _ |- _ => apply match_events in Hm
      | Hm : mismatch _ _ _ _ _ = _ |- _ => apply mismatch_events in Hm
      | Hm : ignoredFile _ _ _ _ = _ |- _ => apply ignoredFile_events in Hm
      end;
    (split; [reflexivity|]);
    repeat match goal with
      | Hev : w_events ?x = _ |- context [w_events ?x] => rewrite Hev; clear Hev
      end;
    rewrite <- ?List.app_assoc; reflexivity.
Qed.

Lemma other_kinds_differ_by_target_or_device_witness :
  let w := mkWorld (start treeLinks) [] in
  let run := compareEntries Examples.flags0 noCallbacks
               (processDir Examples.flags0 noCallbacks 3) ["src"; "l"] ["dst"; "l"] w in
  fst run = Ok false
  /\ w_events (snd run)
     = [ProgressFiles ["src"; "l"] ["dst"; "l"]; Mismatch ["src"; "l"] ["dst"; "l"]].
Proof.
  intros w run.
  assert (Hrun : fst run = Ok false) by (vm_compute; reflexivity).
  split; [exact Hrun|].
  refine (proj2 (other_kinds_differ_by_target_or_device Examples.flags0 noCallbacks
                   _ ["src"; "l"] ["dst"; "l"] FT_SYMLINK w (snd run) false
                   _ _ _ _ _ (run_Ok _ _ _ Hrun))).
  - intros f a b p E. discriminate E.
  - reflexivity.
  - reflexivity.
  - discriminate.
  - discriminate.
Defined.

(** ** What the maps hold *)

Section FillMapKeys.

Context {FS : Type} `{Provider FS}.
Variable params : Flags.
Variable ignoreFile : string -> Flags -> bool.

Lemma fold_step_keys (entries : list path) (acc : smap) (k : string) :
  In k (smap_keys (List.fold_left (fillStep params ignoreFile) entries acc)) <->
  In k (smap_keys acc)
  \/ exists e, In e entries /\ ignoreFile (filename e) params = false /\ keyOf params e = k.
Proof.
  revert acc. induction entries as [|e l IH]; simpl; intros acc.
  - split; [intros Hk; left; exact Hk | intros [Hk|(e & [] & _)]; exact Hk].
  - rewrite IH. unfold fillStep. destruct (ignoreFile (filename e) params) eqn:Hign.
    + split.
      * intros [Hk|(e' & Hin & Hi & Hk)]; [left; exact Hk|].
        right. exists e'. split; [right; exact Hin | split; assumption].
      * intros [Hk|(e' & [<-|Hin] & Hi & Hk)]; [left; exact Hk | congruence |].
        right. exists e'. split; [exact Hin | split; assumption].
    + rewrite smap_set_keys. split.
      * intros [[->|Hk]|(e' & Hin & Hi & Hk)].
        -- right. exists e. split; [left; reflexivity | split; [exact Hign | reflexivity]].
        -- left. exact Hk.
        -- right. exists e'. split; [right; exact Hin | split; assumption].
      * intros [Hk|(e' & [<-|Hin] & Hi & Hk)].
        -- left. right. exact Hk.
        -- left. left. symmetry. exact Hk.
        -- right. exists e'. split; [exact Hin | split; assumption].
Qed.

(** Every name that passes the filter has its key in the map. *)
Lemma fillMap_finds_key (entries : list path) (e : path) :
  In e entries -> ignoreFile (filename e) params = false ->
  exists e', smap_find (keyOf params e) (fillMap params ignoreFile entries) = Some e'
             /\ In e' entries /\ ignoreFile (filename e') params = false
             /\ keyOf params e' = keyOf params e.
Proof.
  intros Hin Hi.
  assert (Hkey : In (keyOf params e) (smap_keys (fillMap params ignoreFile entries))).
  { rewrite fillMap_fold. apply fold_step_keys. right. exists e.
    split; [exact Hin | split; [exact Hi | reflexivity]]. }
  unfold smap_keys in Hkey. apply List.in_map_iff in Hkey as ([k e'] & Hk & Hslot).
  simpl in Hk. subst k. exists e'.
  split; [apply smap_In_find; [apply fillMap_sorted | exact Hslot]|].
  apply fillMap_slot in Hslot as (Hk & He & Hi'). repeat split; auto.
Qed.

End FillMapKeys.

(** X19.  The map the comparator fills from a directory listing, on either
    side: its keys ascend strictly; every slot holds an entry of the listing
    that passes the fork filter, under the key of that entry (its file name,
    normalized if asked for); every entry that passes the filter has its key
    in the map, held by an entry of the same key; an entry that the filter
    rejects is in no slot; and where the entries that pass have distinct
    keys, as the names of one directory have without normalization, each of
    them is in its own slot: none is lost. *)
Theorem fillMap_keeps_what_passes
    {FS : Type} `{Provider FS} (params : Flags) (ignoreFile : string -> Flags -> bool)
    (entries : list path) :
  let map := fillMap params ignoreFile entries in
  let passes := fun e => In e entries /\ ignoreFile (filename e) params = false in
  smap_sorted map
  /\ (forall k e, In (k, e) map -> passes e /\ k = keyOf params e)
  /\ (forall e, passes e ->
        exists e', smap_find (keyOf params e) map = Some e'
                   /\ passes e' /\ keyOf params e' = keyOf params e)
  /\ (forall e, ignoreFile (filename e) params = true -> ~ In e (smap_values map))
  /\ ((forall e1 e2, passes e1 -> passes e2 -> keyOf params e1 = keyOf params e2 -> e1 = e2) ->
      forall e, passes e -> smap_find (keyOf params e) map = Some e).
Proof.
  intros map passes. split; [apply fillMap_sorted|]. split; [|split; [|split]].
  - intros k e Hin. apply fillMap_slot in Hin as (Hk & He & Hi). repeat split; assumption.
  - intros e [Hin Hi].
    destruct (fillMap_finds_key params ignoreFile entries e Hin Hi)
      as (e' & Hfind & Hin' & Hi' & Hk).
    exists e'. repeat split; assumption.
  - intros e Hi Hval. unfold smap_values in Hval.
    apply List.in_map_iff in Hval as ([k e'] & He & Hslot). simpl in He. subst e'.
    apply fillMap_slot in Hslot as (_ & _ & Hi'). congruence.
  - intros Hdistinct e [Hin Hi].
    destruct (fillMap_finds_key params ignoreFile entries e Hin Hi)
      as (e' & Hfind & Hin' & Hi' & Hk).
    assert (Heq : e' = e)
      by (apply Hdistinct; [split; assumption | split; assumption | exact Hk]).
    rewrite Heq in Hfind. exact Hfind.
Qed.

(** ** Every difference shows in the output *)

Section Output.

Context {FS : Type} `{Provider FS}.

Lemma appends_same {A} (m : Act FS A) :
  (forall s r s', m s = (r, s') -> s_out s' = s_out s) -> appends m.
Proof.
  intros Hsame s r s' Hrun. exists []. rewrite List.app_nil_r. exact (Hsame _ _ _ Hrun).
Qed.

Lemma appends_ret {A} (a : A) : appends (FS := FS) (ret a).
Proof. apply appends_same. unfold ret. intros s r s' [= _ <-]. reflexivity. Qed.

Lemma appends_throw {A} (e : Error) : appends (FS := FS) (@throw _ A e).
Proof. apply appends_same. unfold throw. intros s r s' [= _ <-]. reflexivity. Qed.

Lemma appends_liftR {A} (x : Result A) : appends (FS := FS) (liftR x).
Proof. apply appends_same. unfold liftR. intros s r s' [= _ <-]. reflexivity. Qed.

Lemma appends_actFS : appends (@actFS FS).
Proof. apply appends_same. unfold actFS. intros s r s' [= _ <-]. reflexivity. Qed.

Lemma appends_print (line : string) : appends (@print FS line).
Proof. intros s r s'. unfold print, modify. intros [= _ <-]. exists [line]. reflexivity. Qed.

Lemma appends_perform (op : FsOp) : appends (FS := FS) (perform op).
Proof.
  apply appends_same. intros s r s'. unfold perform.
  destruct (match op with
            | OpCreateDirectories dir => create_directories (s_fs s) dir
            | OpRemove p => fs_remove (s_fs s) p
            | OpCopy src dst opts => fs_copy (s_fs s) src dst opts
            | OpSetLastWriteTime p t follow => setLastWriteTime (s_fs s) p t follow
            end); intros [= _ <-]; reflexivity.
Qed.

Lemma appends_bind {A B} (m : Act FS A) (k : A -> Act FS B) :
  appends m -> (forall a, appends (k a)) -> appends (bind m k).
Proof.
  intros Hm Hk s r s' Hrun. unfold bind in Hrun.
  destruct (m s) as [[a|e] s1] eqn:Hms.
  - destruct (Hm _ _ _ Hms) as (l1 & Hl1). destruct (Hk a _ _ _ Hrun) as (l2 & Hl2).
    exists (l1 ++ l2). rewrite Hl2, Hl1, List.app_assoc. reflexivity.
  - injection Hrun as <- <-. exact (Hm _ _ _ Hms).
Qed.

Lemma appends_when (c : bool) (m : Act FS unit) : appends m -> appends (when c m).
Proof. intros Hm. unfold when. destruct c; [exact Hm | apply appends_ret]. Qed.

Lemma appends_forEach {A} (l : list A) (f : A -> Act FS unit) :
  (forall x, appends (f x)) -> appends (forEach l f).
Proof.
  intros Hf. induction l as [|x l IH]; simpl.
  - apply appends_ret.
  - apply appends_bind; [apply Hf | intros _; exact IH].
Qed.

Ltac astep :=
  lazymatch goal with
  | |- appends (ret _) => apply appends_ret
  | |- appends (throw _) => apply appends_throw
  | |- appends (liftR _) => apply appends_liftR
  | |- appends actFS => apply appends_actFS
  | |- appends (print _) => apply appends_print
  | |- appends (perform _) => apply appends_perform
  | |- appends (bind _ _) => apply appends_bind; [|intros ?]
  | |- appends (when _ _) => apply appends_when
  | |- appends (forEach _ _) => apply appends_forEach; intros ?
  | |- appends (if ?c then _ else _) => destruct c
  | |- appends (let _ := _ in _) => cbv zeta
  end.

Lemma mkDirs_appends dir verbose verbosePrefix dummyMode :
  appends (FS := FS) (mkDirs dir verbose verbosePrefix dummyMode).
Proof. unfold mkDirs. repeat astep. Qed.

Lemma removeRecursive_appends fuel dst verbose verbosePrefix follow dummyMode :
  appends (FS := FS) (removeRecursive fuel dst verbose verbosePrefix follow dummyMode).
Proof.
  revert dst. induction fuel as [|fuel IH]; intros dst; simpl.
  - apply appends_throw.
  - repeat astep. apply IH.
Qed.

Lemma copyRecursive_appends fuel src dstdir opts verbose verbosePrefix params dummyMode :
  appends (FS := FS)
    (copyRecursive fuel src dstdir opts verbose verbosePrefix params dummyMode).
Proof.
  revert src dstdir. induction fuel as [|fuel IH]; intros src dstdir.
  - apply appends_throw.
  - rewrite copyRecursive_S.
    destruct (ignoreSrcFile (filename src) params); [apply appends_ret|].
    cbv zeta. apply appends_bind; [apply appends_actFS | intros fs].
    apply appends_bind; [apply appends_when, removeRecursive_appends | intros _].
    unfold copyInto.
    repeat lazymatch goal with
      | |- appends (mkDirs _ _ _ _) => apply mkDirs_appends
      | |- appends (copyRecursive _ _ _ _ _ _ _ _) => apply IH
      | |- _ => astep
      end.
Qed.

Lemma printDirectoryEntry_appends fuel entry prefix suffix params recursive src :
  appends (FS := FS) (printDirectoryEntry fuel entry prefix suffix params recursive src).
Proof.
  revert entry. induction fuel as [|fuel IH]; intros entry; simpl.
  - apply appends_throw.
  - repeat astep. apply IH.
Qed.

(** An entry that passes the filter is printed if the listing returns. *)
Lemma printDirectoryEntry_speaks fuel entry prefix suffix params recursive (src : bool) :
  (if src then ignoreSrcFile (filename entry) params
   else ignoreDstFile (filename entry) params) = false ->
  speaks (FS := FS) (printDirectoryEntry fuel entry prefix suffix params recursive src).
Proof.
  intros Hpass s a s' Hrun. destruct fuel as [|fuel]; [discriminate Hrun|].
  simpl in Hrun. rewrite Hpass in Hrun.
  unfold bind at 1 in Hrun. unfold actFS at 1 in Hrun. cbv beta iota in Hrun.
  unfold bind at 1 in Hrun. unfold print at 1, modify in Hrun. cbv beta iota in Hrun.
  match type of Hrun with
  | ?m ?s1 = _ =>
      assert (Hrest : appends (FS := FS) m)
  end.
  { repeat astep. apply printDirectoryEntry_appends. }
  destruct (Hrest _ _ _ Hrun) as (lines & Hl). simpl in Hl.
  eexists. exists lines. rewrite Hl, <- List.app_assoc. reflexivity.
Qed.

Lemma speaks_bind_l {A B} (m : Act FS A) (k : A -> Act FS B) :
  speaks m -> (forall a, appends (k a)) -> speaks (bind m k).
Proof.
  intros Hm Hk s b s' Hrun. apply bind_Ok in Hrun as (a & s1 & Hms & Hks).
  destruct (Hm _ _ _ Hms) as (line & l1 & Hl1). destruct (Hk a _ _ _ Hks) as (l2 & Hl2).
  exists line, (l1 ++ l2). rewrite Hl2, Hl1, <- List.app_assoc. reflexivity.
Qed.

Lemma speaks_print (line : string) : speaks (@print FS line).
Proof.
  intros s a s'. unfold print, modify. intros [= _ <-]. exists line, []. reflexivity.
Qed.

Variable fuel : nat.
Variable cfg : Config.
Hypothesis Hdiff : diff cfg = true.

Local Abbreviation cbs := (mainCallbacks fuel cfg).
Local Abbreviation params := (flags cfg).

Ltac amain :=
  repeat lazymatch goal with
    | |- appends (mkDirs _ _ _ _) => apply mkDirs_appends
    | |- appends (copyRecursive _ _ _ _ _ _ _ _) => apply copyRecursive_appends
    | |- appends (removeRecursive _ _ _ _ _ _) => apply removeRecursive_appends
    | |- appends (printDirectoryEntry _ _ _ _ _ _ _) => apply printDirectoryEntry_appends
    | |- _ => astep
    end.

Lemma on_srcOnly_appends a b p : appends (on_srcOnly fuel cfg a b p).
Proof. unfold on_srcOnly. amain. Qed.
Lemma on_dstOnly_appends a b p : appends (on_dstOnly fuel cfg a b p).
Proof. unfold on_dstOnly. amain. Qed.
Lemma on_match_appends a b p : appends (FS := FS) (on_match cfg a b p).
Proof. unfold on_match. amain. Qed.
Lemma on_mismatch_appends a b p : appends (on_mismatch fuel cfg a b p).
Proof. unfold on_mismatch. amain. Qed.
Lemma on_typeMismatch_appends a b p : appends (on_typeMismatch fuel cfg a b p).
Proof. unfold on_typeMismatch. amain. Qed.
Lemma on_progressDirs_appends a b p : appends (FS := FS) (on_progressDirs cfg a b p).
Proof. unfold on_progressDirs. amain. Qed.
Lemma on_progressFiles_appends a b p : appends (FS := FS) (on_progressFiles cfg a b p).
Proof. unfold on_progressFiles. amain. Qed.
Lemma on_ignoredDir_appends a p : appends (FS := FS) (on_ignoredDir cfg a p).
Proof. unfold on_ignoredDir. amain. Qed.
Lemma on_ignoredFile_appends a p : appends (FS := FS) (on_ignoredFile cfg a p).
Proof. unfold on_ignoredFile. amain. Qed.

Lemma on_srcOnly_speaks es d :
  ignoreSrcFile (filename es) params = false -> speaks (on_srcOnly fuel cfg es d params).
Proof.
  intros Hpass. unfold on_srcOnly. rewrite Hdiff. unfold when at 1.
  apply speaks_bind_l; [|intros _; amain].
  apply speaks_bind_l; [|intros _; amain].
  apply printDirectoryEntry_speaks. exact Hpass.
Qed.

Lemma on_dstOnly_speaks s ed :
  ignoreDstFile (filename ed) params = false -> speaks (on_dstOnly fuel cfg s ed params).
Proof.
  intros Hpass. unfold on_dstOnly. rewrite Hdiff. unfold when at 1.
  apply speaks_bind_l; [|intros _; amain].
  apply speaks_bind_l; [|intros _; amain].
  apply printDirectoryEntry_speaks. exact Hpass.
Qed.

Lemma speaks_actFS_print (line : FS -> string) :
  speaks (FS := FS) (bind actFS (fun fs => print (line fs))).
Proof.
  intros s a s'. unfold bind, actFS, print, modify. intros [= _ <-].
  eexists. exists []. reflexivity.
Qed.

Lemma on_mismatch_speaks es ed p : speaks (on_mismatch fuel cfg es ed p).
Proof.
  unfold on_mismatch. rewrite Hdiff. unfold when at 1.
  apply speaks_bind_l; [|intros _; amain]. cbv zeta.
  apply (speaks_actFS_print (fun fs => _)).
Qed.

Lemma on_typeMismatch_speaks es ed p : speaks (on_typeMismatch fuel cfg es ed p).
Proof.
  unfold on_typeMismatch. rewrite Hdiff. unfold when at 1.
  apply speaks_bind_l; [|intros _; amain].
  apply (speaks_actFS_print (fun fs => _)).
Qed.

(** *** The comparator *)

Lemma count_differences_app (a b : list Event) :
  count_differences (a ++ b) = count_differences a + count_differences b.
Proof. unfold count_differences. rewrite List.filter_app, List.length_app. reflexivity. Qed.

Lemma loud_same {A} (m : M FS A) :
  (forall w r w', m w = (r, w') -> w' = w) -> loud m.
Proof.
  intros Hsame w a w' Hrun. apply Hsame in Hrun. subst w'. exists [], [].
  rewrite !List.app_nil_r. split; [reflexivity|]. split; [reflexivity | apply le_n].
Qed.

Lemma loud_ret {A} (a : A) : loud (FS := FS) (ret a).
Proof. apply loud_same. unfold ret. intros w r w' [= _ <-]. reflexivity. Qed.

Lemma loud_getFS : loud (FS := FS) getFS.
Proof. apply loud_same. unfold getFS. intros w r w' [= _ <-]. reflexivity. Qed.

Lemma loud_liftR {A} (x : Result A) : loud (FS := FS) (liftR x).
Proof. apply loud_same. unfold liftR. intros w r w' [= _ <-]. reflexivity. Qed.

Lemma loud_bind_run {A B} (m : M FS A) (k : A -> M FS B) :
  loud m ->
  (forall a, (exists w w1, m w = (Ok a, w1)) -> loud (k a)) ->
  loud (bind m k).
Proof.
  intros Hm Hk w b w' Hrun. apply bind_Ok in Hrun as (a & w1 & Hmw & Hkw).
  destruct (Hm _ _ _ Hmw) as (e1 & l1 & He1 & Hl1 & Hc1).
  assert (Hka : loud (k a)) by (apply Hk; exists w, w1; exact Hmw).
  destruct (Hka _ _ _ Hkw) as (e2 & l2 & He2 & Hl2 & Hc2).
  exists (e1 ++ e2), (l1 ++ l2).
  split; [rewrite He2, He1, List.app_assoc; reflexivity|].
  split; [rewrite Hl2, Hl1, List.app_assoc; reflexivity|].
  rewrite count_differences_app, List.length_app. lia.
Qed.

Lemma loud_bind {A B} (m : M FS A) (k : A -> M FS B) :
  loud m -> (forall a, loud (k a)) -> loud (bind m k).
Proof. intros Hm Hk. apply loud_bind_run; [exact Hm | intros a _; apply Hk]. Qed.

(** A report: its callback prints, and prints a line if the report is one
    of a difference. *)
Lemma loud_notify (ev : Event) (a : Act FS unit) :
  appends a -> (is_difference ev = true -> speaks a) ->
  loud (bind (emit ev) (fun _ => liftAct a)).
Proof.
  intros Ha Hs w [] w' Hrun. unfold bind, emit, modify, liftAct in Hrun. simpl in Hrun.
  destruct (a (w_sys w)) as [[[]|e] s1] eqn:Has; [|discriminate Hrun].
  injection Hrun as <-. simpl. exists [ev].
  unfold count_differences. simpl.
  destruct (is_difference ev) eqn:Hd.
  - destruct (Hs eq_refl _ _ _ Has) as (line & lines & Hl).
    exists (line :: lines). split; [reflexivity|]. split; [exact Hl | simpl; lia].
  - destruct (Ha _ _ _ Has) as (lines & Hl).
    exists lines. split; [reflexivity|]. split; [exact Hl | simpl; lia].
Qed.

Lemma loud_match a b : loud (match_ params cbs a b).
Proof. apply (loud_notify (Match a b)); [apply on_match_appends | discriminate]. Qed.
Lemma loud_mismatch a b : loud (mismatch params cbs a b).
Proof.
  apply (loud_notify (Mismatch a b));
    [apply on_mismatch_appends | intros _; apply on_mismatch_speaks].
Qed.
Lemma loud_typeMismatch a b : loud (typeMismatch params cbs a b).
Proof.
  apply (loud_notify (TypeMismatch a b));
    [apply on_typeMismatch_appends | intros _; apply on_typeMismatch_speaks].
Qed.
Lemma loud_progressDirs a b : loud (progressDirs params cbs a b).
Proof.
  apply (loud_notify (ProgressDirs a b)); [apply on_progressDirs_appends | discriminate].
Qed.
Lemma loud_progressFiles a b : loud (progressFiles params cbs a b).
Proof.
  apply (loud_notify (ProgressFiles a b)); [apply on_progressFiles_appends | discriminate].
Qed.
Lemma loud_ignoredDir a : loud (ignoredDir params cbs a).
Proof. apply (loud_notify (IgnoredDir a)); [apply on_ignoredDir_appends | discriminate]. Qed.
Lemma loud_ignoredFile a : loud (ignoredFile params cbs a).
Proof. apply (loud_notify (IgnoredFile a)); [apply on_ignoredFile_appends | discriminate]. Qed.
Lemma loud_srcOnly es d :
  ignoreSrcFile (filename es) params = false -> loud (srcOnly params cbs es d).
Proof.
  intros Hpass. apply (loud_notify (SrcOnly es d));
    [apply on_srcOnly_appends | intros _; apply on_srcOnly_speaks; exact Hpass].
Qed.
Lemma loud_dstOnly s ed :
  ignoreDstFile (filename ed) params = false -> loud (dstOnly params cbs s ed).
Proof.
  intros Hpass. apply (loud_notify (DstOnly s ed));
    [apply on_dstOnly_appends | intros _; apply on_dstOnly_speaks; exact Hpass].
Qed.

Lemma loud_compareEntries (rec : path -> path -> M FS bool) (es ed : path) :
  (forall s d, loud (rec s d)) -> loud (compareEntries params cbs rec es ed).
Proof.
  intros Hrec. unfold compareEntries.
  repeat lazymatch goal with
    | |- loud (ret _) => apply loud_ret
    | |- loud getFS => apply loud_getFS
    | |- loud (match_ _ _ _ _) => apply loud_match
    | |- loud (mismatch _ _ _ _) => apply loud_mismatch
    | |- loud (typeMismatch _ _ _ _) => apply loud_typeMismatch
    | |- loud (progressFiles _ _ _ _) => apply loud_progressFiles
    | |- loud (ignoredDir _ _ _) => apply loud_ignoredDir
    | |- loud (ignoredFile _ _ _) => apply loud_ignoredFile
    | |- loud (rec _ _) => apply Hrec
    | |- loud (bind _ _) => apply loud_bind; [|intros ?]
    | |- loud (when ?c _) => unfold when; destruct c
    | |- loud (if ?c then _ else _) => destruct c
    | |- loud (match ?x with _ => _ end) => destruct x
    | |- loud (let _ := _ in _) => cbv zeta
    end.
Qed.

Lemma loud_walk (rec : path -> path -> M FS bool) (src dst : path) :
  (forall s d, loud (rec s d)) ->
  forall srcmap dstmap nd,
    (forall k e, In (k, e) srcmap -> ignoreSrcFile (filename e) params = false) ->
    (forall k e, In (k, e) dstmap -> ignoreDstFile (filename e) params = false) ->
    loud (walk params cbs rec src dst srcmap dstmap nd).
Proof.
  intros Hrec.
  induction srcmap as [|[ks es] srcmap IHs]; induction dstmap as [|[kd ed] dstmap IHd];
    intros nd Hs Hd; simpl.
  - apply loud_ret.
  - apply loud_bind; [apply loud_dstOnly; apply (Hd kd); left; reflexivity | intros _].
    apply IHd; [exact Hs | intros k e Hin; apply (Hd k); right; exact Hin].
  - apply loud_bind; [apply loud_srcOnly; apply (Hs ks); left; reflexivity | intros _].
    apply IHs; [intros k e Hin; apply (Hs k); right; exact Hin | exact Hd].
  - assert (Hs' : forall k e, In (k, e) srcmap -> ignoreSrcFile (filename e) params = false)
      by (intros k e Hin; apply (Hs k); right; exact Hin).
    assert (Hd' : forall k e, In (k, e) dstmap -> ignoreDstFile (filename e) params = false)
      by (intros k e Hin; apply (Hd k); right; exact Hin).
    destruct (str_lt ks kd); [|destruct (str_lt kd ks)].
    + apply loud_bind; [apply loud_srcOnly; apply (Hs ks); left; reflexivity | intros _].
      apply IHs; [exact Hs' | exact Hd].
    + apply loud_bind; [apply loud_dstOnly; apply (Hd kd); left; reflexivity | intros _].
      apply IHd; [exact Hs | exact Hd'].
    + apply loud_bind; [apply loud_compareEntries; exact Hrec | intros same].
      apply IHs; [exact Hs' | exact Hd'].
Qed.

Lemma loud_processDir (n : nat) (src dst : path) :
  loud (processDir params cbs n src dst).
Proof.
  revert src dst. induction n as [|n IH]; intros src dst; simpl.
  - intros w a w' Hrun. discriminate Hrun.
  - apply loud_bind; [apply loud_progressDirs | intros _].
    apply loud_bind_run.
    { unfold readSrcDir. apply loud_bind; [apply loud_getFS | intros fs].
      apply loud_bind; [apply loud_liftR | intros l; apply loud_ret]. }
    intros srcmap (w & w1 & Hs). apply readSrcDir_run in Hs as (_ & es & _ & ->).
    apply loud_bind_run.
    { unfold readDstDir. apply loud_bind; [apply loud_getFS | intros fs].
      destruct (fsExists fs dst); [|apply loud_ret].
      apply loud_bind; [apply loud_liftR | intros l; apply loud_ret]. }
    intros dstmap (w2 & w3 & Hd). apply readDstDir_run in Hd as (_ & ed & ->).
    apply loud_walk; [exact IH | |].
    + intros k e Hin. apply fillMap_slot in Hin as (_ & _ & Hi). exact Hi.
    + intros k e Hin. apply fillMap_slot in Hin as (_ & _ & Hi). exact Hi.
Qed.

End Output.

(** X20.  In [--diff] mode no difference stays silent: a run of the
    comparison that returns has added to the output, and taken nothing from
    it, at least as many lines as it has reported differences (entries on
    one side only, mismatches, type mismatches); so a run that returns false
    has printed something.  [main] returns 0 whatever is found: the output
    is where the differences show. *)
Theorem diff_prints_every_difference
    {FS : Type} `{Provider FS} (fuel : nat) (cfg : Config) (w w' : World FS) (b : bool) :
  diff cfg = true ->
  process fuel cfg w = (Ok b, w') ->
  exists evs lines,
    w_events w' = w_events w ++ evs
    /\ s_out (w_sys w') = s_out (w_sys w) ++ lines
    /\ count_differences evs <= List.length lines
    /\ (b = false -> lines <> []).
Proof.
  intros Hdiff Hrun. unfold process in Hrun.
  destruct (loud_processDir fuel cfg Hdiff fuel _ _ _ _ _ Hrun) as (evs & lines & Hev & Hl & Hc).
  exists evs, lines. split; [exact Hev|]. split; [exact Hl|]. split; [exact Hc|].
  intros Hb Hnil. subst b lines.
  destruct (processDir_verdict _ _ _ _ _ _ _ _ Hrun) as (evs' & Hev' & Hnd).
  rewrite Hev in Hev'. apply List.app_inv_head in Hev'. subst evs'.
  assert (Hz : count_differences evs = 0) by (simpl in Hc; lia).
  unfold count_differences in Hz. apply List.length_zero_iff_nil in Hz.
  assert (Hall : no_difference evs = true).
  { unfold no_difference. apply List.forallb_forall. intros ev Hin.
    destruct (is_difference ev) eqn:Hd; [|reflexivity].
    assert (Hf : In ev (List.filter is_difference evs))
      by (apply List.filter_In; split; assumption).
    rewrite Hz in Hf. destruct Hf. }
  congruence.
Qed.

Lemma diff_prints_every_difference_witness :
  let w := mkWorld (start Examples.tree1) [] in
  let w' := snd (process 4 Examples.cfgDiff w) in
  fst (process 4 Examples.cfgDiff w) = Ok false
  /\ exists evs lines,
       w_events w' = w_events w ++ evs
       /\ s_out (w_sys w') = s_out (w_sys w) ++ lines
       /\ count_differences evs <= List.length lines
       /\ (false = false -> lines <> []).
Proof.
  intros w w'.
  assert (Hrun : fst (process 4 Examples.cfgDiff w) = Ok false) by (vm_compute; reflexivity).
  split; [exact Hrun|].
  exact (diff_prints_every_difference 4 Examples.cfgDiff w w' false eq_refl
           (run_Ok _ _ _ Hrun)).
Defined.

(** ** The options of the copies *)

Section CopyOptions.

Context {FS : Type} `{Provider FS}.
Variable fuel : nat.
Variable cfg : Config.





End CopyOptions.

